(** * pendulum-sim: the numerical core, embedded and verified

    The development follows the repository's layout:
    - [utils/physics]: the integrators ([euler], [rk4]) with their
      module-level scratch buffers, and [normalizeAngle];
    - [simulations/templates/BaseSimulation]: the lifecycle shared by all
      models ([init], [step], [recordHistory], [reset], [export], ...);
    - [simulations/pendulum]: [SimplePendulum], [DoublePendulum], [NPendulum].

    A JavaScript [number] is an IEEE 754 binary64 value. The code is embedded
    once, over an interface [Number] of the operations it uses, and read at
    two instances: Rocq's primitive binary64 floats (what the program
    computes) and the real numbers (the mathematics the formulas stand for). *)

From Stdlib Require Import ZArith List Bool Lia Reals Lra Floats.
From stdpp Require Import base option list gmap strings pretty.
Import ListNotations.

(** ** Numbers *)

(** The arithmetic of a JavaScript [number], as the code uses it. *)
Class Number (F : Type) := {
  fadd : F -> F -> F;          (* a + b *)
  fsub : F -> F -> F;          (* a - b *)
  fmul : F -> F -> F;          (* a * b *)
  fdiv : F -> F -> F;          (* a / b *)
  fopp : F -> F;               (* -a *)
  fltb : F -> F -> bool;       (* a < b *)
  feqb : F -> F -> bool;       (* a === b *)
  ftruthy : F -> bool;         (* ToBoolean(a): false for 0, -0 and NaN *)
  of_Z : Z -> F;               (* an integer literal or counter *)
  fnan : F;                    (* what arithmetic makes of [undefined] *)
  fPI : F;                     (* Math.PI *)
}.

(** [Math.sin], [Math.cos] and [Math.pow(x, 2)]: ECMAScript leaves their
    results implementation-approximated, so they are an interface of their
    own, which the binary64 instance does not provide. *)
Class MathLib (F : Type) := {
  fsin : F -> F;
  fcos : F -> F;
  fpow2 : F -> F;
}.

Declare Scope num_scope.
Delimit Scope num_scope with num.
Infix "+" := fadd : num_scope.
Infix "-" := fsub : num_scope.
Infix "*" := fmul : num_scope.
Infix "/" := fdiv : num_scope.
Notation "- x" := (fopp x) : num_scope.
Notation "a <? b" := (fltb a b) : num_scope.

(** A decimal literal [n/d] with [n], [d] exact: the correctly rounded
    quotient, e.g. [lit 981 100] for [9.81] and [lit 1 2] for [0.5]. *)
Definition lit `{Number F} (n d : Z) : F := fdiv (of_Z n) (of_Z d).

(** *** binary64 *)

Definition float_of_Z (z : Z) : float :=
  match z with
  | Z0 => PrimFloat.zero
  | Zpos _ => PrimFloat.of_uint63 (Uint63.of_Z z)
  | Zneg p => PrimFloat.opp (PrimFloat.of_uint63 (Uint63.of_Z (Zpos p)))
  end.

#[export] Instance float_Number : Number float := {|
  fadd := PrimFloat.add;
  fsub := PrimFloat.sub;
  fmul := PrimFloat.mul;
  fdiv := PrimFloat.div;
  fopp := PrimFloat.opp;
  fltb := PrimFloat.ltb;
  feqb := PrimFloat.eqb;
  ftruthy := fun x => negb (PrimFloat.is_zero x || PrimFloat.is_nan x);
  of_Z := float_of_Z;
  fnan := PrimFloat.nan;
  fPI := 0x1.921fb54442d18p+1%float;
|}.

(** *** Real numbers *)

Definition Rltb (a b : R) : bool := if Rlt_dec a b then true else false.
Definition Reqb (a b : R) : bool := if Req_dec_T a b then true else false.

#[export] Instance R_Number : Number R := {|
  fadd := Rplus;
  fsub := Rminus;
  fmul := Rmult;
  fdiv := Rdiv;
  fopp := Ropp;
  fltb := Rltb;
  feqb := Reqb;
  ftruthy := fun x => negb (Reqb x 0%R);
  of_Z := IZR;
  fnan := 0%R;
  fPI := PI;
|}.

#[export] Instance R_MathLib : MathLib R := {|
  fsin := sin;
  fcos := cos;
  fpow2 := fun x => (x * x)%R;
|}.

(** ** Arrays *)

Section Arrays.
Context {F : Type} `{Number F}.

(** [a[i]] read as a number: out of range it is [undefined], which every
    arithmetic use turns into NaN. *)
Definition array_get (a : list F) (i : nat) : F := default fnan (a !! i).

(** [a[i] = v]: in range the slot is overwritten; past the end the array
    grows, the slots in between being holes. *)
Definition array_set (a : list F) (i : nat) (v : F) : list F :=
  if (i <? length a)%nat then <[i := v]> a
  else a ++ replicate (i - length a) fnan ++ [v].

(** [for (let i = 0; i < n; i++) s = body(i, s)], [n] an array length. *)
Definition for_range {S : Type} (n : nat) (body : nat -> S -> S) (s : S) : S :=
  fold_left (fun s i => body i s) (seq 0 n) s.

(** [a.slice(start)] and [a.slice(0, stop)] with integer bounds: a negative
    bound counts from the end, and bounds are clamped to the array. *)
Definition slice_index (len : nat) (k : Z) : nat :=
  if (k <? 0)%Z then Z.to_nat (Z.max (Z.of_nat len + k) 0)
  else Z.to_nat (Z.min k (Z.of_nat len)).

Definition slice_from {A : Type} (a : list A) (start : Z) : list A :=
  drop (slice_index (length a) start) a.

Definition slice_to {A : Type} (a : list A) (stop : Z) : list A :=
  take (slice_index (length a) stop) a.

(** An array holds at most [2^32 - 1] elements: a [push] past that throws. *)
Definition max_array_length : Z := 2 ^ 32 - 1.

(** Two arrays with the same first [n] slots. *)
Definition agree (n : nat) (a b : list F) : Prop :=
  forall i, (i < n)%nat -> array_get a i = array_get b i.
End Arrays.

(** ** utils/physics: integrators *)

Module Physics.
Section Integrators.
Context {F : Type} `{Number F}.
Local Open Scope num_scope.

(** The module-level buffers, [new Array(20).fill(0)] each. They live as
    long as the module and are shared by every call. *)
Record Scratch := {
  _euler_result : list F;
  _rk4_k1 : list F;
  _rk4_k2 : list F;
  _rk4_k3 : list F;
  _rk4_k4 : list F;
  _rk4_temp : list F;
  _rk4_result : list F;
}.

Definition fresh_buffer : list F := replicate 20 (of_Z 0).

Definition fresh_scratch : Scratch := {|
  _euler_result := fresh_buffer;
  _rk4_k1 := fresh_buffer;
  _rk4_k2 := fresh_buffer;
  _rk4_k3 := fresh_buffer;
  _rk4_k4 := fresh_buffer;
  _rk4_temp := fresh_buffer;
  _rk4_result := fresh_buffer;
|}.

(** [DerivativeFunc]: [f(t, state)]. The models pass a closure over [this]
    that writes a buffer of the instance and returns it, so the function
    threads the state [E] it closes over. The integrators copy what it
    returns before they call it again, so the returned array is taken by
    value. *)
Definition DerivativeFunc (E : Type) : Type := E -> F -> list F -> E * list F.

(** A derivative function without state of its own. *)
Definition pure_derivative (f : F -> list F -> list F) : DerivativeFunc unit :=
  fun e t s => (e, f t s).

(** [for (let i = 0; i < n; i++) buf[i] = src[i];] *)
Definition copy_into (n : nat) (src buf : list F) : list F :=
  for_range n (fun i b => array_set b i (array_get src i)) buf.

(** [for (let i = 0; i < n; i++) buf[i] = state[i] + h * k[i];] *)
Definition axpy_into (n : nat) (state : list F) (h : F) (k buf : list F) : list F :=
  for_range n (fun i b => array_set b i (array_get state i + h * array_get k i)) buf.

Definition euler {E : Type} (sc : Scratch) (e : E) (state : list F) (t dt : F)
    (derivatives : DerivativeFunc E) : Scratch * E * list F :=
  let n := length state in
  let '(e, d) := derivatives e t state in
  let res :=
    for_range n (fun i b => array_set b i (array_get state i + array_get d i * dt))
      (_euler_result sc) in
  ({| _euler_result := res;
      _rk4_k1 := _rk4_k1 sc; _rk4_k2 := _rk4_k2 sc; _rk4_k3 := _rk4_k3 sc;
      _rk4_k4 := _rk4_k4 sc; _rk4_temp := _rk4_temp sc;
      _rk4_result := _rk4_result sc |},
   e, take n res).

Definition rk4 {E : Type} (sc : Scratch) (e : E) (state : list F) (t dt : F)
    (derivatives : DerivativeFunc E) : Scratch * E * list F :=
  let n := length state in
  let dt2 := dt / of_Z 2 in
  let dt6 := dt / of_Z 6 in
  (* k1 = f(t, y) *)
  let '(e, k1Src) := derivatives e t state in
  let k1 := copy_into n k1Src (_rk4_k1 sc) in
  (* temp = y + dt/2 * k1, then k2 = f(t + dt/2, temp) *)
  let temp := axpy_into n state dt2 k1 (_rk4_temp sc) in
  let '(e, k2Src) := derivatives e (t + dt2) temp in
  let k2 := copy_into n k2Src (_rk4_k2 sc) in
  (* temp = y + dt/2 * k2, then k3 = f(t + dt/2, temp) *)
  let temp := axpy_into n state dt2 k2 temp in
  let '(e, k3Src) := derivatives e (t + dt2) temp in
  let k3 := copy_into n k3Src (_rk4_k3 sc) in
  (* temp = y + dt * k3, then k4 = f(t + dt, temp) *)
  let temp := axpy_into n state dt k3 temp in
  let '(e, k4Src) := derivatives e (t + dt) temp in
  let k4 := copy_into n k4Src (_rk4_k4 sc) in
  (* y(t + dt) = y + dt/6 * (k1 + 2*k2 + 2*k3 + k4) *)
  let res :=
    for_range n
      (fun i b =>
         array_set b i
           (array_get state i
            + dt6 * (array_get k1 i + of_Z 2 * array_get k2 i
                     + of_Z 2 * array_get k3 i + array_get k4 i)))
      (_rk4_result sc) in
  ({| _euler_result := _euler_result sc;
      _rk4_k1 := k1; _rk4_k2 := k2; _rk4_k3 := k3; _rk4_k4 := k4;
      _rk4_temp := temp; _rk4_result := res |},
   e, take n res).

(** [normalizeAngle]: two [while] loops, each run on a budget of
    iterations; [None] when the budget does not reach the loop's exit. *)
Fixpoint while_above (fuel : nat) (angle : F) : option F :=
  match fuel with
  | O => None
  | S fuel' =>
      if fPI <? angle then while_above fuel' (angle - of_Z 2 * fPI)
      else Some angle
  end.

Fixpoint while_below (fuel : nat) (angle : F) : option F :=
  match fuel with
  | O => None
  | S fuel' =>
      if angle <? - fPI then while_below fuel' (angle + of_Z 2 * fPI)
      else Some angle
  end.

Definition normalizeAngle (fuel : nat) (angle : F) : option F :=
  match while_above fuel angle with
  | Some a => while_below fuel a
  | None => None
  end.

(** The update of the specification, on vectors of the state's length:
    [k1 = f(t,y)], [k2 = f(t+dt/2, y+dt/2*k1)], [k3 = f(t+dt/2, y+dt/2*k2)],
    [k4 = f(t+dt, y+dt*k3)], [y' = y + dt/6*(k1+2k2+2k3+k4)]. *)
Definition axpy (y : list F) (h : F) (k : list F) : list F :=
  map (fun i => array_get y i + h * array_get k i) (seq 0 (length y)).

Definition rk4_classic (y : list F) (t dt : F) (f : F -> list F -> list F) : list F :=
  let k1 := f t y in
  let k2 := f (t + dt / of_Z 2) (axpy y (dt / of_Z 2) k1) in
  let k3 := f (t + dt / of_Z 2) (axpy y (dt / of_Z 2) k2) in
  let k4 := f (t + dt) (axpy y dt k3) in
  map (fun i =>
         array_get y i
         + dt / of_Z 6 * (array_get k1 i + of_Z 2 * array_get k2 i
                          + of_Z 2 * array_get k3 i + array_get k4 i))
      (seq 0 (length y)).

(** [f] looks at the first [n] slots of the array it is given, and no
    further, to produce its first [n] results. *)
Definition reads_prefix (n : nat) (f : F -> list F -> list F) : Prop :=
  forall t s tail i,
    length s = n -> (i < n)%nat ->
    array_get (f t (s ++ tail)) i = array_get (f t s) i.

(** Run from related environments on arrays with one prefix of the length
    of [y], the derivative function returns related environments and arrays
    with one such prefix. *)
Definition prefix_determined {E : Type} (R : E -> E -> Prop) (D : DerivativeFunc E)
    (y : list F) : Prop :=
  forall e1 e2 t s tail1 tail2,
    R e1 e2 -> length s = length y ->
    R (D e1 t (s ++ tail1)).1 (D e2 t (s ++ tail2)).1
    /\ agree (length y) (D e1 t (s ++ tail1)).2 (D e2 t (s ++ tail2)).2.
End Integrators.
End Physics.

(** ** core/types/simulation *)

Module Types.
Section Types.
Context {F : Type}.

Record Vector3 := { x : F; y : F; z : F }.

Record PhysicsState := {
  ps_time : F;                      (* time *)
  positions : list Vector3;
  velocities : list Vector3;
}.

Record EnergyState := { kinetic : F; potential : F; total : F }.

Record PhasePoint := { angle : F; angularVelocity : F; pp_time : F }.

Record ParameterDef := {
  value : F;
  min : option F;
  max : option F;
  step_size : option F;             (* step *)
  label : string;
}.

Record SimulationMeta := {
  id : string;
  name : string;
  description : string;
  category : string;
  tags : list string;
}.

Inductive IntegrationMethod := Euler | Verlet | RK4.

(** [physics] of [SimulationConfig]; the [visualization] and [camera]
    defaults are rendering data that the core never reads. *)
Record PhysicsSettings := {
  gravity : F;
  damping : F;
  integrationMethod : IntegrationMethod;
  fixedTimestep : F;
}.

Record SimulationConfig := {
  meta : SimulationMeta;
  defaultParams : gmap string ParameterDef;
  physics : PhysicsSettings;
}.

Record TimeSeries := {
  ts_time : list F;
  ts_positions : list (list Vector3);
  ts_velocities : list (list Vector3);
  ts_energy : list EnergyState;
}.

Record ExportData := {
  ex_meta : SimulationMeta;
  ex_params : gmap string F;
  timeSeries : TimeSeries;
  phaseSpace : option (list (list PhasePoint));
}.
End Types.
Arguments Vector3 : clear implicits.
Arguments PhysicsState : clear implicits.
Arguments EnergyState : clear implicits.
Arguments PhasePoint : clear implicits.
Arguments ParameterDef : clear implicits.
Arguments PhysicsSettings : clear implicits.
Arguments SimulationConfig : clear implicits.
Arguments TimeSeries : clear implicits.
Arguments ExportData : clear implicits.
End Types.

(** ** simulations/templates/BaseSimulation *)

Module BaseSimulation.
Import Types Physics.
Section BaseSimulation.
Context {F : Type} `{Number F}.
Local Open Scope num_scope.

(** What a subclass supplies: its [config], its own fields ([Fields], with
    their initial values), and the abstract methods. Each method is given the
    members of [this] that it reads: [params], the subclass fields, and
    [time] and [state] where it uses them. [createInitialState] is [None]
    when it does not return. *)
Record Model := {
  Fields : Type;
  fields_init : Fields;
  config : SimulationConfig F;
  createInitialState : gmap string F -> Fields -> option (Fields * list F);
  computeDerivatives : gmap string F -> Fields -> F -> list F -> Fields * list F;
  stateToPhysics : gmap string F -> Fields -> F -> list F -> PhysicsState F;
  getEnergy : gmap string F -> Fields -> list F -> EnergyState F;
  getPhaseSpace : option (Fields -> F -> list F -> list (PhasePoint F));
}.

Variable M : Model.

(** The fields of an instance. *)
Record Sim := {
  time : F;
  state : list F;
  initialState : list F;
  params : gmap string F;
  timeHistory : list F;
  positionHistory : list (list (Vector3 F));
  velocityHistory : list (list (Vector3 F));
  energyHistory : list (EnergyState F);
  phaseHistory : list (list (PhasePoint F));
  maxHistoryLength : Z;
  recordingEnabled : bool;
  fields : Fields M;
}.

(** The field initialisers: a newly constructed instance. *)
Definition new : Sim := {|
  time := of_Z 0;
  state := [];
  initialState := [];
  params := ∅;
  timeHistory := [];
  positionHistory := [];
  velocityHistory := [];
  energyHistory := [];
  phaseHistory := [];
  maxHistoryLength := 10000;
  recordingEnabled := false;
  fields := fields_init M;
|}.

Definition getDefaultParams : gmap string F := value <$> defaultParams (config M).

Definition clearHistory (s : Sim) : Sim := {|
  time := time s; state := state s; initialState := initialState s;
  params := params s;
  timeHistory := []; positionHistory := []; velocityHistory := [];
  energyHistory := []; phaseHistory := [];
  maxHistoryLength := maxHistoryLength s;
  recordingEnabled := recordingEnabled s; fields := fields s;
|}.

(** [{ ...this.getDefaultParams(), ...params }]: the supplied parameters win. *)
Definition init (s : Sim) (p : gmap string F) : option Sim :=
  let merged := p ∪ getDefaultParams in
  match createInitialState M merged (fields s) with
  | None => None
  | Some (fs, st) =>
      Some (clearHistory {|
        time := of_Z 0; state := st; initialState := st; params := merged;
        timeHistory := timeHistory s; positionHistory := positionHistory s;
        velocityHistory := velocityHistory s; energyHistory := energyHistory s;
        phaseHistory := phaseHistory s;
        maxHistoryLength := maxHistoryLength s;
        recordingEnabled := recordingEnabled s; fields := fs;
      |})
  end.

(** [phase.forEach((p, i) => { if (!this.phaseHistory[i]) this.phaseHistory[i] = [];
    this.phaseHistory[i].push(p); })] *)
Definition push_phase (ph : list (list (PhasePoint F))) (i : nat) (p : PhasePoint F)
  : list (list (PhasePoint F)) :=
  match ph !! i with
  | Some h => <[i := h ++ [p]]> ph
  | None => ph ++ replicate (i - length ph) [] ++ [[p]]
  end.

Definition push_phases (ph : list (list (PhasePoint F))) (phase : list (PhasePoint F))
  : list (list (PhasePoint F)) :=
  fold_left (fun acc ip => push_phase acc ip.1 ip.2) (imap pair phase) ph.

Definition recordHistory (physics : PhysicsState F) (s : Sim) : Sim :=
  if negb (recordingEnabled s) then s
  else
    let keep := (- maxHistoryLength s + 1000)%Z in
    let full := (maxHistoryLength s <=? Z.of_nat (length (timeHistory s)))%Z in
    let th := if full then slice_from (timeHistory s) keep else timeHistory s in
    let ph := if full then slice_from (positionHistory s) keep else positionHistory s in
    let vh := if full then slice_from (velocityHistory s) keep else velocityHistory s in
    let eh := if full then slice_from (energyHistory s) keep else energyHistory s in
    let fh := if full then map (fun h => slice_from h keep) (phaseHistory s)
              else phaseHistory s in
    {|
      time := time s; state := state s; initialState := initialState s;
      params := params s;
      timeHistory := th ++ [ps_time physics];
      positionHistory := ph ++ [positions physics];
      velocityHistory := vh ++ [velocities physics];
      energyHistory := eh ++ [getEnergy M (params s) (fields s) (state s)];
      phaseHistory :=
        match getPhaseSpace M with
        | Some phase => push_phases fh (phase (fields s) (time s) (state s))
        | None => fh
        end;
      maxHistoryLength := maxHistoryLength s;
      recordingEnabled := recordingEnabled s; fields := fields s;
    |}.

(** [step(dt)]: the module's scratch buffers go in and come out. *)
Definition step (sc : Scratch) (s : Sim) (dt : F) : Scratch * Sim * PhysicsState F :=
  let actualDt :=
    if ftruthy (fixedTimestep (physics (config M)))
    then fixedTimestep (physics (config M)) else dt in
  let '(sc', fs, st) :=
    match integrationMethod (physics (config M)) with
    | Euler =>
        euler sc (fields s) (state s) (time s) actualDt (computeDerivatives M (params s))
    | _ =>
        rk4 sc (fields s) (state s) (time s) actualDt (computeDerivatives M (params s))
    end in
  let s1 := {|
    time := time s + actualDt; state := st; initialState := initialState s;
    params := params s;
    timeHistory := timeHistory s; positionHistory := positionHistory s;
    velocityHistory := velocityHistory s; energyHistory := energyHistory s;
    phaseHistory := phaseHistory s;
    maxHistoryLength := maxHistoryLength s;
    recordingEnabled := recordingEnabled s; fields := fs;
  |} in
  let physicsState := stateToPhysics M (params s1) (fields s1) (time s1) (state s1) in
  (sc', recordHistory physicsState s1, physicsState).

Definition enableRecording (s : Sim) (enabled : bool) : Sim :=
  let s1 := {|
    time := time s; state := state s; initialState := initialState s;
    params := params s;
    timeHistory := timeHistory s; positionHistory := positionHistory s;
    velocityHistory := velocityHistory s; energyHistory := energyHistory s;
    phaseHistory := phaseHistory s;
    maxHistoryLength := maxHistoryLength s;
    recordingEnabled := enabled; fields := fields s;
  |} in
  if enabled then clearHistory s1 else s1.

Definition reset (s : Sim) : Sim :=
  clearHistory {|
    time := of_Z 0; state := initialState s; initialState := initialState s;
    params := params s;
    timeHistory := timeHistory s; positionHistory := positionHistory s;
    velocityHistory := velocityHistory s; energyHistory := energyHistory s;
    phaseHistory := phaseHistory s;
    maxHistoryLength := maxHistoryLength s;
    recordingEnabled := recordingEnabled s; fields := fields s;
  |}.

Definition export (s : Sim) : ExportData F := {|
  ex_meta := meta (config M);
  ex_params := params s;
  timeSeries := {|
    ts_time := timeHistory s;
    ts_positions := positionHistory s;
    ts_velocities := velocityHistory s;
    ts_energy := energyHistory s;
  |};
  phaseSpace :=
    if (0 <? length (phaseHistory s))%nat then Some (phaseHistory s) else None;
|}.

Definition getTime (s : Sim) : F := time s.

Definition getParams (s : Sim) : gmap string F := params s.

(** [{ ...this.params, ...params }]: the supplied entries win. *)
Definition setParams (s : Sim) (p : gmap string F) : Sim := {|
  time := time s; state := state s; initialState := initialState s;
  params := p ∪ params s;
  timeHistory := timeHistory s; positionHistory := positionHistory s;
  velocityHistory := velocityHistory s; energyHistory := energyHistory s;
  phaseHistory := phaseHistory s;
  maxHistoryLength := maxHistoryLength s;
  recordingEnabled := recordingEnabled s; fields := fields s;
|}.

(** The integration inside [step], with the step size [h] it settles on. *)
Definition integrate (sc : Scratch) (s : Sim) (h : F) : Scratch * Fields M * list F :=
  match integrationMethod (physics (config M)) with
  | Euler => euler sc (fields s) (state s) (time s) h (computeDerivatives M (params s))
  | _ => rk4 sc (fields s) (state s) (time s) h (computeDerivatives M (params s))
  end.

(** The public operations of an instance, and what a call leaves behind. *)
Inductive Call :=
| CallInit (p : gmap string F)
| CallStep (dt : F)
| CallGetEnergy
| CallGetPhaseSpace
| CallReset
| CallExport
| CallEnableRecording (enabled : bool)
| CallGetTime
| CallGetParams
| CallSetParams (p : gmap string F).

Inductive Returned :=
| RetVoid
| RetPhysics (ps : PhysicsState F)
| RetEnergy (e : EnergyState F)
| RetPhase (ph : option (list (PhasePoint F)))
| RetExport (d : ExportData F)
| RetNumber (v : F)
| RetParams (p : gmap string F).

Definition perform (c : Call) (sc : Scratch) (s : Sim) : option (Scratch * Sim * Returned) :=
  match c with
  | CallInit p =>
      match init s p with
      | Some s' => Some (sc, s', RetVoid)
      | None => None
      end
  | CallStep dt => let '(sc', s', ps) := step sc s dt in Some (sc', s', RetPhysics ps)
  | CallGetEnergy => Some (sc, s, RetEnergy (getEnergy M (params s) (fields s) (state s)))
  | CallGetPhaseSpace =>
      Some (sc, s,
            RetPhase (match getPhaseSpace M with
                      | Some phase => Some (phase (fields s) (time s) (state s))
                      | None => None
                      end))
  | CallReset => Some (sc, reset s, RetVoid)
  | CallExport => Some (sc, s, RetExport (export s))
  | CallEnableRecording enabled => Some (sc, enableRecording s enabled, RetVoid)
  | CallGetTime => Some (sc, s, RetNumber (getTime s))
  | CallGetParams => Some (sc, s, RetParams (getParams s))
  | CallSetParams p => Some (sc, setParams s p, RetVoid)
  end.

Fixpoint perform_all (cs : list Call) (sc : Scratch) (s : Sim) : option (Scratch * Sim) :=
  match cs with
  | [] => Some (sc, s)
  | c :: cs' =>
      match perform c sc s with
      | Some (sc', s', _) => perform_all cs' sc' s'
      | None => None
      end
  end.

(** [step] called once per entry of [dts]: the states it returns, in order. *)
Fixpoint steps (sc : Scratch) (s : Sim) (dts : list F)
  : Scratch * Sim * list (PhysicsState F) :=
  match dts with
  | [] => (sc, s, [])
  | dt :: dts' =>
      let '(sc1, s1, ps) := step sc s dt in
      let '(sc2, s2, out) := steps sc1 s1 dts' in
      (sc2, s2, ps :: out)
  end.

(** A run of [step] over [dts] from [s], then [reset], then the run again:
    the reset instance has the state vector and time that [s] had, and the
    second run returns what the first returned. *)
Definition replays (sc : Scratch) (s : Sim) (dts : list F) : Prop :=
  let run1 := steps sc s dts in
  let restarted := reset run1.1.2 in
  state restarted = state s
  /\ time restarted = of_Z 0
  /\ (steps run1.1.1 restarted dts).2 = run1.2.

(** The four parallel series have one length, at most the maximum. *)
Definition history_bounded (s : Sim) : Prop :=
  maxHistoryLength s = 10000%Z
  /\ length (positionHistory s) = length (timeHistory s)
  /\ length (velocityHistory s) = length (timeHistory s)
  /\ length (energyHistory s) = length (timeHistory s)
  /\ (Z.of_nat (length (timeHistory s)) <= 10000)%Z.

(** Drop-oldest: what is kept of a series before a sample is appended. *)
Definition retained {A : Type} (h : list A) : list A :=
  if (10000 <=? Z.of_nat (length h))%Z
  then drop (Z.to_nat (Z.of_nat (length h) - 9000)) h else h.
End BaseSimulation.
Arguments Model : clear implicits.
Arguments Call : clear implicits.
Arguments Returned : clear implicits.
Arguments time {F M}.
Arguments state {F M}.
Arguments initialState {F M}.
Arguments params {F M}.
Arguments timeHistory {F M}.
Arguments positionHistory {F M}.
Arguments velocityHistory {F M}.
Arguments energyHistory {F M}.
Arguments phaseHistory {F M}.
Arguments maxHistoryLength {F M}.
Arguments recordingEnabled {F M}.
Arguments fields {F M}.
Arguments clearHistory {F M}.
Arguments recordHistory {F M}.
Arguments enableRecording {F M}.
Arguments export {F M}.
Arguments getTime {F M}.
Arguments getParams {F M}.
Arguments setParams {F M}.
Arguments history_bounded {F M}.
Arguments init {F H M}.
Arguments step {F H M}.
Arguments reset {F H M}.
Arguments integrate {F H M}.
Arguments perform {F H M}.
Arguments perform_all {F H M}.
Arguments steps {F H M}.
Arguments replays {F H M}.

Section Replaying.
Context {F : Type} `{Number F}.
Variable M : Model F.

(** What makes a model's run a function of its state vector, time and
    parameters alone: the subclass fields matter only up to [same] (scratch
    contents are free), and the derivative function reads the [dim] slots of
    the state and no further. *)
Record Replayable := {
  same : Fields M -> Fields M -> Prop;
  dim : Fields M -> nat;
  same_equiv : Equivalence same;
  same_dim : forall f1 f2, same f1 f2 -> dim f1 = dim f2;
  init_dim : forall p f f' st,
    createInitialState M p f = Some (f', st) -> length st = dim f';
  deriv_prefix : forall p f1 f2 t s tail1 tail2,
    same f1 f2 -> length s = dim f1 ->
    same (computeDerivatives M p f1 t (s ++ tail1)).1
         (computeDerivatives M p f2 t (s ++ tail2)).1
    /\ agree (dim f1) (computeDerivatives M p f1 t (s ++ tail1)).2
         (computeDerivatives M p f2 t (s ++ tail2)).2;
  deriv_keeps : forall p f t s, same f (computeDerivatives M p f t s).1;
  physics_same : forall p f1 f2 t s,
    same f1 f2 -> stateToPhysics M p f1 t s = stateToPhysics M p f2 t s;
}.

Variable L : Replayable.

(** Two instances that a run cannot tell apart. *)
Definition alike (s s' : Sim M) : Prop :=
  time s = time s' /\ state s = state s' /\ params s = params s'
  /\ same L (fields s) (fields s') /\ length (state s) = dim L (fields s).
End Replaying.
Arguments Replayable {F H} M.
Arguments same {F H M}.
Arguments dim {F H M}.
Arguments alike {F H M}.
Arguments same_equiv {F H M}.
Arguments same_dim {F H M}.
Arguments init_dim {F H M}.
Arguments deriv_prefix {F H M}.
Arguments deriv_keeps {F H M}.
Arguments physics_same {F H M}.
End BaseSimulation.

(** ** simulations/pendulum *)

Section ModelHelpers.
Context {F : Type} `{Number F} `{MathLib F}.
Import Types.
Local Open Scope num_scope.

(** [p.key] read as a number: a missing key is [undefined]. *)
Definition param (p : gmap string F) (key : string) : F := default fnan (p !! key).

Definition def (v lo hi st : F) (l : string) : ParameterDef F :=
  {| value := v; min := Some lo; max := Some hi; step_size := Some st; label := l |}.

(** [polarToCartesian(r, theta, originX, originY)] of utils/physics. *)
Definition polarToCartesian (r theta originX originY : F) : F * F :=
  (originX + r * fsin theta, originY - r * fcos theta).
End ModelHelpers.

Module SimplePendulum.
Import Types Physics BaseSimulation.
Section SimplePendulum.
Context {F : Type} `{Number F} `{MathLib F}.
Local Open Scope num_scope.

Definition config : SimulationConfig F := {|
  meta := {| id := "simple-pendulum"; name := "Simple Pendulum"; description := "";
             category := "pendulum"; tags := [] |};
  defaultParams :=
    {[ "length" := def (of_Z 2) (lit 1 10) (of_Z 10) (lit 1 10) "Length (m)";
       "mass" := def (of_Z 1) (lit 1 10) (of_Z 10) (lit 1 10) "Mass (kg)";
       "gravity" := def (lit 981 100) (lit 1 10) (of_Z 25) (lit 1 100) "Gravity (m/s²)";
       "damping" := def (of_Z 0) (of_Z 0) (of_Z 1) (lit 1 100) "Damping";
       "initialAngle" :=
         def (fPI / of_Z 4) (- fPI) fPI (lit 1 100) "Initial Angle (rad)";
       "initialVelocity" :=
         def (of_Z 0) (of_Z (-10)) (of_Z 10) (lit 1 10) "Initial Velocity (rad/s)" ]};
  physics := {| gravity := lit 981 100; damping := of_Z 0;
                integrationMethod := RK4; fixedTimestep := of_Z 1 / of_Z 240 |};
|}.

(** State: [[theta, omega]]. *)
Definition createInitialState (p : gmap string F) : list F :=
  [param p "initialAngle"; param p "initialVelocity"].

(** [_derivBuffer] is the only field of the subclass: two slots, both
    written on every call. *)
Definition computeDerivatives (p : gmap string F) (_derivBuffer : list F)
    (_t : F) (state : list F) : list F * list F :=
  let theta := array_get state 0 in
  let omega := array_get state 1 in
  let alpha :=
    - (param p "gravity" / param p "length") * fsin theta - param p "damping" * omega in
  let buf := array_set (array_set _derivBuffer 0 omega) 1 alpha in
  (buf, buf).

Definition stateToPhysics (p : gmap string F) (time : F) (state : list F)
  : PhysicsState F :=
  let theta := array_get state 0 in
  let omega := array_get state 1 in
  let pos := polarToCartesian (param p "length") theta (of_Z 0) (of_Z 0) in
  let v := param p "length" * omega in
  let vx := v * fcos theta in
  let vy := v * fsin theta in
  {| ps_time := time;
     positions := [ {| x := pos.1; y := pos.2; z := of_Z 0 |} ];
     velocities := [ {| x := vx; y := vy; z := of_Z 0 |} ] |}.

Definition getEnergy (p : gmap string F) (state : list F) : EnergyState F :=
  let theta := array_get state 0 in
  let omega := array_get state 1 in
  let kinetic := lit 1 2 * param p "mass" * fpow2 (param p "length" * omega) in
  let h := param p "length" * (of_Z 1 - fcos theta) in
  let potential := param p "mass" * param p "gravity" * h in
  {| kinetic := kinetic; potential := potential; total := kinetic + potential |}.

Definition getPhaseSpace (time : F) (state : list F) : list (PhasePoint F) :=
  let theta := array_get state 0 in
  let omega := array_get state 1 in
  [ {| angle := theta; angularVelocity := omega; pp_time := time |} ].

Definition model : Model F := {|
  Fields := list F;
  fields_init := [of_Z 0; of_Z 0];
  BaseSimulation.config := config;
  BaseSimulation.createInitialState := fun p buf => Some (buf, createInitialState p);
  BaseSimulation.computeDerivatives := computeDerivatives;
  BaseSimulation.stateToPhysics := fun p _ => stateToPhysics p;
  BaseSimulation.getEnergy := fun p _ => getEnergy p;
  BaseSimulation.getPhaseSpace := Some (fun _ => getPhaseSpace);
|}.
End SimplePendulum.
End SimplePendulum.

Module DoublePendulum.
Import Types Physics BaseSimulation.
Section DoublePendulum.
Context {F : Type} `{Number F} `{MathLib F}.
Local Open Scope num_scope.

Definition config : SimulationConfig F := {|
  meta := {| id := "double-pendulum"; name := "Double Pendulum"; description := "";
             category := "pendulum"; tags := [] |};
  defaultParams :=
    {[ "length1" := def (lit 3 2) (lit 1 10) (of_Z 5) (lit 1 10) "Length 1 (m)";
       "length2" := def (lit 3 2) (lit 1 10) (of_Z 5) (lit 1 10) "Length 2 (m)";
       "mass1" := def (of_Z 1) (lit 1 10) (of_Z 10) (lit 1 10) "Mass 1 (kg)";
       "mass2" := def (of_Z 1) (lit 1 10) (of_Z 10) (lit 1 10) "Mass 2 (kg)";
       "gravity" := def (lit 981 100) (lit 1 10) (of_Z 25) (lit 1 100) "Gravity (m/s²)";
       "damping" := def (of_Z 0) (of_Z 0) (lit 1 2) (lit 1 100) "Damping";
       "initialAngle1" :=
         def (fPI / of_Z 2) (- fPI) fPI (lit 1 100) "Initial θ₁ (rad)";
       "initialAngle2" :=
         def (fPI / of_Z 2) (- fPI) fPI (lit 1 100) "Initial θ₂ (rad)";
       "initialVelocity1" :=
         def (of_Z 0) (of_Z (-10)) (of_Z 10) (lit 1 10) "Initial ω₁ (rad/s)";
       "initialVelocity2" :=
         def (of_Z 0) (of_Z (-10)) (of_Z 10) (lit 1 10) "Initial ω₂ (rad/s)" ]};
  physics := {| gravity := lit 981 100; damping := of_Z 0;
                integrationMethod := RK4; fixedTimestep := of_Z 1 / of_Z 480 |};
|}.

(** State: [[theta1, theta2, omega1, omega2]]. *)
Definition createInitialState (p : gmap string F) : list F :=
  [param p "initialAngle1"; param p "initialAngle2";
   param p "initialVelocity1"; param p "initialVelocity2"].

(** The two angular accelerations of [computeDerivatives], as the code
    writes them. *)
Definition alpha1 (L1 L2 m1 m2 g damping theta1 theta2 omega1 omega2 : F) : F :=
  let delta := theta1 - theta2 in
  let sinDelta := fsin delta in
  let cosDelta := fcos delta in
  let denom1 := L1 * (of_Z 2 * m1 + m2 - m2 * fcos (of_Z 2 * delta)) in
  (- g * (of_Z 2 * m1 + m2) * fsin theta1
   - m2 * g * fsin (theta1 - of_Z 2 * theta2)
   - of_Z 2 * sinDelta * m2 * (omega2 * omega2 * L2 + omega1 * omega1 * L1 * cosDelta))
  / denom1
  - damping * omega1.

Definition alpha2 (L1 L2 m1 m2 g damping theta1 theta2 omega1 omega2 : F) : F :=
  let delta := theta1 - theta2 in
  let sinDelta := fsin delta in
  let cosDelta := fcos delta in
  let denom2 := L2 * (of_Z 2 * m1 + m2 - m2 * fcos (of_Z 2 * delta)) in
  (of_Z 2 * sinDelta
   * (omega1 * omega1 * L1 * (m1 + m2)
      + g * (m1 + m2) * fcos theta1
      + omega2 * omega2 * L2 * m2 * cosDelta))
  / denom2
  - damping * omega2.

(** [_derivBuffer] is the only field of the subclass: four slots, all
    written on every call. *)
Definition computeDerivatives (p : gmap string F) (_derivBuffer : list F)
    (_t : F) (state : list F) : list F * list F :=
  let theta1 := array_get state 0 in
  let theta2 := array_get state 1 in
  let omega1 := array_get state 2 in
  let omega2 := array_get state 3 in
  let L1 := param p "length1" in
  let L2 := param p "length2" in
  let m1 := param p "mass1" in
  let m2 := param p "mass2" in
  let g := param p "gravity" in
  let damping := param p "damping" in
  let a1 := alpha1 L1 L2 m1 m2 g damping theta1 theta2 omega1 omega2 in
  let a2 := alpha2 L1 L2 m1 m2 g damping theta1 theta2 omega1 omega2 in
  let buf :=
    array_set (array_set (array_set (array_set _derivBuffer 0 omega1) 1 omega2) 2 a1)
      3 a2 in
  (buf, buf).

Definition stateToPhysics (p : gmap string F) (time : F) (state : list F)
  : PhysicsState F :=
  let theta1 := array_get state 0 in
  let theta2 := array_get state 1 in
  let omega1 := array_get state 2 in
  let omega2 := array_get state 3 in
  let x1 := param p "length1" * fsin theta1 in
  let y1 := - param p "length1" * fcos theta1 in
  let x2 := x1 + param p "length2" * fsin theta2 in
  let y2 := y1 - param p "length2" * fcos theta2 in
  let vx1 := param p "length1" * omega1 * fcos theta1 in
  let vy1 := param p "length1" * omega1 * fsin theta1 in
  let vx2 := vx1 + param p "length2" * omega2 * fcos theta2 in
  let vy2 := vy1 + param p "length2" * omega2 * fsin theta2 in
  {| ps_time := time;
     positions := [ {| x := x1; y := y1; z := of_Z 0 |};
                    {| x := x2; y := y2; z := of_Z 0 |} ];
     velocities := [ {| x := vx1; y := vy1; z := of_Z 0 |};
                     {| x := vx2; y := vy2; z := of_Z 0 |} ] |}.

Definition getEnergy (p : gmap string F) (state : list F) : EnergyState F :=
  let theta1 := array_get state 0 in
  let theta2 := array_get state 1 in
  let omega1 := array_get state 2 in
  let omega2 := array_get state 3 in
  let L1 := param p "length1" in
  let L2 := param p "length2" in
  let m1 := param p "mass1" in
  let m2 := param p "mass2" in
  let g := param p "gravity" in
  let y1 := - L1 * fcos theta1 in
  let y2 := y1 - L2 * fcos theta2 in
  let v1Sq := fpow2 (L1 * omega1) in
  let v2Sq :=
    fpow2 (L1 * omega1) + fpow2 (L2 * omega2)
    + of_Z 2 * L1 * L2 * omega1 * omega2 * fcos (theta1 - theta2) in
  let kinetic := lit 1 2 * m1 * v1Sq + lit 1 2 * m2 * v2Sq in
  let potential := m1 * g * (y1 + L1) + m2 * g * (y2 + L1 + L2) in
  {| kinetic := kinetic; potential := potential; total := kinetic + potential |}.

Definition getPhaseSpace (time : F) (state : list F) : list (PhasePoint F) :=
  let theta1 := array_get state 0 in
  let theta2 := array_get state 1 in
  let omega1 := array_get state 2 in
  let omega2 := array_get state 3 in
  [ {| angle := theta1; angularVelocity := omega1; pp_time := time |};
    {| angle := theta2; angularVelocity := omega2; pp_time := time |} ].

Definition model : Model F := {|
  Fields := list F;
  fields_init := [of_Z 0; of_Z 0; of_Z 0; of_Z 0];
  BaseSimulation.config := config;
  BaseSimulation.createInitialState := fun p buf => Some (buf, createInitialState p);
  BaseSimulation.computeDerivatives := computeDerivatives;
  BaseSimulation.stateToPhysics := fun p _ => stateToPhysics p;
  BaseSimulation.getEnergy := fun p _ => getEnergy p;
  BaseSimulation.getPhaseSpace := Some (fun _ => getPhaseSpace);
|}.
End DoublePendulum.
End DoublePendulum.

(** ** Loops bounded by a number *)

Section Counting.
Context {F : Type} `{Number F}.

Definition of_nat (i : nat) : F := of_Z (Z.of_nat i).

(** [for (let i = 0; i < n; i++)] with [n] a number: the counter is tested
    against [n] before every round. [scan_lt p n i] runs [p] tests from
    counter [i]: [inl r] when the test fails at [r], [inr j] when all [p]
    pass and the counter has reached [j]. *)
Fixpoint scan_lt (p : positive) (n : F) (i : Z) : Z + Z :=
  match p with
  | xH => if fltb (of_Z i) n then inr (i + 1)%Z else inl i
  | xO q =>
      match scan_lt q n i with
      | inl r => inl r
      | inr j => scan_lt q n j
      end
  | xI q =>
      match scan_lt q n i with
      | inl r => inl r
      | inr j =>
          match scan_lt q n j with
          | inl r => inl r
          | inr j' => if fltb (of_Z j') n then inr (j' + 1)%Z else inl j'
          end
      end
  end.

(** The number of rounds of the loop. A binary64 counter stops advancing at
    [2^53]: a loop still running there never ends, which is [None]. *)
Definition trip_count (n : F) : option nat :=
  match scan_lt (2 ^ 53) n 0 with
  | inl r => Some (Z.to_nat r)
  | inr j => if fltb (of_Z j) n then None else Some (Z.to_nat j)
  end.

(** [n] as a count of things: the rounds of the loop, when the loop never
    runs (nothing then reads [n] as a number) or [n] is that integer itself. *)
Definition count_of (n : F) : option nat :=
  match trip_count n with
  | Some O => Some O
  | Some c => if feqb n (of_nat c) then Some c else None
  | None => None
  end.
End Counting.

Module NPendulum.
Import Types Physics BaseSimulation.
Section NPendulum.
Context {F : Type} `{Number F} `{MathLib F}.
Local Open Scope num_scope.

Definition config : SimulationConfig F := {|
  meta := {| id := "n-pendulum"; name := "N-Pendulum Chain"; description := "";
             category := "pendulum"; tags := [] |};
  defaultParams :=
    {[ "n" := def (of_Z 3) (of_Z 2) (of_Z 10) (of_Z 1) "Number of Pendulums";
       "segmentLength" := def (lit 8 10) (lit 1 10) (of_Z 2) (lit 1 10) "Segment Length (m)";
       "segmentMass" := def (of_Z 1) (lit 1 10) (of_Z 5) (lit 1 10) "Segment Mass (kg)";
       "gravity" := def (lit 981 100) (lit 1 10) (of_Z 25) (lit 1 100) "Gravity (m/s²)";
       "damping" := def (lit 1 100) (of_Z 0) (lit 1 2) (lit 1 100) "Damping";
       "initialSpread" :=
         def (fPI / of_Z 6) (of_Z 0) fPI (lit 1 100) "Initial Spread (rad)" ]};
  physics := {| gravity := lit 981 100; damping := lit 1 100;
                integrationMethod := RK4; fixedTimestep := of_Z 1 / of_Z 480 |};
|}.

(** The fields of the subclass. [n] is kept as the count it is: the number
    of rounds of every loop over [this.n], and inside such a loop [this.n]
    is the number [of_nat n]. The embedding covers the instances whose [n]
    is an integer, or one that lets no loop run. *)
Record NFields := {
  n : nat;
  _derivBuffer : list F;
  _alphasBuffer : list F;
}.

Definition fields_init : NFields := {|
  n := 3;
  _derivBuffer := replicate 20 (of_Z 0);
  _alphasBuffer := replicate 10 (of_Z 0);
|}.

(** State: [[theta1, ..., thetaN, omega1, ..., omegaN]]. [None] when the
    method does not return a state: the loops over [p.n] do not end, or
    their [2n] pushes outgrow an array; and for a fractional [p.n], which
    the embedding does not cover. *)
Definition createInitialState (p : gmap string F) (fs : NFields)
  : option (NFields * list F) :=
  match count_of (param p "n") with
  | None => None
  | Some c =>
      if (max_array_length <? Z.of_nat c + Z.of_nat c)%Z then None
      else
        let state : list F := [] in
        let state :=
          for_range c
            (fun i st =>
               st ++ [param p "initialSpread" * (of_Z 1 - of_nat i / of_nat c)])
            state in
        let state := for_range c (fun _ st => st ++ [of_Z 0]) state in
        Some ({| n := c; _derivBuffer := _derivBuffer fs;
                 _alphasBuffer := _alphasBuffer fs |}, state)
  end.

(** The angular acceleration of segment [i], as the first loop of
    [computeDerivatives] accumulates it. *)
Definition alpha_of (p : gmap string F) (n : nat) (state : list F) (i : nat) : F :=
  let g := param p "gravity" in
  let L := param p "segmentLength" in
  let damping := param p "damping" in
  let theta_i := array_get state i in
  let omega_i := array_get state (n + i) in
  let alpha := of_Z 0 in
  let alpha := alpha - g / L * fsin theta_i * (of_nat n - of_nat i) in
  let alpha :=
    if (0 <? i)%nat then
      let delta := theta_i - array_get state (i - 1) in
      let omega_prev := array_get state (n + i - 1) in
      alpha + omega_prev * omega_prev * fsin delta / of_Z 2
    else alpha in
  let alpha :=
    if (i <? n - 1)%nat then
      let delta := array_get state (i + 1) - theta_i in
      let omega_next := array_get state (n + i + 1) in
      alpha - omega_next * omega_next * fsin delta / of_Z 2
    else alpha in
  alpha - damping * omega_i.

Definition computeDerivatives (p : gmap string F) (fs : NFields) (_t : F)
    (state : list F) : NFields * list F :=
  let n := n fs in
  let alphas :=
    for_range n (fun i buf => array_set buf i (alpha_of p n state i))
      (_alphasBuffer fs) in
  let deriv :=
    for_range n
      (fun i buf =>
         array_set (array_set buf i (array_get state (n + i))) (n + i)
           (array_get alphas i))
      (_derivBuffer fs) in
  ({| n := n; _derivBuffer := deriv; _alphasBuffer := alphas |}, deriv).

Definition stateToPhysics (p : gmap string F) (fs : NFields) (time : F)
    (state : list F) : PhysicsState F :=
  let n := n fs in
  let L := param p "segmentLength" in
  let thetas := slice_to state (Z.of_nat n) in
  let omegas := slice_from state (Z.of_nat n) in
  let '(_, _, _, _, positions, velocities) :=
    for_range n
      (fun i '(x, y, vx, vy, positions, velocities) =>
         let x := x + L * fsin (array_get thetas i) in
         let y := y - L * fcos (array_get thetas i) in
         let vx := vx + L * array_get omegas i * fcos (array_get thetas i) in
         let vy := vy + L * array_get omegas i * fsin (array_get thetas i) in
         (x, y, vx, vy,
          positions ++ [ {| x := x; y := y; z := of_Z 0 |} ],
          velocities ++ [ {| x := vx; y := vy; z := of_Z 0 |} ]))
      (of_Z 0, of_Z 0, of_Z 0, of_Z 0, [], []) in
  {| ps_time := time; positions := positions; velocities := velocities |}.

Definition getEnergy (p : gmap string F) (fs : NFields) (state : list F)
  : EnergyState F :=
  let n := n fs in
  let L := param p "segmentLength" in
  let m := param p "segmentMass" in
  let g := param p "gravity" in
  let thetas := slice_to state (Z.of_nat n) in
  let omegas := slice_from state (Z.of_nat n) in
  let '(kinetic, potential, _, _, _) :=
    for_range n
      (fun i '(kinetic, potential, y, vx, vy) =>
         let y := y - L * fcos (array_get thetas i) in
         let vx := vx + L * array_get omegas i * fcos (array_get thetas i) in
         let vy := vy + L * array_get omegas i * fsin (array_get thetas i) in
         (kinetic + lit 1 2 * m * (vx * vx + vy * vy),
          potential + m * g * (y + of_nat (i + 1) * L),
          y, vx, vy))
      (of_Z 0, of_Z 0, of_Z 0, of_Z 0, of_Z 0) in
  {| kinetic := kinetic; potential := potential; total := kinetic + potential |}.

Definition getPhaseSpace (fs : NFields) (time : F) (state : list F)
  : list (PhasePoint F) :=
  let n := n fs in
  let thetas := slice_to state (Z.of_nat n) in
  let omegas := slice_from state (Z.of_nat n) in
  imap (fun i theta =>
          {| angle := theta; angularVelocity := array_get omegas i; pp_time := time |})
       thetas.

Definition model : Model F := {|
  Fields := NFields;
  BaseSimulation.fields_init := fields_init;
  BaseSimulation.config := config;
  BaseSimulation.createInitialState := createInitialState;
  BaseSimulation.computeDerivatives := computeDerivatives;
  BaseSimulation.stateToPhysics := stateToPhysics;
  BaseSimulation.getEnergy := getEnergy;
  BaseSimulation.getPhaseSpace := Some getPhaseSpace;
|}.
End NPendulum.
End NPendulum.

(** ** Inputs and reference formulas of the theorems *)

Section Binary64Inputs.
Local Open Scope float_scope.

(** A chain of unit harmonic oscillators, [x' = v], [v' = -x], that takes the
    number of bodies from the length of the array it is given:
    [(t, s) => { const h = s.length / 2;
                 return [...s.slice(h), ...s.slice(0, h).map(x => -x)]; }]. *)
Definition oscillator_chain (t : float) (s : list float) : list float :=
  let h := Nat.div (length s) 2 in
  drop h s ++ map PrimFloat.opp (take h s).

(** One unit harmonic oscillator reading its two slots by index:
    [(t, s) => [s[1], -s[0]]]. *)
Definition oscillator (t : float) (s : list float) : list float :=
  [array_get s 1; PrimFloat.opp (array_get s 0)].

(** The angle [1e17] is a finite binary64 value above which consecutive
    values are 16 apart: subtracting [2 * Math.PI] rounds back to it. *)
Definition stalled_angle : float := 1e17.
End Binary64Inputs.

Section RealReferences.
Local Open Scope R_scope.

(** The equations of motion of the double pendulum of two point masses on
    massless rods, as its Lagrangian gives them, for the angular
    accelerations [a1], [a2]:
    [(m1+m2) L1 a1 + m2 L2 a2 cos(θ1-θ2) + m2 L2 ω2² sin(θ1-θ2) + (m1+m2) g sin θ1 = 0],
    [L2 a2 + L1 a1 cos(θ1-θ2) - L1 ω1² sin(θ1-θ2) + g sin θ2 = 0]. *)
Definition euler_lagrange (L1 L2 m1 m2 g theta1 theta2 omega1 omega2 a1 a2 : R) : Prop :=
  (m1 + m2) * L1 * a1 + m2 * L2 * a2 * cos (theta1 - theta2)
  + m2 * L2 * (omega2 * omega2) * sin (theta1 - theta2)
  + (m1 + m2) * g * sin theta1 = 0
  /\ L2 * a2 + L1 * a1 * cos (theta1 - theta2)
     - L1 * (omega1 * omega1) * sin (theta1 - theta2) + g * sin theta2 = 0.

(** The shared factor of the two denominators. *)
Definition shared_denominator (m1 m2 theta1 theta2 : R) : R :=
  2 * m1 + m2 - m2 * cos (2 * (theta1 - theta2)).

(** The closed forms of the two accelerations, over [L * shared_denominator]. *)
Definition lagrangian_alpha1 (L1 L2 m1 m2 g theta1 theta2 omega1 omega2 : R) : R :=
  (- g * (2 * m1 + m2) * sin theta1
   - m2 * g * sin (theta1 - 2 * theta2)
   - 2 * sin (theta1 - theta2) * m2
     * (omega2 * omega2 * L2 + omega1 * omega1 * L1 * cos (theta1 - theta2)))
  / (L1 * shared_denominator m1 m2 theta1 theta2).

Definition lagrangian_alpha2 (L1 L2 m1 m2 g theta1 theta2 omega1 omega2 : R) : R :=
  (2 * sin (theta1 - theta2)
   * (omega1 * omega1 * L1 * (m1 + m2)
      + g * (m1 + m2) * cos theta1
      + omega2 * omega2 * L2 * m2 * cos (theta1 - theta2)))
  / (L2 * shared_denominator m1 m2 theta1 theta2).

(** The simple pendulum over the real numbers. *)
Definition pendulum : BaseSimulation.Model R := SimplePendulum.model.

(** The same pendulum under a configuration without a fixed timestep. *)
Definition free_running : BaseSimulation.Model R := {|
  BaseSimulation.Fields := BaseSimulation.Fields pendulum;
  BaseSimulation.fields_init := BaseSimulation.fields_init pendulum;
  BaseSimulation.config := {|
    Types.meta := Types.meta (BaseSimulation.config pendulum);
    Types.defaultParams := Types.defaultParams (BaseSimulation.config pendulum);
    Types.physics := {|
      Types.gravity := 981 / 100; Types.damping := 0;
      Types.integrationMethod := Types.RK4; Types.fixedTimestep := 0 |} |};
  BaseSimulation.createInitialState := BaseSimulation.createInitialState pendulum;
  BaseSimulation.computeDerivatives := BaseSimulation.computeDerivatives pendulum;
  BaseSimulation.stateToPhysics := BaseSimulation.stateToPhysics pendulum;
  BaseSimulation.getEnergy := BaseSimulation.getEnergy pendulum;
  BaseSimulation.getPhaseSpace := BaseSimulation.getPhaseSpace pendulum;
|}.

(** Parameters of a double pendulum of unit rods and unit masses. *)
Definition unit_rods : gmap string R :=
  {[ "length1" := 1; "length2" := 1; "mass1" := 1; "mass2" := 1;
     "gravity" := 10; "damping" := 0 ]}.
End RealReferences.

(** ** More of the numeric interface *)

(** [Math.min] and [Math.max] of two numbers: NaN if either is NaN, and
    [-0] below [+0]. *)
Class Extrema (F : Type) := {
  fmin2 : F -> F -> F;
  fmax2 : F -> F -> F;
}.

Definition float_min (a b : float) : float :=
  if PrimFloat.is_nan a || PrimFloat.is_nan b then PrimFloat.nan
  else if PrimFloat.ltb a b then a
  else if PrimFloat.ltb b a then b
  else if PrimFloat.get_sign a then a else b.

Definition float_max (a b : float) : float :=
  if PrimFloat.is_nan a || PrimFloat.is_nan b then PrimFloat.nan
  else if PrimFloat.ltb a b then b
  else if PrimFloat.ltb b a then a
  else if PrimFloat.get_sign a then b else a.

#[export] Instance float_Extrema : Extrema float :=
  {| fmin2 := float_min; fmax2 := float_max |}.

#[export] Instance R_Extrema : Extrema R := {| fmin2 := Rmin; fmax2 := Rmax |}.

(** [Math.sqrt] and [Math.log], implementation-approximated like the rest
    of the library. *)
Class MathMore (F : Type) := {
  fsqrt : F -> F;
  flog : F -> F;
}.

#[export] Instance R_MathMore : MathMore R := {| fsqrt := R_sqrt.sqrt; flog := ln |}.

(** [Math.ceil]. *)
Class Rounding (F : Type) := { fceil : F -> F }.

(** The least integer not below [x]. *)
Definition Rceil (x : R) : R := (- IZR (Int_part (- x)))%R.

#[export] Instance R_Rounding : Rounding R := {| fceil := Rceil |}.

Section Comparisons.
Context {F : Type} `{Number F}.

(** [a >= b]: true when [a < b] is false and neither is NaN (the one value
    that is not [===] to itself). *)
Definition fgeb (a b : F) : bool := negb (fltb a b) && feqb a a && feqb b b.
End Comparisons.

(** ** utils/physics: Verlet and the scalar helpers *)

Section PhysicsHelpers.
Context {F : Type} `{Number F} `{Extrema F}.
Local Open Scope num_scope.

(** [verlet(positions, velocities, dt, accelerations)]: the pair
    [{ positions, velocities }] it returns. The callback is a function of its
    two arguments. *)
Definition verlet (positions velocities : list F) (dt : F)
    (accelerations : list F -> list F -> list F) : list F * list F :=
  let a := accelerations positions velocities in
  let newPositions :=
    imap (fun i p => p + array_get velocities i * dt + lit 1 2 * array_get a i * dt * dt)
      positions in
  let newA := accelerations newPositions velocities in
  let newVelocities :=
    imap (fun i v => v + lit 1 2 * (array_get a i + array_get newA i) * dt) velocities in
  (newPositions, newVelocities).

Definition kineticEnergy (mass velocity : F) : F := lit 1 2 * mass * velocity * velocity.

Definition potentialEnergy (mass gravity height : F) : F := mass * gravity * height.

Definition lerp (a b t : F) : F := a + (b - a) * t.

Definition clamp (value lo hi : F) : F := fmax2 lo (fmin2 hi value).

Definition mapRange (value inMin inMax outMin outMax : F) : F :=
  (value - inMin) * (outMax - outMin) / (inMax - inMin) + outMin.
End PhysicsHelpers.

(** ** simulations/pendulum: the estimates the models offer *)

Section ModelEstimates.
Context {F : Type} `{Number F} `{MathLib F} `{MathMore F}.
Import Types.
Local Open Scope num_scope.

(** [SimplePendulum.getTheoreticalPeriod] *)
Definition getTheoreticalPeriod (p : gmap string F) : F :=
  of_Z 2 * fPI * fsqrt (param p "length" / param p "gravity").

(** [DoublePendulum.getLyapunovExponent] *)
Definition getLyapunovExponent (p : gmap string F) (state : list F) : F :=
  let energy := DoublePendulum.getEnergy p state in
  flog (of_Z 1 + total energy / (param p "mass1" + param p "mass2") / param p "gravity").
End ModelEstimates.

(** ** BaseSimulation: the phase series and the clock *)

Section PhaseSeries.
Context {F : Type} `{Number F}.
Import Types BaseSimulation.
Variable M : Model F.

(** The phase series: none yet, or [m] of them, each as long as the time
    series. *)
Definition phase_aligned (m : nat) (s : Sim M) : Prop :=
  (phaseHistory s = [] /\ timeHistory s = [])
  \/ (length (phaseHistory s) = m
      /\ Forall (fun h => length h = length (timeHistory s)) (phaseHistory s)).

(** The model reports [m] phase points, whatever its state. *)
Definition phase_count (m : nat) : Prop :=
  match getPhaseSpace M with
  | Some phase => forall f t st, length (phase f t st) = m
  | None => m = 0%nat
  end.

(** [stateToPhysics] stamps the state with the time of the instance. *)
Definition stamps_time : Prop :=
  forall p f t st, ps_time (stateToPhysics M p f t st) = t.
End PhaseSeries.

(** ** utils/export *)

Section ExportUtilities.
Context {F : Type} `{Number F}.
Import Types.

(** [Number.prototype.toFixed(digits)]: the decimal rendering of a number is
    the host's. *)
Variable toFixed : F -> nat -> string.

Definition newline : string := String (Ascii.ascii_of_nat 10) "".

(** [a.join(sep)] on an array of strings. *)
Definition array_join (sep : string) (a : list string) : string := String.concat sep a.

(** [timeSeries.positions[0]?.length ?? 0] *)
Definition numBodies (data : ExportData F) : nat :=
  match ts_positions (timeSeries data) !! 0%nat with
  | Some bodies => length bodies
  | None => 0%nat
  end.

(** The [headers] array of [exportToCSV]. *)
Definition csv_headers (data : ExportData F) : list string :=
  let headers := ["time"] in
  let headers :=
    for_range (numBodies data)
      (fun i h =>
         h ++ ["x" +:+ pretty i; "y" +:+ pretty i; "z" +:+ pretty i;
               "vx" +:+ pretty i; "vy" +:+ pretty i; "vz" +:+ pretty i])
      headers in
  let headers := headers ++ ["kinetic"; "potential"; "total"] in
  match phaseSpace data with
  | Some ph =>
      if (0 <? length ph)%nat
      then for_range (length ph)
             (fun i h => h ++ ["theta" +:+ pretty i; "omega" +:+ pretty i]) headers
      else headers
  | None => headers
  end.

Definition zero_vector : Vector3 F := {| x := of_Z 0; y := of_Z 0; z := of_Z 0 |}.

Definition zero_energy : EnergyState F :=
  {| kinetic := of_Z 0; potential := of_Z 0; total := of_Z 0 |}.

(** The [row] array of [exportToCSV] for the sample of index [t]. *)
Definition csv_row (data : ExportData F) (t : nat) : list string :=
  let ts := timeSeries data in
  let row := [toFixed (array_get (ts_time ts) t) 6] in
  let row :=
    for_range (numBodies data)
      (fun i row =>
         let pos := default zero_vector (ts_positions ts !! t ≫= (.!! i)) in
         let vel := default zero_vector (ts_velocities ts !! t ≫= (.!! i)) in
         row ++ [toFixed (x pos) 6; toFixed (y pos) 6; toFixed (z pos) 6;
                 toFixed (x vel) 6; toFixed (y vel) 6; toFixed (z vel) 6])
      row in
  let energy := default zero_energy (ts_energy ts !! t) in
  let row :=
    row ++ [toFixed (kinetic energy) 6; toFixed (potential energy) 6;
            toFixed (total energy) 6] in
  match phaseSpace data with
  | Some ph =>
      for_range (length ph)
        (fun i row =>
           match ph !! i ≫= (.!! t) with
           | Some point =>
               row ++ [toFixed (angle point) 6; toFixed (angularVelocity point) 6]
           | None => row
           end)
        row
  | None => row
  end.

(** [exportToCSV(data, filename)]: the text of the blob it hands to the
    browser, and the name it is downloaded under. *)
Definition exportToCSV (data : ExportData F) (filename : option string)
  : string * string :=
  let lines := [array_join "," (csv_headers data)] in
  let lines :=
    for_range (length (ts_time (timeSeries data)))
      (fun t lines => lines ++ [array_join "," (csv_row data t)]) lines in
  (array_join newline lines, default (id (ex_meta data) +:+ "-export.csv") filename).
End ExportUtilities.


(** ** core/stores/simulationStore *)

Section FilterByTime.
Context {F : Type} `{Number F} {T : Type}.
Local Open Scope num_scope.
Variable time_of : T -> F.

(** The [for] loop of [filterByTime] from index [i], [rest] being
    [data.slice(i)]: [Some startIdx] when it ends or breaks, [None] when it
    returns [[]] from inside. *)
Fixpoint first_recent (cutoff : F) (rest : list T) (i : nat) : option nat :=
  match rest with
  | [] => Some 0%nat
  | d :: rest' =>
      if fgeb (time_of d) cutoff then Some i
      else match rest' with
           | [] => None
           | _ :: _ => first_recent cutoff rest' (S i)
           end
  end.

Definition filterByTime (data : list T) (currentTime maxAge : F) : list T :=
  let cutoff := currentTime - maxAge in
  match first_recent cutoff data 0 with
  | None => []
  | Some startIdx =>
      if (startIdx =? 0)%nat then data else slice_from data (Z.of_nat startIdx)
  end.
End FilterByTime.

Module SimulationStore.
Import Types.
Section SimulationStore.
Context {F : Type} `{Number F} `{Extrema F}.
Local Open Scope num_scope.

Record TrailPoint := {
  position : Vector3 F;
  tp_time : F;                      (* time *)
  tp_energy : option F;             (* energy? *)
}.

(** The state of the store. [frameCount] is a counter: it starts at 0 and
    only ever grows by one; [maxTrailLength] is a count of points. *)
Record Store := {
  isPlaying : bool;
  speed : F;
  elapsedTime : F;
  frameCount : Z;
  physicsState : option (PhysicsState F);
  energy : EnergyState F;
  trails : list (list TrailPoint);
  phaseSpace : list (list (PhasePoint F));
  maxTrailLength : Z;
  showTrails : bool;
  showVectors : bool;
  showEnergy : bool;
  showPhaseSpace : bool;
  showGrid : bool;
  showStats : bool;
}.

Definition MAX_DATA_AGE_SECONDS : F := of_Z 30.
Definition CLEANUP_INTERVAL_FRAMES : Z := 60.

Definition initial : Store := {|
  isPlaying := false; speed := of_Z 1; elapsedTime := of_Z 0; frameCount := 0;
  physicsState := None;
  energy := {| kinetic := of_Z 0; potential := of_Z 0; total := of_Z 0 |};
  trails := []; phaseSpace := []; maxTrailLength := 500;
  showTrails := true; showVectors := false; showEnergy := true;
  showPhaseSpace := false; showGrid := true; showStats := true;
|}.

(** [set(partial)]: the fields named are replaced. *)
Definition set_trails (st : Store) (t : list (list TrailPoint)) : Store := {|
  isPlaying := isPlaying st; speed := speed st; elapsedTime := elapsedTime st;
  frameCount := frameCount st; physicsState := physicsState st; energy := energy st;
  trails := t; phaseSpace := phaseSpace st; maxTrailLength := maxTrailLength st;
  showTrails := showTrails st; showVectors := showVectors st;
  showEnergy := showEnergy st; showPhaseSpace := showPhaseSpace st;
  showGrid := showGrid st; showStats := showStats st;
|}.

Definition set_phaseSpace (st : Store) (p : list (list (PhasePoint F))) : Store := {|
  isPlaying := isPlaying st; speed := speed st; elapsedTime := elapsedTime st;
  frameCount := frameCount st; physicsState := physicsState st; energy := energy st;
  trails := trails st; phaseSpace := p; maxTrailLength := maxTrailLength st;
  showTrails := showTrails st; showVectors := showVectors st;
  showEnergy := showEnergy st; showPhaseSpace := showPhaseSpace st;
  showGrid := showGrid st; showStats := showStats st;
|}.

Definition setSpeed (st : Store) (v : F) : Store := {|
  isPlaying := isPlaying st;
  speed := fmax2 (lit 1 10) (fmin2 (of_Z 10) v);
  elapsedTime := elapsedTime st;
  frameCount := frameCount st; physicsState := physicsState st; energy := energy st;
  trails := trails st; phaseSpace := phaseSpace st; maxTrailLength := maxTrailLength st;
  showTrails := showTrails st; showVectors := showVectors st;
  showEnergy := showEnergy st; showPhaseSpace := showPhaseSpace st;
  showGrid := showGrid st; showStats := showStats st;
|}.

Definition setMaxTrailLength (st : Store) (len : Z) : Store := {|
  isPlaying := isPlaying st; speed := speed st; elapsedTime := elapsedTime st;
  frameCount := frameCount st; physicsState := physicsState st; energy := energy st;
  trails := trails st; phaseSpace := phaseSpace st; maxTrailLength := len;
  showTrails := showTrails st; showVectors := showVectors st;
  showEnergy := showEnergy st; showPhaseSpace := showPhaseSpace st;
  showGrid := showGrid st; showStats := showStats st;
|}.

Definition tick (st : Store) (dt : F) : Store :=
  if negb (isPlaying st) then st
  else {|
    isPlaying := isPlaying st; speed := speed st;
    elapsedTime := elapsedTime st + dt * speed st;
    frameCount := frameCount st + 1;
    physicsState := physicsState st; energy := energy st;
    trails := trails st; phaseSpace := phaseSpace st;
    maxTrailLength := maxTrailLength st;
    showTrails := showTrails st; showVectors := showVectors st;
    showEnergy := showEnergy st; showPhaseSpace := showPhaseSpace st;
    showGrid := showGrid st; showStats := showStats st;
  |}.

Definition play (st : Store) : Store := {|
  isPlaying := true; speed := speed st; elapsedTime := elapsedTime st;
  frameCount := frameCount st; physicsState := physicsState st; energy := energy st;
  trails := trails st; phaseSpace := phaseSpace st; maxTrailLength := maxTrailLength st;
  showTrails := showTrails st; showVectors := showVectors st;
  showEnergy := showEnergy st; showPhaseSpace := showPhaseSpace st;
  showGrid := showGrid st; showStats := showStats st;
|}.

Definition setPhysicsState (st : Store) (ps : PhysicsState F) : Store := {|
  isPlaying := isPlaying st; speed := speed st; elapsedTime := elapsedTime st;
  frameCount := frameCount st; physicsState := Some ps; energy := energy st;
  trails := trails st; phaseSpace := phaseSpace st; maxTrailLength := maxTrailLength st;
  showTrails := showTrails st; showVectors := showVectors st;
  showEnergy := showEnergy st; showPhaseSpace := showPhaseSpace st;
  showGrid := showGrid st; showStats := showStats st;
|}.

Definition setEnergy (st : Store) (e : EnergyState F) : Store := {|
  isPlaying := isPlaying st; speed := speed st; elapsedTime := elapsedTime st;
  frameCount := frameCount st; physicsState := physicsState st; energy := e;
  trails := trails st; phaseSpace := phaseSpace st; maxTrailLength := maxTrailLength st;
  showTrails := showTrails st; showVectors := showVectors st;
  showEnergy := showEnergy st; showPhaseSpace := showPhaseSpace st;
  showGrid := showGrid st; showStats := showStats st;
|}.

Definition clearTrails (st : Store) : Store := {|
  isPlaying := isPlaying st; speed := speed st; elapsedTime := elapsedTime st;
  frameCount := frameCount st; physicsState := physicsState st; energy := energy st;
  trails := []; phaseSpace := []; maxTrailLength := maxTrailLength st;
  showTrails := showTrails st; showVectors := showVectors st;
  showEnergy := showEnergy st; showPhaseSpace := showPhaseSpace st;
  showGrid := showGrid st; showStats := showStats st;
|}.

(** The body of the [forEach] of [addTrailPoints] and of [addPhasePoints],
    which differ in the type of the points alone: series [i] is created when
    it is not there, gets the point, is cleaned by age on a cleanup frame,
    and is cut to its newest [maxTrailLength] points. *)
Definition add_point {P : Type} (time_of : P -> F) (st : Store) (shouldCleanup : bool)
    (series : list (list P)) (i : nat) (point : P) : list (list P) :=
  let cur := default [] (series !! i) ++ [point] in
  let cur :=
    if shouldCleanup && (0 <? length cur)%nat
    then filterByTime time_of cur (elapsedTime st) MAX_DATA_AGE_SECONDS
    else cur in
  let cur :=
    if (maxTrailLength st <? Z.of_nat (length cur))%Z
    then slice_from cur (- maxTrailLength st)
    else cur in
  if (i <? length series)%nat then <[i := cur]> series
  else series ++ replicate (i - length series) [] ++ [cur].

Definition add_points {P : Type} (time_of : P -> F) (st : Store)
    (series : list (list P)) (points : list P) : list (list P) :=
  let shouldCleanup := (Z.rem (frameCount st) CLEANUP_INTERVAL_FRAMES =? 0)%Z in
  fold_left (fun acc ip => add_point time_of st shouldCleanup acc ip.1 ip.2)
    (imap pair points) series.

(** What the body of the [forEach] makes of series [i] for [point]: the
    series, when it is there, with the point pushed, cleaned and cut. *)
Definition renewed {P : Type} (time_of : P -> F) (st : Store) (shouldCleanup : bool)
    (old : option (list P)) (point : P) : list P :=
  let cur := default [] old ++ [point] in
  let cur :=
    if shouldCleanup && (0 <? length cur)%nat
    then filterByTime time_of cur (elapsedTime st) MAX_DATA_AGE_SECONDS
    else cur in
  if (maxTrailLength st <? Z.of_nat (length cur))%Z
  then slice_from cur (- maxTrailLength st)
  else cur.

Definition addTrailPoints (st : Store) (points : list TrailPoint) : Store :=
  if negb (Z.rem (frameCount st) 2 =? 0)%Z then st
  else set_trails st (add_points tp_time st (trails st) points).

Definition addPhasePoints (st : Store) (points : list (PhasePoint F)) : Store :=
  if negb (Z.rem (frameCount st) 2 =? 0)%Z then st
  else set_phaseSpace st (add_points pp_time st (phaseSpace st) points).
End SimulationStore.
Arguments TrailPoint : clear implicits.
Arguments Store : clear implicits.
End SimulationStore.

(** ** simulations/templates/useSimulation *)

Module UseSimulation.
Import Types Physics BaseSimulation SimulationStore.
Section UseSimulation.
Context {F : Type} `{Number F} `{Extrema F} `{Rounding F}.
Local Open Scope num_scope.
Variable M : Model F.

Record Options := {
  autoStart : bool;
  recordTrails : bool;
  recordPhaseSpace : bool;
}.

(** What the hook keeps between renders: the instance behind
    [simulationRef], and the two pieces of component state. *)
Record Hook := {
  simulationRef : option (Sim M);
  hk_physicsState : option (PhysicsState F);   (* physicsState *)
  hk_energy : EnergyState F;                   (* energy *)
}.

(** [sim.step(0)], then [setPhysicsState(state); setEnergy(sim.getEnergy())]. *)
Definition publish (sc : Scratch) (sim : Sim M) : Scratch * Hook :=
  let '(sc, sim, state) := step sc sim (of_Z 0) in
  (sc, {| simulationRef := Some sim; hk_physicsState := Some state;
          hk_energy := getEnergy M (params sim) (fields sim) (BaseSimulation.state sim) |}).

(** The effect run on mount. *)
Definition mount (opts : Options) (store : Store F) (sc : Scratch)
    (initialParams : gmap string F) : option (Store F * Scratch * Hook) :=
  match init (new M) initialParams with
  | None => None
  | Some sim =>
      let '(sc, h) := publish sc sim in
      Some (if autoStart opts then play store else store, sc, h)
  end.

(** The [reset] function the hook returns. *)
Definition hook_reset (store : Store F) (sc : Scratch) (h : Hook)
  : Store F * Scratch * Hook :=
  match simulationRef h with
  | Some sim =>
      let sim := reset sim in
      let store := clearTrails store in
      let '(sc, h) := publish sc sim in
      (store, sc, h)
  | None => (store, sc, h)
  end.

(** The [updateParams] function the hook returns. *)
Definition updateParams (store : Store F) (sc : Scratch) (h : Hook)
    (p : gmap string F) : option (Store F * Scratch * Hook) :=
  match simulationRef h with
  | Some sim =>
      match init sim p with
      | None => None
      | Some sim =>
          let store := clearTrails store in
          let '(sc, h) := publish sc sim in
          Some (store, sc, h)
      end
  | None => Some (store, sc, h)
  end.

(** The [for] loop of the frame callback: [state = sim.step(fixedDt)],
    [count] times. *)
Definition run_steps (count : nat) (fixedDt : F) (sc : Scratch) (sim : Sim M)
  : Scratch * Sim M * option (PhysicsState F) :=
  for_range count
    (fun _ '(sc, sim, _) =>
       let '(sc, sim, state) := step sc sim fixedDt in (sc, sim, Some state))
    (sc, sim, None).

(** The callback given to [useFrame], with the [isPlaying] and [speed] the
    render that created it saw. [None] when its loop does not end. *)
Definition frame (opts : Options) (isPlaying_seen : bool) (speed_seen : F)
    (store : Store F) (sc : Scratch) (h : Hook) (delta : F)
  : option (Store F * Scratch * Hook) :=
  let store := tick store delta in
  match simulationRef h with
  | Some sim =>
      if negb isPlaying_seen then Some (store, sc, h)
      else
        let dt := fmin2 delta (lit 5 100) * speed_seen in
        let fixedDt := fixedTimestep (physics (config M)) in
        let steps := fceil (dt / fixedDt) in
        match trip_count steps with
        | None => None
        | Some count =>
            let '(sc, sim, state) := run_steps count fixedDt sc sim in
            match state with
            | Some state =>
                let currentEnergy :=
                  getEnergy M (params sim) (fields sim) (BaseSimulation.state sim) in
                let store := setPhysicsState store state in
                let store := setEnergy store currentEnergy in
                let store :=
                  if recordTrails opts then
                    addTrailPoints store
                      (map (fun pos => {| position := pos; tp_time := ps_time state;
                                          tp_energy := Some (total currentEnergy) |})
                         (positions state))
                  else store in
                let store :=
                  match getPhaseSpace M with
                  | Some phase =>
                      if recordPhaseSpace opts then
                        addPhasePoints store
                          (phase (fields sim) (time sim) (BaseSimulation.state sim))
                      else store
                  | None => store
                  end in
                Some (store, sc,
                      {| simulationRef := Some sim; hk_physicsState := Some state;
                         hk_energy := currentEnergy |})
            | None =>
                Some (store, sc,
                      {| simulationRef := Some sim;
                         hk_physicsState := hk_physicsState h;
                         hk_energy := hk_energy h |})
            end
        end
  | None => Some (store, sc, h)
  end.
End UseSimulation.
Arguments Hook {F} M.
End UseSimulation.

(** ** Orders and inputs of the later theorems *)

Section Binary64Order.

(** The order of [SFcompare] on the values other than NaN, as a rank:
    sign class first, then exponent, then mantissa. *)
Definition SFrank (a : spec_float) : Z * Z * Z :=
  match a with
  | S754_zero _ => (0, 0, 0)
  | S754_infinity s => (if s then -2 else 2, 0, 0)
  | S754_nan => (0, 0, 0)
  | S754_finite s m e => if s then (-1, - e, - Z.pos m) else (1, e, Z.pos m)
  end%Z.

Definition lex_lt (a b : Z * Z * Z) : Prop :=
  let '(a1, a2, a3) := a in
  let '(b1, b2, b3) := b in
  (a1 < b1 \/ (a1 = b1 /\ (a2 < b2 \/ (a2 = b2 /\ a3 < b3))))%Z.

Definition rank (a : float) : Z * Z * Z := SFrank (Prim2SF a).

(** Points in the order of their times. *)
Definition time_ordered {T : Type} (time_of : T -> float) (l : list T) : Prop :=
  forall i a b, l !! i = Some a -> l !! S i = Some b ->
                PrimFloat.leb (time_of a) (time_of b) = true.
End Binary64Order.

Section RealInputs.
Local Open Scope R_scope.

(** The pivot of a pendulum. *)
Definition pivot : Types.Vector3 R := {| Types.x := 0; Types.y := 0; Types.z := 0 |}.

(** A pendulum of unit length and mass, damped. *)
Definition swinging : gmap string R :=
  {[ "length" := 1; "mass" := 1; "gravity" := 10; "damping" := 1 / 2 ]}.

(** A chain of one segment with the same data. *)
Definition one_segment : gmap string R :=
  {[ "segmentLength" := 1; "segmentMass" := 1; "gravity" := 10; "damping" := 1 / 2 ]}.
End RealInputs.

(** * Theorems *)

(** ** Facts about arrays and the integrators *)

Section ArrayFacts.
Context {F : Type} `{Number F}.

Lemma array_set_at_end (pre rest : list F) (v : F) :
  array_set (pre ++ rest) (length pre) v = (pre ++ [v]) ++ drop 1 rest.
Proof.
  unfold array_set. rewrite length_app.
  destruct rest as [|r rest]; simpl.
  - rewrite Nat.add_0_r, Nat.ltb_irrefl, Nat.sub_diag. simpl.
    now rewrite !app_nil_r.
  - assert (Hlt : (length pre <? length pre + S (length rest))%nat = true)
      by (apply Nat.ltb_lt; lia).
    rewrite Hlt, drop_0.
    rewrite insert_app_r_alt by lia.
    rewrite Nat.sub_diag. simpl. now rewrite <- app_assoc.
Qed.

Lemma fill_from (g : nat -> F) (n : nat) :
  forall (pre rest : list F),
    fold_left (fun b i => array_set b i (g i)) (seq (length pre) n) (pre ++ rest)
    = pre ++ map g (seq (length pre) n) ++ drop n rest.
Proof.
  induction n as [|n IH]; intros pre rest; simpl.
  - now rewrite drop_0.
  - rewrite array_set_at_end.
    replace (S (length pre)) with (length (pre ++ [g (length pre)]))
      by (rewrite length_app; simpl; lia).
    rewrite IH, drop_drop, <- app_assoc. simpl.
    now rewrite length_app, Nat.add_1_r.
Qed.

(** A loop that assigns slots [0..n) one after the other rewrites exactly
    that prefix and keeps the rest of the buffer. *)
Lemma for_range_fill (g : nat -> F) (n : nat) (buf : list F) :
  for_range n (fun i b => array_set b i (g i)) buf
  = map g (seq 0 n) ++ drop n buf.
Proof. exact (fill_from g n [] buf). Qed.

Lemma array_get_fill (g : nat -> F) (n i : nat) (tail : list F) :
  (i < n)%nat -> array_get (map g (seq 0 n) ++ tail) i = g i.
Proof.
  intros Hi. unfold array_get.
  rewrite lookup_app_l by (rewrite length_map, length_seq; lia).
  rewrite list_lookup_fmap, lookup_seq_lt by lia. reflexivity.
Qed.

Lemma take_fill (g : nat -> F) (n : nat) (tail : list F) :
  take n (map g (seq 0 n) ++ tail) = map g (seq 0 n).
Proof.
  rewrite take_app_le by (rewrite length_map, length_seq; lia).
  apply take_ge. rewrite length_map, length_seq. lia.
Qed.

Lemma map_seq_ext (g h : nat -> F) (n : nat) :
  (forall i, (i < n)%nat -> g i = h i) -> map g (seq 0 n) = map h (seq 0 n).
Proof.
  intros Hgh. apply map_ext_in. intros i Hi. apply in_seq in Hi.
  apply Hgh. lia.
Qed.
End ArrayFacts.

Section IntegratorFacts.
Context {F : Type} `{Number F}.
Import Physics.
Local Open Scope num_scope.

Lemma copy_into_spec (n : nat) (src buf : list F) :
  copy_into n src buf = map (array_get src) (seq 0 n) ++ drop n buf.
Proof. apply for_range_fill. Qed.

Lemma array_get_copy_into (n i : nat) (src buf : list F) :
  (i < n)%nat -> array_get (copy_into n src buf) i = array_get src i.
Proof. intros Hi. rewrite copy_into_spec. now apply array_get_fill. Qed.

Lemma axpy_into_spec (y : list F) (h : F) (k buf : list F) :
  axpy_into (length y) y h k buf = axpy y h k ++ drop (length y) buf.
Proof. apply for_range_fill. Qed.

Lemma axpy_length (y : list F) (h : F) (k : list F) :
  length (axpy y h k) = length y.
Proof. unfold axpy. now rewrite length_map, length_seq. Qed.

Lemma axpy_ext (y : list F) (h : F) (k k' : list F) :
  (forall i, (i < length y)%nat -> array_get k i = array_get k' i) ->
  axpy y h k = axpy y h k'.
Proof.
  intros Hk. unfold axpy. apply map_seq_ext. intros i Hi. now rewrite Hk.
Qed.

(** What the derivative function is handed at the later stages: the
    scratch buffer, whose first [length y] slots hold the stage's vector. *)
Lemma stage_argument (y : list F) (h : F) (src kbuf tbuf : list F) :
  axpy_into (length y) y h (copy_into (length y) src kbuf) tbuf
  = axpy y h src ++ drop (length y) tbuf.
Proof.
  rewrite axpy_into_spec. f_equal. apply axpy_ext. intros i Hi.
  now apply array_get_copy_into.
Qed.

Lemma rk4_result_length {E : Type} (sc : Scratch) (e : E) (y : list F) (t dt : F)
    (f : DerivativeFunc E) :
  length (rk4 sc e y t dt f).2 = length y.
Proof.
  unfold rk4.
  destruct (f e t y) as [e1 k1].
  destruct (f e1 _ _) as [e2 k2].
  destruct (f e2 _ _) as [e3 k3].
  destruct (f e3 _ _) as [e4 k4]. simpl.
  rewrite for_range_fill, take_fill. now rewrite length_map, length_seq.
Qed.

Lemma euler_result_length {E : Type} (sc : Scratch) (e : E) (y : list F) (t dt : F)
    (f : DerivativeFunc E) :
  length (euler sc e y t dt f).2 = length y.
Proof.
  unfold euler. destruct (f e t y) as [e1 d]. simpl.
  rewrite for_range_fill, take_fill. now rewrite length_map, length_seq.
Qed.
End IntegratorFacts.

(** ** rk4 against the classic update *)

Section Rk4Classic.
Context {F : Type} `{Number F}.
Import Physics.
Local Open Scope num_scope.

Lemma agree_refl (n : nat) (a : list F) : agree n a a.
Proof. now intros i _. Qed.

(** One stage: the code evaluates [f] on the scratch buffer, the
    specification on the stage's vector; a prefix reader cannot tell. *)
Lemma stage_agree (f : F -> list F -> list F) (y : list F) (h u : F)
    (src src' kbuf tbuf : list F) :
  reads_prefix (length y) f ->
  agree (length y) src src' ->
  agree (length y)
    (f u (axpy_into (length y) y h (copy_into (length y) src kbuf) tbuf))
    (f u (axpy y h src')).
Proof.
  intros Hf Hsrc i Hi. rewrite stage_argument.
  rewrite (axpy_ext y h src src' Hsrc).
  apply Hf; [apply axpy_length | exact Hi].
Qed.

(** C1, as amended. For every state vector [y] (of any length, so for
    every length up to 20), time [t], step [dt], whatever the scratch buffers
    hold, and every derivative function [f] that looks only at the first
    [length y] slots of the array it is handed: [rk4] returns a vector of the
    length of [y] equal to the classic four-stage Runge-Kutta update. *)
Theorem rk4_classic_on_prefix_readers
    (sc : Scratch) (y : list F) (t dt : F) (f : F -> list F -> list F) :
  reads_prefix (length y) f ->
  (rk4 sc tt y t dt (pure_derivative f)).2 = rk4_classic y t dt f
  /\ length (rk4 sc tt y t dt (pure_derivative f)).2 = length y.
Proof.
  intros Hf. split; [|apply rk4_result_length].
  unfold rk4, rk4_classic, pure_derivative. cbn [snd]. cbv zeta.
  rewrite for_range_fill, take_fill.
  apply map_seq_ext. intros i Hi.
  rewrite !array_get_copy_into by exact Hi.
  set (h := dt / of_Z 2).
  set (K1 := f t y).
  set (T1 := axpy_into (length y) y h (copy_into (length y) K1 (_rk4_k1 sc))
               (_rk4_temp sc)).
  set (K2 := f (t + h) T1).
  set (T2 := axpy_into (length y) y h (copy_into (length y) K2 (_rk4_k2 sc)) T1).
  set (K3 := f (t + h) T2).
  set (T3 := axpy_into (length y) y dt (copy_into (length y) K3 (_rk4_k3 sc)) T2).
  set (K4 := f (t + dt) T3).
  set (k2 := f (t + h) (axpy y h K1)).
  set (k3 := f (t + h) (axpy y h k2)).
  set (k4 := f (t + dt) (axpy y dt k3)).
  assert (A2 : agree (length y) K2 k2)
    by (apply stage_agree; [exact Hf | apply agree_refl]).
  assert (A3 : agree (length y) K3 k3) by (apply stage_agree; assumption).
  assert (A4 : agree (length y) K4 k4) by (apply stage_agree; assumption).
  rewrite (A2 i Hi), (A3 i Hi), (A4 i Hi). reflexivity.
Qed.
End Rk4Classic.

(** ** binary64 runs of the integrators *)

Section Binary64Runs.
Import Physics.
Local Open Scope float_scope.

Lemma oscillator_reads_prefix : reads_prefix 2 oscillator.
Proof.
  intros t s tail i Hs Hi.
  destruct s as [|a [|b [|c s]]]; try discriminate Hs. reflexivity.
Qed.

(** C1, counterexample. On the one-body state [[1, 0]] with [dt = 1] and
    untouched scratch buffers, [rk4] hands [oscillator_chain] its 20-slot
    buffer at the later stages, and does not return the classic update. *)
Lemma rk4_not_classic_for_length_reader :
  (rk4 fresh_scratch tt [1; 0] 0 1 (pure_derivative oscillator_chain)).2
  <> rk4_classic [1; 0] 0 1 oscillator_chain.
Proof.
  intros E.
  apply (f_equal (fun l => PrimFloat.eqb (array_get l 0) 1)) in E.
  vm_compute in E. discriminate E.
Qed.

Lemma rk4_classic_on_prefix_readers_witness :
  reads_prefix (length [1; 0]) oscillator
  /\ (rk4 fresh_scratch tt [1; 0] 0 1 (pure_derivative oscillator)).2
     = rk4_classic [1; 0] 0 1 oscillator
  /\ length (rk4 fresh_scratch tt [1; 0] 0 1 (pure_derivative oscillator)).2
     = length [1; 0].
Proof.
  split; [exact oscillator_reads_prefix|].
  exact (rk4_classic_on_prefix_readers fresh_scratch [1; 0] 0 1 oscillator
           oscillator_reads_prefix).
Defined.

Lemma stalled_angle_above_pi : fltb fPI stalled_angle = true.
Proof. vm_compute. reflexivity. Qed.

Lemma stalled_angle_fixed : fsub stalled_angle (fmul (of_Z 2) fPI) = stalled_angle.
Proof. vm_compute. reflexivity. Qed.

Lemma stalled_angle_finite : PrimFloat.is_finite stalled_angle = true.
Proof. vm_compute. reflexivity. Qed.

Lemma while_above_stalls (fuel : nat) : while_above fuel stalled_angle = None.
Proof.
  induction fuel as [|fuel IH]; [reflexivity|].
  cbn [while_above]. rewrite stalled_angle_above_pi, stalled_angle_fixed.
  exact IH.
Qed.

(** C10, at the failing input. [normalizeAngle(1e17)] never leaves its first
    loop: no budget of iterations lets it return, although [1e17] is finite. *)
Theorem normalizeAngle_stalls_on_finite_input :
  PrimFloat.is_finite stalled_angle = true
  /\ forall fuel, normalizeAngle fuel stalled_angle = None.
Proof.
  split; [exact stalled_angle_finite|].
  intros fuel. unfold normalizeAngle. now rewrite while_above_stalls.
Qed.

(** In binary64 as over the reals: [createInitialState] with [n = 11] returns
    22 slots. *)
Lemma NPendulum_createInitialState_binary64 :
  option_map (fun r => length r.2)
    (NPendulum.createInitialState {[ "n" := 11; "initialSpread" := 0.5 ]}
       NPendulum.fields_init)
  = Some 22%nat.
Proof. vm_compute. reflexivity. Qed.
End Binary64Runs.

(** ** normalizeAngle over the real numbers *)

Section NormalizeAngleReal.
Import Physics.
Local Open Scope R_scope.

(** The loops' operations, read at the real numbers. *)
Ltac at_reals :=
  cbn [while_above while_below fltb fPI fsub fadd fmul fopp of_Z R_Number] in *.

Lemma Rltb_true (a b : R) : a < b -> Rltb a b = true.
Proof. intros Hab. unfold Rltb. now destruct (Rlt_dec a b). Qed.

Lemma Rltb_false (a b : R) : b <= a -> Rltb a b = false.
Proof. intros Hab. unfold Rltb. destruct (Rlt_dec a b); [lra|reflexivity]. Qed.

Lemma while_above_more (fuel : nat) :
  forall (x y : R) (extra : nat),
    while_above fuel x = Some y -> while_above (fuel + extra) x = Some y.
Proof.
  induction fuel as [|fuel IH]; intros x y extra Hrun; [discriminate|].
  cbn [while_above Nat.add] in *.
  destruct (fltb fPI x); [now apply IH | exact Hrun].
Qed.

Lemma while_below_more (fuel : nat) :
  forall (x y : R) (extra : nat),
    while_below fuel x = Some y -> while_below (fuel + extra) x = Some y.
Proof.
  induction fuel as [|fuel IH]; intros x y extra Hrun; [discriminate|].
  cbn [while_below Nat.add] in *.
  destruct (fltb x (fopp fPI)); [now apply IH | exact Hrun].
Qed.

Lemma while_above_real (m : nat) :
  forall x, x <= PI + INR m * (2 * PI) ->
    exists y, while_above (S m) x = Some y
              /\ y <= PI /\ (PI < x -> - PI < y) /\ (x <= PI -> y = x)
              /\ exists j : nat, y = x - INR j * (2 * PI).
Proof.
  pose proof PI_RGT_0 as Hpi.
  induction m as [|m IH]; intros x Hx.
  - cbn [INR] in Hx. exists x. at_reals.
    rewrite Rltb_false by lra. repeat split; try lra.
    exists 0%nat. cbn. lra.
  - destruct (Rle_lt_dec x PI) as [Hle|Hgt].
    + exists x. at_reals. rewrite Rltb_false by lra.
      repeat split; try lra. exists 0%nat. cbn. lra.
    + rewrite S_INR in Hx.
      destruct (IH (x - 2 * PI) ltac:(lra)) as (y & Hrun & Hy & Hlow & Hsame & j & Hj).
      exists y. split.
      { at_reals.
        rewrite Rltb_true by lra. exact Hrun. }
      split; [exact Hy|]. split.
      { intros _. destruct (Rle_lt_dec (x - 2 * PI) PI) as [H1|H1].
        - rewrite (Hsame H1). lra.
        - apply Hlow. exact H1. }
      split; [lra|].
      exists (S j). rewrite S_INR. lra.
Qed.

Lemma while_below_real (m : nat) :
  forall x, - PI - INR m * (2 * PI) <= x ->
    exists y, while_below (S m) x = Some y
              /\ - PI <= y /\ (x < - PI -> y < PI) /\ (- PI <= x -> y = x)
              /\ exists j : nat, y = x + INR j * (2 * PI).
Proof.
  pose proof PI_RGT_0 as Hpi.
  induction m as [|m IH]; intros x Hx.
  - cbn [INR] in Hx. exists x. at_reals.
    rewrite Rltb_false by lra. repeat split; try lra.
    exists 0%nat. cbn. lra.
  - destruct (Rle_lt_dec (- PI) x) as [Hle|Hgt].
    + exists x. at_reals. rewrite Rltb_false by lra.
      repeat split; try lra. exists 0%nat. cbn. lra.
    + rewrite S_INR in Hx.
      destruct (IH (x + 2 * PI) ltac:(lra)) as (y & Hrun & Hy & Hup & Hsame & j & Hj).
      exists y. split.
      { at_reals.
        rewrite Rltb_true by lra. exact Hrun. }
      split; [exact Hy|]. split.
      { intros _. destruct (Rle_lt_dec (- PI) (x + 2 * PI)) as [H1|H1].
        - rewrite (Hsame H1). lra.
        - apply Hup. exact H1. }
      split; [lra|].
      exists (S j). rewrite S_INR. lra.
Qed.

Lemma rounds_enough (r : R) : exists m : nat, r <= INR m * (2 * PI).
Proof.
  pose proof PI_RGT_0 as Hpi.
  destruct (archimed (r / (2 * PI))) as [Hup _].
  exists (Z.to_nat (up (r / (2 * PI)))).
  assert (Hm : IZR (up (r / (2 * PI))) <= INR (Z.to_nat (up (r / (2 * PI))))).
  { destruct (Z.le_gt_cases 0 (up (r / (2 * PI)))) as [Hz|Hz].
    - rewrite INR_IZR_INZ, Z2Nat.id by exact Hz. lra.
    - replace (Z.to_nat (up (r / (2 * PI)))) with 0%nat by lia.
      cbn [INR]. apply IZR_le. lia. }
  assert (Hr : r = r / (2 * PI) * (2 * PI)) by (field; lra).
  rewrite Hr at 1. apply Rmult_le_compat_r; lra.
Qed.

(** X10. In exact arithmetic the two loops end on every input, with a value in
    [[-PI, PI]] that differs from the input by a whole number of turns: what
    stalls [normalizeAngle] on binary64 is rounding alone. *)
Theorem normalizeAngle_exact_arithmetic (x : R) :
  exists fuel y, normalizeAngle fuel x = Some y
                 /\ - PI <= y <= PI
                 /\ exists k : Z, y = x + IZR k * (2 * PI).
Proof.
  pose proof PI_RGT_0 as Hpi.
  destruct (rounds_enough (x - PI)) as [m1 Hm1].
  destruct (while_above_real m1 x ltac:(lra)) as (y1 & Hrun1 & Hy1 & _ & _ & j1 & Hj1).
  destruct (rounds_enough (- PI - y1)) as [m2 Hm2].
  destruct (while_below_real m2 y1 ltac:(lra)) as (y2 & Hrun2 & Hy2 & Hup & Hsame & j2 & Hj2).
  exists (S m1 + S m2)%nat, y2. split.
  - unfold normalizeAngle. rewrite (while_above_more (S m1) x y1 (S m2) Hrun1).
    rewrite Nat.add_comm. exact (while_below_more (S m2) y1 y2 (S m1) Hrun2).
  - split.
    + split; [exact Hy2|]. destruct (Rle_lt_dec (- PI) y1) as [H1|H1].
      * rewrite (Hsame H1). exact Hy1.
      * left. apply Hup. exact H1.
    + exists (Z.of_nat j2 - Z.of_nat j1)%Z. rewrite minus_IZR, <- !INR_IZR_INZ. lra.
Qed.
End NormalizeAngleReal.

(** ** The lifecycle: step size, recording, history, parameters *)

Section LifecycleFacts.
Context {F : Type} `{Number F}.
Import Types Physics BaseSimulation.
Local Open Scope num_scope.
Variable M : Model F.

Lemma step_unfold (sc : Scratch) (s : Sim M) (dt : F) :
  let h := if ftruthy (fixedTimestep (physics (config M)))
           then fixedTimestep (physics (config M)) else dt in
  let r := integrate sc s h in
  let s1 := {|
    time := time s + h; state := r.2; initialState := initialState s;
    params := params s;
    timeHistory := timeHistory s; positionHistory := positionHistory s;
    velocityHistory := velocityHistory s; energyHistory := energyHistory s;
    phaseHistory := phaseHistory s;
    maxHistoryLength := maxHistoryLength s;
    recordingEnabled := recordingEnabled s; fields := r.1.2;
  |} in
  let ps := stateToPhysics M (params s) r.1.2 (time s + h) r.2 in
  step sc s dt = (r.1.1, recordHistory ps s1, ps).
Proof.
  unfold step, integrate. cbv zeta.
  destruct (integrationMethod (physics (config M)));
    match goal with
    | |- context [euler ?a ?b ?c ?d ?e ?f] => destruct (euler a b c d e f) as [[? ?] ?]
    | |- context [rk4 ?a ?b ?c ?d ?e ?f] => destruct (rk4 a b c d e f) as [[? ?] ?]
    end; reflexivity.
Qed.

Lemma recordHistory_frame (ps : PhysicsState F) (s : Sim M) :
  time (recordHistory ps s) = time s
  /\ state (recordHistory ps s) = state s
  /\ initialState (recordHistory ps s) = initialState s
  /\ params (recordHistory ps s) = params s
  /\ maxHistoryLength (recordHistory ps s) = maxHistoryLength s
  /\ recordingEnabled (recordHistory ps s) = recordingEnabled s
  /\ fields (recordHistory ps s) = fields s.
Proof.
  unfold recordHistory. destruct (recordingEnabled s) eqn:E; cbn;
    repeat split; try reflexivity; now rewrite E.
Qed.

(** C3. With a fixed timestep [ts] that JavaScript takes for true (not
    zero, not NaN), [step(dt)] integrates with [ts] and advances the time by
    [ts], whatever [dt] is; the caller's [dt] is used exactly when no such
    timestep is configured. *)
Theorem step_uses_fixed_timestep (sc : Scratch) (s : Sim M) (dt : F) :
  let ts := fixedTimestep (physics (config M)) in
  (ftruthy ts = true ->
     let '(sc', s', _) := step sc s dt in
     (sc', fields s', state s') = integrate sc s ts
     /\ time s' = time s + ts
     /\ step sc s dt = step sc s ts)
  /\ (ftruthy ts = false ->
     let '(sc', s', _) := step sc s dt in
     (sc', fields s', state s') = integrate sc s dt
     /\ time s' = time s + dt).
Proof.
  cbv zeta. split; intros Hts.
  - pose proof (step_unfold sc s dt) as E. pose proof (step_unfold sc s
      (fixedTimestep (physics (config M)))) as E'. cbv zeta in E, E'.
    rewrite Hts in E, E'. rewrite E, E'.
    match goal with |- context [recordHistory ?ps ?s1] =>
      destruct (recordHistory_frame ps s1) as (Ht & Hs & _ & _ & _ & _ & Hf)
    end.
    rewrite Ht, Hs, Hf. cbn.
    destruct (integrate sc s _) as [[? ?] ?]. auto.
  - pose proof (step_unfold sc s dt) as E. cbv zeta in E.
    rewrite Hts in E. rewrite E.
    match goal with |- context [recordHistory ?ps ?s1] =>
      destruct (recordHistory_frame ps s1) as (Ht & Hs & _ & _ & _ & _ & Hf)
    end.
    rewrite Ht, Hs, Hf. cbn.
    destruct (integrate sc s _) as [[? ?] ?]. auto.
Qed.

(** C7. Recording is off on a new instance, and while it is off a call to
    [step] leaves the five history buffers as they were; the flag, the
    parameters, the reset snapshot and the maximum are untouched too. *)
Theorem step_without_recording (sc : Scratch) (s : Sim M) (dt : F) :
  recordingEnabled (new M) = false
  /\ (recordingEnabled s = false ->
      let s' := (step sc s dt).1.2 in
      timeHistory s' = timeHistory s
      /\ positionHistory s' = positionHistory s
      /\ velocityHistory s' = velocityHistory s
      /\ energyHistory s' = energyHistory s
      /\ phaseHistory s' = phaseHistory s
      /\ recordingEnabled s' = false
      /\ params s' = params s
      /\ initialState s' = initialState s
      /\ maxHistoryLength s' = maxHistoryLength s).
Proof.
  split; [reflexivity|]. intros Hoff. cbv zeta.
  pose proof (step_unfold sc s dt) as E. cbv zeta in E. rewrite E. cbn [fst snd].
  unfold recordHistory. cbn [recordingEnabled]. rewrite Hoff. cbn. auto 10.
Qed.
End LifecycleFacts.

Section HistoryFacts.
Context {F : Type} `{Number F}.
Import Types Physics BaseSimulation.
Local Open Scope num_scope.
Variable M : Model F.

Lemma slice_from_keep {A : Type} (h : list A) :
  slice_from h (Z.opp 10000 + 1000) = drop (Z.to_nat (Z.of_nat (length h) - 9000)) h.
Proof.
  unfold slice_from, slice_index.
  change (Z.opp 10000 + 1000)%Z with (- 9000)%Z.
  change (- 9000 <? 0)%Z with true. cbv iota.
  f_equal. lia.
Qed.

Lemma retained_length {A : Type} (h : list A) :
  (Z.of_nat (length h) <= 10000)%Z ->
  Z.of_nat (length (retained h))
  = if (10000 <=? Z.of_nat (length h))%Z then 9000%Z else Z.of_nat (length h).
Proof.
  intros Hle. unfold retained.
  destruct (10000 <=? Z.of_nat (length h))%Z eqn:E; [|reflexivity].
  apply Z.leb_le in E. rewrite length_drop. lia.
Qed.

(** With equal lengths, the trim decided on [timeHistory] is the trim of
    every series. *)
Lemma trim_is_retained {A : Type} (h : list A) (len : nat) :
  length h = len ->
  (if (10000 <=? Z.of_nat len)%Z then slice_from h (Z.opp 10000 + 1000) else h)
  = retained h.
Proof.
  intros <-. unfold retained. now rewrite slice_from_keep.
Qed.

Lemma recordHistory_recording (ps : PhysicsState F) (s : Sim M) :
  recordingEnabled s = true ->
  history_bounded s ->
  let s' := recordHistory ps s in
  timeHistory s' = retained (timeHistory s) ++ [ps_time ps]
  /\ positionHistory s' = retained (positionHistory s) ++ [positions ps]
  /\ velocityHistory s' = retained (velocityHistory s) ++ [velocities ps]
  /\ energyHistory s'
     = retained (energyHistory s) ++ [getEnergy M (params s) (fields s) (state s)].
Proof.
  intros Hon (Hmax & Hp & Hv & He & _). cbv zeta.
  unfold recordHistory. rewrite Hon, Hmax. cbn -[Z.leb Z.add Z.opp slice_from].
  rewrite (trim_is_retained (timeHistory s) _ eq_refl),
    (trim_is_retained (positionHistory s) _ Hp),
    (trim_is_retained (velocityHistory s) _ Hv),
    (trim_is_retained (energyHistory s) _ He).
  auto.
Qed.

Lemma recordHistory_bounded (ps : PhysicsState F) (s : Sim M) :
  history_bounded s -> history_bounded (recordHistory ps s).
Proof.
  intros Hb. destruct (recordingEnabled s) eqn:Hon.
  - destruct (recordHistory_recording ps s Hon Hb) as (Ht & Hp & Hv & He).
    destruct Hb as (Hmax & Lp & Lv & Le & Hle).
    destruct (recordHistory_frame M ps s) as (_ & _ & _ & _ & Hmax' & _).
    unfold history_bounded. rewrite Hmax', Ht, Hp, Hv, He, !length_app. cbn.
    pose proof (retained_length (timeHistory s) Hle) as Rt.
    assert (Rp : length (retained (positionHistory s)) = length (retained (timeHistory s)))
      by (unfold retained; rewrite Lp; destruct (_ <=? _)%Z;
          rewrite ?length_drop; lia).
    assert (Rv : length (retained (velocityHistory s)) = length (retained (timeHistory s)))
      by (unfold retained; rewrite Lv; destruct (_ <=? _)%Z;
          rewrite ?length_drop; lia).
    assert (Re : length (retained (energyHistory s)) = length (retained (timeHistory s)))
      by (unfold retained; rewrite Le; destruct (_ <=? _)%Z;
          rewrite ?length_drop; lia).
    destruct (10000 <=? Z.of_nat (length (timeHistory s)))%Z eqn:E;
      [|apply Z.leb_gt in E]; repeat split; try lia.
  - unfold recordHistory. now rewrite Hon.
Qed.

Lemma clearHistory_bounded (s : Sim M) :
  maxHistoryLength s = 10000%Z -> history_bounded (clearHistory s).
Proof. intros Hmax. unfold history_bounded. cbn. repeat split; auto; lia. Qed.

Lemma step_bounded (sc : Scratch) (s : Sim M) (dt : F) :
  history_bounded s -> history_bounded (step sc s dt).1.2.
Proof.
  intros Hb. pose proof (step_unfold M sc s dt) as E. cbv zeta in E. rewrite E.
  cbn [fst snd]. apply recordHistory_bounded. exact Hb.
Qed.

Lemma perform_bounded (c : Call F) (sc sc' : Scratch) (s s' : Sim M) (r : Returned F) :
  history_bounded s -> perform c sc s = Some (sc', s', r) -> history_bounded s'.
Proof.
  intros Hb Hc. pose proof Hb as (Hmax & _).
  destruct c; cbn in Hc.
  - unfold init in Hc.
    destruct (createInitialState M _ _) as [[fs st]|]; [|discriminate].
    injection Hc as <- <- <-. now apply clearHistory_bounded.
  - pose proof (step_bounded sc s dt Hb) as Hs.
    destruct (step sc s dt) as [[sc1 s1] ps]. now injection Hc as <- <- <-.
  - now injection Hc as <- <- <-.
  - now injection Hc as <- <- <-.
  - injection Hc as <- <- <-. now apply clearHistory_bounded.
  - now injection Hc as <- <- <-.
  - injection Hc as <- <- <-. unfold enableRecording.
    destruct enabled; [now apply clearHistory_bounded | exact Hb].
  - now injection Hc as <- <- <-.
  - now injection Hc as <- <- <-.
  - injection Hc as <- <- <-. exact Hb.
Qed.

Lemma perform_all_bounded (cs : list (Call F)) :
  forall (sc sc' : Scratch) (s s' : Sim M),
    history_bounded s -> perform_all cs sc s = Some (sc', s') -> history_bounded s'.
Proof.
  induction cs as [|c cs IH]; intros sc sc' s s' Hb Hrun; cbn in Hrun.
  - now injection Hrun as <- <-.
  - destruct (perform c sc s) as [[[sc1 s1] r]|] eqn:Hc; [|discriminate].
    eapply IH; [|exact Hrun]. eapply perform_bounded; eassumption.
Qed.

Lemma new_bounded : history_bounded (new M).
Proof. unfold history_bounded. cbn. repeat split; auto; lia. Qed.

(** C8. On every instance reached from a newly constructed one by calls of
    its public operations, the time, position, velocity and energy series
    have one length, at most 10000. A [step] while recording appends one
    sample to what is retained of each series: all of it below the maximum,
    and at the maximum its newest 9000 entries, so that each series then
    holds 9001. *)
Theorem history_buffers_bounded
    (cs : list (Call F)) (sc0 sc : Scratch) (s : Sim M) :
  perform_all cs sc0 (new M) = Some (sc, s) ->
  history_bounded s
  /\ forall dt,
       history_bounded (step sc s dt).1.2
       /\ (recordingEnabled s = true ->
           let s' := (step sc s dt).1.2 in
           let ps := (step sc s dt).2 in
           timeHistory s' = retained (timeHistory s) ++ [ps_time ps]
           /\ positionHistory s' = retained (positionHistory s) ++ [positions ps]
           /\ velocityHistory s' = retained (velocityHistory s) ++ [velocities ps]
           /\ energyHistory s'
              = retained (energyHistory s)
                ++ [getEnergy M (params s') (fields s') (state s')]
           /\ Z.of_nat (length (timeHistory s'))
              = if (10000 <=? Z.of_nat (length (timeHistory s)))%Z
                then 9001%Z else (Z.of_nat (length (timeHistory s)) + 1)%Z).
Proof.
  intros Hrun.
  assert (Hb : history_bounded s)
    by (eapply perform_all_bounded; [apply new_bounded | exact Hrun]).
  split; [exact Hb|]. intros dt. split; [now apply step_bounded|].
  intros Hon. cbv zeta.
  pose proof (step_unfold M sc s dt) as E. cbv zeta in E. rewrite E. cbn [fst snd].
  match goal with |- context [recordHistory ?ps ?s1] =>
    assert (Hb1 : history_bounded s1) by exact Hb;
    destruct (recordHistory_recording ps s1 Hon Hb1) as (Ht & Hp & Hv & He);
    destruct (recordHistory_frame M ps s1) as (_ & Hs & _ & Hpar & _ & _ & Hf)
  end.
  rewrite Ht, Hp, Hv, He, Hs, Hpar, Hf. cbn.
  repeat split.
  rewrite length_app. cbn.
  destruct Hb as (_ & _ & _ & _ & Hle).
  pose proof (retained_length (timeHistory s) Hle) as Rt.
  destruct (10000 <=? Z.of_nat (length (timeHistory s)))%Z; lia.
Qed.

(** C9, as amended. A call of a public operation other than [init] and
    [setParams] leaves the parameters as they were: [step], [reset],
    [getEnergy], [getPhaseSpace], [enableRecording], [export], [getTime] and
    [getParams]. [init] replaces them by its argument over the defaults, and
    [setParams] by its argument over the current ones. *)
Theorem params_changed_by_init_and_setParams_only
    (c : Call F) (sc sc' : Scratch) (s s' : Sim M) (r : Returned F) :
  perform c sc s = Some (sc', s', r) ->
  match c with
  | CallInit p => params s' = p ∪ getDefaultParams M
  | CallSetParams p => params s' = p ∪ params s
  | _ => params s' = params s
  end.
Proof.
  intros Hc. destruct c; cbn in Hc.
  - unfold init in Hc.
    destruct (createInitialState M _ _) as [[fs st]|]; [|discriminate].
    now injection Hc as <- <- <-.
  - pose proof (step_unfold M sc s dt) as E. cbv zeta in E. rewrite E in Hc.
    injection Hc as <- <- <-.
    match goal with |- context [recordHistory ?ps ?s1] =>
      destruct (recordHistory_frame M ps s1) as (_ & _ & _ & Hpar & _)
    end.
    now rewrite Hpar.
  - now injection Hc as <- <- <-.
  - now injection Hc as <- <- <-.
  - now injection Hc as <- <- <-.
  - now injection Hc as <- <- <-.
  - injection Hc as <- <- <-. unfold enableRecording. now destruct enabled.
  - now injection Hc as <- <- <-.
  - now injection Hc as <- <- <-.
  - now injection Hc as <- <- <-.
Qed.
End HistoryFacts.

(** ** Replaying a run after reset *)

Section IntegratorsRelated.
Context {F : Type} `{Number F}.
Import Physics.
Local Open Scope num_scope.
Context {E : Type} (R : E -> E -> Prop) (D : DerivativeFunc (F := F) E) (y : list F).

Hypothesis HD : prefix_determined R D y.

Lemma first_stage (e1 e2 : E) (t : F) :
  R e1 e2 ->
  R (D e1 t y).1 (D e2 t y).1 /\ agree (length y) (D e1 t y).2 (D e2 t y).2.
Proof.
  intros HR. pose proof (HD e1 e2 t y [] [] HR eq_refl) as HD0.
  now rewrite !app_nil_r in HD0.
Qed.

Lemma later_stage (e1 e2 : E) (t h : F) (src1 src2 tb1 tb2 : list F) :
  R e1 e2 -> agree (length y) src1 src2 ->
  R (D e1 t (axpy y h src1 ++ tb1)).1 (D e2 t (axpy y h src2 ++ tb2)).1
  /\ agree (length y) (D e1 t (axpy y h src1 ++ tb1)).2
       (D e2 t (axpy y h src2 ++ tb2)).2.
Proof.
  intros HR Hsrc. rewrite (axpy_ext y h src1 src2 Hsrc).
  apply HD; [exact HR | apply axpy_length].
Qed.

Lemma rk4_related (sc1 sc2 : Scratch) (e1 e2 : E) (t dt : F) :
  R e1 e2 ->
  (rk4 sc1 e1 y t dt D).2 = (rk4 sc2 e2 y t dt D).2
  /\ R (rk4 sc1 e1 y t dt D).1.2 (rk4 sc2 e2 y t dt D).1.2.
Proof.
  intros HR. unfold rk4. cbv zeta.
  destruct (first_stage e1 e2 t HR) as [R1 A1].
  destruct (D e1 t y) as [e1a K1], (D e2 t y) as [e2a L1]. cbn [fst snd] in R1, A1.
  rewrite !stage_argument.
  destruct (later_stage e1a e2a (t + dt / of_Z 2) (dt / of_Z 2) K1 L1
              (drop (length y) (_rk4_temp sc1)) (drop (length y) (_rk4_temp sc2))
              R1 A1) as [R2 A2].
  destruct (D e1a _ _) as [e1b K2], (D e2a _ _) as [e2b L2].
  cbn [fst snd] in R2, A2. rewrite !stage_argument.
  match goal with
  | |- context [D e1b ?u (axpy y ?h K2 ++ ?t1)] =>
      match goal with
      | |- context [D e2b u (axpy y h L2 ++ ?t2)] =>
          destruct (later_stage e1b e2b u h K2 L2 t1 t2 R2 A2) as [R3 A3]
      end
  end.
  destruct (D e1b _ _) as [e1c K3], (D e2b _ _) as [e2c L3].
  cbn [fst snd] in R3, A3. rewrite !stage_argument.
  match goal with
  | |- context [D e1c ?u (axpy y ?h K3 ++ ?t1)] =>
      match goal with
      | |- context [D e2c u (axpy y h L3 ++ ?t2)] =>
          destruct (later_stage e1c e2c u h K3 L3 t1 t2 R3 A3) as [R4 A4]
      end
  end.
  destruct (D e1c _ _) as [e1d K4], (D e2c _ _) as [e2d L4].
  cbn [fst snd] in R4, A4 |- *.
  split; [|exact R4].
  rewrite !for_range_fill, !take_fill. apply map_seq_ext. intros i Hi.
  rewrite !array_get_copy_into by exact Hi.
  now rewrite (A1 i Hi), (A2 i Hi), (A3 i Hi), (A4 i Hi).
Qed.

Lemma euler_related (sc1 sc2 : Scratch) (e1 e2 : E) (t dt : F) :
  R e1 e2 ->
  (euler sc1 e1 y t dt D).2 = (euler sc2 e2 y t dt D).2
  /\ R (euler sc1 e1 y t dt D).1.2 (euler sc2 e2 y t dt D).1.2.
Proof.
  intros HR. unfold euler. cbv zeta.
  destruct (first_stage e1 e2 t HR) as [R1 A1].
  destruct (D e1 t y) as [e1a K1], (D e2 t y) as [e2a L1].
  cbn [fst snd] in R1, A1 |- *.
  split; [|exact R1].
  rewrite !for_range_fill, !take_fill. apply map_seq_ext. intros i Hi.
  now rewrite (A1 i Hi).
Qed.
End IntegratorsRelated.

Section Replay.
Context {F : Type} `{Number F}.
Import Types Physics BaseSimulation.
Local Open Scope num_scope.
Variable M : Model F.
Variable L : Replayable M.

Local Existing Instance same_equiv.

Lemma rk4_keeps (sc : Scratch) (p : gmap string F) (f : Fields M) (y : list F) (t dt : F) :
  same L f (rk4 sc f y t dt (computeDerivatives M p)).1.2.
Proof.
  unfold rk4. cbv zeta.
  pose proof (deriv_keeps L p) as K.
  destruct (computeDerivatives M p f t y) as [f1 k1] eqn:E1.
  destruct (computeDerivatives M p f1 _ _) as [f2 k2] eqn:E2.
  destruct (computeDerivatives M p f2 _ _) as [f3 k3] eqn:E3.
  destruct (computeDerivatives M p f3 _ _) as [f4 k4] eqn:E4.
  cbn [fst snd].
  pose proof (K f t y) as K1. rewrite E1 in K1.
  match type of E2 with computeDerivatives _ _ _ ?u ?s = _ =>
    pose proof (K f1 u s) as K2; rewrite E2 in K2 end.
  match type of E3 with computeDerivatives _ _ _ ?u ?s = _ =>
    pose proof (K f2 u s) as K3; rewrite E3 in K3 end.
  match type of E4 with computeDerivatives _ _ _ ?u ?s = _ =>
    pose proof (K f3 u s) as K4; rewrite E4 in K4 end.
  cbn [fst] in K1, K2, K3, K4.
  etransitivity; [exact K1|]. etransitivity; [exact K2|].
  etransitivity; [exact K3|exact K4].
Qed.

Lemma euler_keeps (sc : Scratch) (p : gmap string F) (f : Fields M) (y : list F) (t dt : F) :
  same L f (euler sc f y t dt (computeDerivatives M p)).1.2.
Proof.
  unfold euler. cbv zeta. pose proof (deriv_keeps L p f t y) as K.
  destruct (computeDerivatives M p f t y) as [f1 k1]. exact K.
Qed.

Lemma integrate_keeps (sc : Scratch) (s : Sim M) (h : F) :
  same L (fields s) (integrate sc s h).1.2
  /\ length (integrate sc s h).2 = length (state s).
Proof.
  unfold integrate. destruct (integrationMethod _);
    (split; [first [apply euler_keeps | apply rk4_keeps]
            | first [apply euler_result_length | apply rk4_result_length]]).
Qed.

Lemma derivatives_prefix_determined (p : gmap string F) (y : list F) :
  prefix_determined (fun f1 f2 => same L f1 f2 /\ dim L f1 = length y)
    (computeDerivatives M p) y.
Proof.
  intros f1 f2 t s tail1 tail2 [Hs Hd] Hlen.
  rewrite <- Hd in Hlen |- *.
  destruct (deriv_prefix L p f1 f2 t s tail1 tail2 Hs Hlen) as [Hs' Ha].
  repeat split; [exact Hs' | | exact Ha].
  symmetry. apply (same_dim L). apply deriv_keeps.
Qed.

Lemma integrate_alike (sc sc' : Scratch) (s s' : Sim M) (h : F) :
  alike L s s' ->
  (integrate sc s h).2 = (integrate sc' s' h).2
  /\ same L (integrate sc s h).1.2 (integrate sc' s' h).1.2.
Proof.
  intros (Ht & Hst & Hp & Hf & Hd). unfold integrate.
  rewrite <- Ht, <- Hst, <- Hp.
  pose proof (derivatives_prefix_determined (params s) (state s)) as HD.
  assert (HR : same L (fields s) (fields s') /\ dim L (fields s) = length (state s))
    by (split; [exact Hf | now symmetry]).
  destruct (integrationMethod _).
  - destruct (euler_related _ _ _ HD sc sc' (fields s) (fields s') (time s) h HR)
      as [Hy [Hs _]]. now split.
  - destruct (rk4_related _ _ _ HD sc sc' (fields s) (fields s') (time s) h HR)
      as [Hy [Hs _]]. now split.
  - destruct (rk4_related _ _ _ HD sc sc' (fields s) (fields s') (time s) h HR)
      as [Hy [Hs _]]. now split.
Qed.

Lemma step_fields (sc : Scratch) (s : Sim M) (dt : F) :
  let h := if ftruthy (fixedTimestep (physics (config M)))
           then fixedTimestep (physics (config M)) else dt in
  time (step sc s dt).1.2 = time s + h
  /\ state (step sc s dt).1.2 = (integrate sc s h).2
  /\ fields (step sc s dt).1.2 = (integrate sc s h).1.2
  /\ params (step sc s dt).1.2 = params s
  /\ initialState (step sc s dt).1.2 = initialState s
  /\ (step sc s dt).2
     = stateToPhysics M (params s) (integrate sc s h).1.2 (time s + h)
         (integrate sc s h).2.
Proof.
  cbv zeta. pose proof (step_unfold M sc s dt) as E. cbv zeta in E. rewrite E.
  cbn [fst snd].
  match goal with |- context [recordHistory ?ps ?s1] =>
    destruct (recordHistory_frame M ps s1) as (Ht & Hs & Hi & Hp & _ & _ & Hf)
  end.
  rewrite Ht, Hs, Hi, Hp, Hf. cbn. auto 10.
Qed.

Lemma step_alike (sc sc' : Scratch) (s s' : Sim M) (dt : F) :
  alike L s s' ->
  (step sc s dt).2 = (step sc' s' dt).2
  /\ alike L (step sc s dt).1.2 (step sc' s' dt).1.2.
Proof.
  intros Ha. pose proof Ha as (Ht & Hst & Hp & Hf & Hd).
  destruct (step_fields sc s dt) as (T1 & S1 & F1 & P1 & _ & O1).
  destruct (step_fields sc' s' dt) as (T2 & S2 & F2 & P2 & _ & O2).
  cbv zeta in *.
  set (h := if ftruthy (fixedTimestep (physics (config M)))
            then fixedTimestep (physics (config M)) else dt) in *.
  destruct (integrate_alike sc sc' s s' h Ha) as [Hy Hs].
  destruct (integrate_keeps sc s h) as [Hk Hl].
  split.
  - rewrite O1, O2, <- Hy, <- Ht, <- Hp. now apply (physics_same L).
  - unfold alike. rewrite T1, T2, S1, S2, F1, F2, P1, P2.
    split; [congruence|]. split; [exact Hy|]. split; [exact Hp|].
    split; [exact Hs|]. rewrite Hl, Hd. now apply (same_dim L).
Qed.

Lemma step_keeps (sc : Scratch) (s : Sim M) (dt : F) :
  params (step sc s dt).1.2 = params s
  /\ initialState (step sc s dt).1.2 = initialState s
  /\ same L (fields s) (fields (step sc s dt).1.2).
Proof.
  destruct (step_fields sc s dt) as (_ & _ & F1 & P1 & I1 & _). cbv zeta in F1.
  rewrite F1. repeat split; auto. apply integrate_keeps.
Qed.

Lemma steps_alike (dts : list F) :
  forall (sc sc' : Scratch) (s s' : Sim M),
    alike L s s' -> (steps sc s dts).2 = (steps sc' s' dts).2.
Proof.
  induction dts as [|dt dts IH]; intros sc sc' s s' Ha; [reflexivity|].
  cbn [steps].
  destruct (step_alike sc sc' s s' dt Ha) as [Ho Ha'].
  destruct (step sc s dt) as [[sc1 s1] ps], (step sc' s' dt) as [[sc1' s1'] ps'].
  cbn [fst snd] in Ho, Ha'.
  specialize (IH sc1 sc1' s1 s1' Ha').
  destruct (steps sc1 s1 dts) as [[? ?] out], (steps sc1' s1' dts) as [[? ?] out'].
  cbn [snd] in IH |- *. congruence.
Qed.

Lemma steps_keeps (dts : list F) :
  forall (sc : Scratch) (s : Sim M),
    params (steps sc s dts).1.2 = params s
    /\ initialState (steps sc s dts).1.2 = initialState s
    /\ same L (fields s) (fields (steps sc s dts).1.2).
Proof.
  induction dts as [|dt dts IH]; intros sc s; cbn [steps].
  - repeat split; reflexivity.
  - destruct (step_keeps sc s dt) as (P1 & I1 & F1).
    destruct (step sc s dt) as [[sc1 s1] ps]. cbn [fst snd] in P1, I1, F1.
    destruct (IH sc1 s1) as (P2 & I2 & F2).
    destruct (steps sc1 s1 dts) as [[sc2 s2] out]. cbn [fst snd] in *.
    repeat split; try congruence. now transitivity (fields s1).
Qed.

(** After [init(p)], [N] steps, [reset()] and [N] steps again return the
    states of the first [N] steps. *)
Lemma reset_replays (sc : Scratch) (s0 s1 : Sim M) (p : gmap string F) (dts : list F) :
  init s0 p = Some s1 -> replays sc s1 dts.
Proof.
  intros Hinit. unfold replays. cbv zeta.
  destruct (steps_keeps dts sc s1) as (P & I & Fs).
  unfold init in Hinit.
  destruct (createInitialState M _ _) as [[fs st]|] eqn:Hc; [|discriminate].
  injection Hinit as <-. cbn in P, I, Fs |- *.
  split; [exact I|]. split; [reflexivity|].
  symmetry. apply steps_alike.
  unfold alike. cbn. repeat split; auto.
  eapply (init_dim L); exact Hc.
Qed.
End Replay.

(** ** The three models replay *)

Section MoreArrayFacts.
Context {F : Type} `{Number F}.

Lemma array_get_set (b : list F) (i j : nat) (v : F) :
  array_get (array_set b i v) j = if (j =? i)%nat then v else array_get b j.
Proof.
  unfold array_get, array_set.
  destruct (i <? length b)%nat eqn:Hi.
  - apply Nat.ltb_lt in Hi. destruct (j =? i)%nat eqn:Hj.
    + apply Nat.eqb_eq in Hj. subst j. now rewrite list_lookup_insert_eq.
    + apply Nat.eqb_neq in Hj. now rewrite list_lookup_insert_ne by auto.
  - apply Nat.ltb_ge in Hi. destruct (j =? i)%nat eqn:Hj.
    + apply Nat.eqb_eq in Hj. subst j.
      rewrite lookup_app_r by lia. rewrite lookup_app_r by (rewrite length_replicate; lia).
      rewrite length_replicate. replace (i - length b - (i - length b)) with 0 by lia.
      reflexivity.
    + apply Nat.eqb_neq in Hj.
      destruct (Nat.lt_ge_cases j (length b)) as [Hlt|Hge].
      * now rewrite lookup_app_l by lia.
      * rewrite (lookup_ge_None_2 b j) by lia. rewrite lookup_app_r by lia.
        destruct (Nat.lt_ge_cases (j - length b) (i - length b)) as [Hin|Hout].
        -- rewrite lookup_app_l by (rewrite length_replicate; lia).
           now rewrite lookup_replicate_2 by lia.
        -- rewrite lookup_app_r by (rewrite length_replicate; lia).
           rewrite length_replicate.
           rewrite lookup_ge_None_2 by (cbn; lia). reflexivity.
Qed.

Lemma array_get_app_l (s tail : list F) (i : nat) :
  (i < length s)%nat -> array_get (s ++ tail) i = array_get s i.
Proof. intros Hi. unfold array_get. now rewrite lookup_app_l. Qed.

Lemma for_range_push_length {A : Type} (g : nat -> A) (c : nat) (st : list A) :
  length (for_range c (fun i acc => acc ++ [g i]) st) = (length st + c)%nat.
Proof.
  unfold for_range. generalize 0%nat as a. revert st.
  induction c as [|c IH]; intros st a; cbn; [lia|].
  rewrite IH, length_app. cbn. lia.
Qed.
End MoreArrayFacts.

Section SimpleReplays.
Context {F : Type} `{Number F} `{MathLib F}.
Import Types Physics BaseSimulation.

Lemma always_same_equiv {A : Type} : Equivalence (fun _ _ : A => True).
Proof. split; auto. Qed.

Lemma SimplePendulum_replayable : Replayable SimplePendulum.model.
Proof.
  refine {| same := fun _ _ => True; dim := fun _ => 2%nat;
            same_equiv := always_same_equiv |}; cbn; auto.
  - intros p f f' st E. injection E as _ <-. reflexivity.
  - intros p f1 f2 t s tail1 tail2 _ Hs. split; [exact I|].
    intros i Hi. unfold SimplePendulum.computeDerivatives. cbn [snd].
    rewrite !array_get_set, !array_get_app_l by lia.
    destruct i as [|[|i]]; [reflexivity | reflexivity | lia].
Defined.

Lemma DoublePendulum_replayable : Replayable DoublePendulum.model.
Proof.
  refine {| same := fun _ _ => True; dim := fun _ => 4%nat;
            same_equiv := always_same_equiv |}; cbn; auto.
  - intros p f f' st E. injection E as _ <-. reflexivity.
  - intros p f1 f2 t s tail1 tail2 _ Hs. split; [exact I|].
    intros i Hi. unfold DoublePendulum.computeDerivatives. cbn [snd].
    rewrite !array_get_set, !array_get_app_l by lia.
    destruct i as [|[|[|[|i]]]]; [reflexivity .. | lia].
Defined.
End SimpleReplays.

Section NPendulumReplays.
Context {F : Type} `{Number F} `{MathLib F}.
Import Types Physics BaseSimulation.
Local Open Scope num_scope.

(** The second loop of [computeDerivatives] leaves [a j] in slot [j] and
    [b j] in slot [n + j], for every segment [j]. *)
Lemma interleaved_fill (n : nat) (a b : nat -> F) (buf : list F) (m : nat) :
  (m <= n)%nat ->
  forall j, (j < m)%nat ->
    let out :=
      fold_left (fun acc i => array_set (array_set acc i (a i)) (n + i) (b i))
        (seq 0 m) buf in
    array_get out j = a j /\ array_get out (n + j) = b j.
Proof.
  induction m as [|m IH]; intros Hm j Hj; [lia|].
  cbv zeta. rewrite seq_S, fold_left_app. cbn [fold_left Nat.add].
  rewrite !array_get_set.
  destruct (Nat.eq_dec j m) as [->|Hne].
  - rewrite Nat.eqb_refl.
    replace (m =? n + m)%nat with false by (symmetry; apply Nat.eqb_neq; lia).
    replace (n + m =? n + m)%nat with true by (symmetry; apply Nat.eqb_refl).
    split; reflexivity.
  - assert (Hj' : (j < m)%nat) by lia.
    destruct (IH ltac:(lia) j Hj') as [Ha Hb]. cbv zeta in Ha, Hb.
    replace (j =? n + m)%nat with false by (symmetry; apply Nat.eqb_neq; lia).
    replace (j =? m)%nat with false by (symmetry; apply Nat.eqb_neq; lia).
    replace (n + j =? n + m)%nat with false by (symmetry; apply Nat.eqb_neq; lia).
    replace (n + j =? m)%nat with false by (symmetry; apply Nat.eqb_neq; lia).
    split; assumption.
Qed.

Lemma computeDerivatives_slots (p : gmap string F) (fs : NPendulum.NFields)
    (t : F) (state : list F) (j : nat) :
  (j < NPendulum.n fs)%nat ->
  array_get (NPendulum.computeDerivatives p fs t state).2 j
  = array_get state (NPendulum.n fs + j)
  /\ array_get (NPendulum.computeDerivatives p fs t state).2 (NPendulum.n fs + j)
     = NPendulum.alpha_of p (NPendulum.n fs) state j.
Proof.
  intros Hj. unfold NPendulum.computeDerivatives. cbn [snd]. unfold for_range at 1.
  destruct (interleaved_fill (NPendulum.n fs)
              (fun i => array_get state (NPendulum.n fs + i))
              (fun i => array_get
                          (for_range (NPendulum.n fs)
                             (fun i buf =>
                                array_set buf i
                                  (NPendulum.alpha_of p (NPendulum.n fs) state i))
                             (NPendulum._alphasBuffer fs)) i)
              (NPendulum._derivBuffer fs) (NPendulum.n fs) (le_n _) j Hj) as [Ha Hb].
  cbv zeta in Ha, Hb. split; [exact Ha|].
  etransitivity; [exact Hb|].
  rewrite for_range_fill. now apply array_get_fill.
Qed.

Lemma alpha_of_prefix (p : gmap string F) (n : nat) (s tail : list F) (i : nat) :
  length s = (n + n)%nat -> (i < n)%nat ->
  NPendulum.alpha_of p n (s ++ tail) i = NPendulum.alpha_of p n s i.
Proof.
  intros Hs Hi. unfold NPendulum.alpha_of. cbv zeta.
  rewrite !(array_get_app_l s tail i), !(array_get_app_l s tail (n + i)),
    !(array_get_app_l s tail (i - 1)), !(array_get_app_l s tail (n + i - 1)) by lia.
  destruct (i <? n - 1)%nat eqn:E; [|reflexivity].
  apply Nat.ltb_lt in E.
  now rewrite !(array_get_app_l s tail (i + 1)),
    !(array_get_app_l s tail (n + i + 1)) by lia.
Qed.

Lemma same_n_equiv :
  Equivalence (fun f1 f2 : NPendulum.NFields (F := F) =>
                 NPendulum.n f1 = NPendulum.n f2).
Proof. split; congruence. Qed.

Lemma NPendulum_init_dim (p : gmap string F) (f f' : NPendulum.NFields) (st : list F) :
  NPendulum.createInitialState p f = Some (f', st) ->
  length st = (NPendulum.n f' + NPendulum.n f')%nat.
Proof.
  unfold NPendulum.createInitialState.
  destruct (count_of (param p "n")) as [c|]; [|discriminate].
  destruct (max_array_length <? _)%Z; [discriminate|].
  intros E. injection E as <- <-. cbn [NPendulum.n].
  rewrite !for_range_push_length. cbn [length]. lia.
Qed.

Lemma NPendulum_deriv_prefix (p : gmap string F) (f1 f2 : NPendulum.NFields) (t : F)
    (s tail1 tail2 : list F) :
  NPendulum.n f1 = NPendulum.n f2 ->
  length s = (NPendulum.n f1 + NPendulum.n f1)%nat ->
  agree (NPendulum.n f1 + NPendulum.n f1)
    (NPendulum.computeDerivatives p f1 t (s ++ tail1)).2
    (NPendulum.computeDerivatives p f2 t (s ++ tail2)).2.
Proof.
  intros En Hs i Hi.
  destruct (Nat.lt_ge_cases i (NPendulum.n f1)) as [Hlt|Hge].
  - destruct (computeDerivatives_slots p f1 t (s ++ tail1) i Hlt) as [-> _].
    rewrite En in Hlt.
    destruct (computeDerivatives_slots p f2 t (s ++ tail2) i Hlt) as [-> _].
    rewrite <- En. now rewrite !array_get_app_l by lia.
  - set (j := (i - NPendulum.n f1)%nat).
    assert (Hj : (j < NPendulum.n f1)%nat) by (subst j; lia).
    assert (Hj2 : (j < NPendulum.n f2)%nat) by (rewrite <- En; exact Hj).
    destruct (computeDerivatives_slots p f1 t (s ++ tail1) j Hj) as [_ E1].
    destruct (computeDerivatives_slots p f2 t (s ++ tail2) j Hj2) as [_ E2].
    rewrite <- En in E2.
    replace (NPendulum.n f1 + j)%nat with i in E1, E2 by (subst j; lia).
    rewrite E1, E2. now rewrite !alpha_of_prefix by assumption.
Qed.

Lemma NPendulum_deriv_n (p : gmap string F) (f : NPendulum.NFields) (t : F) (s : list F) :
  NPendulum.n (NPendulum.computeDerivatives p f t s).1 = NPendulum.n f.
Proof. reflexivity. Qed.

Lemma NPendulum_physics_same (p : gmap string F) (f1 f2 : NPendulum.NFields) (t : F)
    (s : list F) :
  NPendulum.n f1 = NPendulum.n f2 ->
  NPendulum.stateToPhysics p f1 t s = NPendulum.stateToPhysics p f2 t s.
Proof. intros En. unfold NPendulum.stateToPhysics. now rewrite En. Qed.

Lemma NPendulum_replayable : Replayable NPendulum.model.
Proof.
  exact {|
    same := fun f1 f2 : Fields NPendulum.model => NPendulum.n f1 = NPendulum.n f2;
    dim := fun f : Fields NPendulum.model => (NPendulum.n f + NPendulum.n f)%nat;
    same_equiv := same_n_equiv;
    same_dim := fun f1 f2 (E : NPendulum.n f1 = NPendulum.n f2) =>
                  f_equal (fun k => (k + k)%nat) E;
    init_dim := NPendulum_init_dim;
    deriv_prefix := fun p f1 f2 t s tail1 tail2 En Hs =>
      conj (eq_trans (NPendulum_deriv_n p f1 t (s ++ tail1))
              (eq_trans En (eq_sym (NPendulum_deriv_n p f2 t (s ++ tail2)))))
           (NPendulum_deriv_prefix p f1 f2 t s tail1 tail2 En Hs);
    deriv_keeps := fun p f t s => eq_sym (NPendulum_deriv_n p f t s);
    physics_same := NPendulum_physics_same;
  |}.
Defined.
End NPendulumReplays.

(** ** Counting rounds *)

Section CountingFacts.
Context {F : Type} `{Number F}.
Variables (n : F) (k : Z).
Hypothesis below : forall i, (0 <= i < k)%Z -> fltb (of_Z i) n = true.
Hypothesis at_k : fltb (of_Z k) n = false.

Lemma scan_lt_spec (p : positive) :
  forall i, (0 <= i <= k)%Z ->
    scan_lt p n i = if (k - i <? Z.pos p)%Z then inl k else inr (i + Z.pos p)%Z.
Proof.
  induction p as [q IH|q IH|]; intros i Hi; cbn [scan_lt].
  - rewrite (IH i Hi). destruct (k - i <? Z.pos q)%Z eqn:E1.
    + apply Z.ltb_lt in E1.
      replace (k - i <? Z.pos q~1)%Z with true by (symmetry; apply Z.ltb_lt; lia).
      reflexivity.
    + apply Z.ltb_ge in E1. rewrite (IH (i + Z.pos q)%Z) by lia.
      destruct (k - (i + Z.pos q) <? Z.pos q)%Z eqn:E2.
      * apply Z.ltb_lt in E2.
        replace (k - i <? Z.pos q~1)%Z with true by (symmetry; apply Z.ltb_lt; lia).
        reflexivity.
      * apply Z.ltb_ge in E2.
        destruct (Z.eq_dec (i + Z.pos q + Z.pos q)%Z k) as [Ek|Ek].
        -- rewrite Ek, at_k.
           replace (k - i <? Z.pos q~1)%Z with true by (symmetry; apply Z.ltb_lt; lia).
           reflexivity.
        -- rewrite below by lia.
           replace (k - i <? Z.pos q~1)%Z with false by (symmetry; apply Z.ltb_ge; lia).
           f_equal. lia.
  - rewrite (IH i Hi). destruct (k - i <? Z.pos q)%Z eqn:E1.
    + apply Z.ltb_lt in E1.
      replace (k - i <? Z.pos q~0)%Z with true by (symmetry; apply Z.ltb_lt; lia).
      reflexivity.
    + apply Z.ltb_ge in E1. rewrite (IH (i + Z.pos q)%Z) by lia.
      destruct (k - (i + Z.pos q) <? Z.pos q)%Z eqn:E2.
      * apply Z.ltb_lt in E2.
        replace (k - i <? Z.pos q~0)%Z with true by (symmetry; apply Z.ltb_lt; lia).
        reflexivity.
      * apply Z.ltb_ge in E2.
        replace (k - i <? Z.pos q~0)%Z with false by (symmetry; apply Z.ltb_ge; lia).
        f_equal. lia.
  - destruct (Z.eq_dec i k) as [->|Hne].
    + rewrite at_k. now rewrite Z.sub_diag.
    + rewrite below by lia.
      replace (k - i <? 1)%Z with false by (symmetry; apply Z.ltb_ge; lia).
      reflexivity.
Qed.

Lemma trip_count_spec :
  (0 <= k <= 2 ^ 53)%Z -> trip_count n = Some (Z.to_nat k).
Proof.
  intros Hk. unfold trip_count.
  rewrite (scan_lt_spec (2 ^ 53) 0) by lia.
  change (Z.pos (2 ^ 53)) with (2 ^ 53)%Z. rewrite Z.sub_0_r, Z.add_0_l.
  destruct (k <? 2 ^ 53)%Z eqn:E; [reflexivity|].
  apply Z.ltb_ge in E. assert (Ek : k = (2 ^ 53)%Z) by lia.
  rewrite <- Ek, at_k. reflexivity.
Qed.

Lemma count_of_spec :
  (0 <= k <= 2 ^ 53)%Z -> ((0 < k)%Z -> feqb n (of_Z k) = true) ->
  count_of n = Some (Z.to_nat k).
Proof.
  intros Hk He. unfold count_of. rewrite (trip_count_spec Hk).
  destruct (Z.to_nat k) as [|c] eqn:Ec; [reflexivity|].
  unfold of_nat. rewrite <- Ec, Z2Nat.id by lia. rewrite He by lia. reflexivity.
Qed.
End CountingFacts.

Section RealCounting.

Lemma Rltb_IZR (i k : Z) : Rltb (IZR i) (IZR k) = (i <? k)%Z.
Proof.
  unfold Rltb. destruct (Rlt_dec (IZR i) (IZR k)) as [Hlt|Hge].
  - symmetry. apply Z.ltb_lt. now apply lt_IZR.
  - symmetry. apply Z.ltb_ge. apply Z.le_ngt. intros Hlt. apply Hge.
    now apply IZR_lt.
Qed.

Lemma Reqb_refl (a : R) : Reqb a a = true.
Proof. unfold Reqb. now destruct (Req_dec_T a a). Qed.

Lemma count_of_IZR (k : Z) :
  (k <= 2 ^ 53)%Z -> count_of (IZR k) = Some (Z.to_nat k).
Proof.
  intros Hk. destruct (Z.le_gt_cases 0 k) as [Hpos|Hneg].
  - apply count_of_spec; [| |lia|].
    + intros i Hi. cbn [fltb of_Z R_Number]. rewrite Rltb_IZR. apply Z.ltb_lt. lia.
    + cbn [fltb of_Z R_Number]. rewrite Rltb_IZR. apply Z.ltb_irrefl.
    + intros _. cbn [feqb of_Z R_Number]. apply Reqb_refl.
  - replace (Z.to_nat k) with (Z.to_nat 0) by lia.
    apply count_of_spec; [| |lia|lia].
    + intros i Hi. lia.
    + cbn [fltb of_Z R_Number]. rewrite Rltb_IZR. apply Z.ltb_ge. lia.
Qed.
End RealCounting.

(** ** The models over the real numbers *)

Section RealModels.
Import Types Physics BaseSimulation.
Local Open Scope R_scope.

Lemma NPendulum_init_length (k : Z) (s : Sim (NPendulum.model (F := R)))
    (p : gmap string R) :
  (k < 2 ^ 31)%Z ->
  p !! "n" = Some (IZR k) ->
  exists s', init s p = Some s'
             /\ length (state s') = (2 * Z.to_nat k)%nat
             /\ NPendulum.n (fields s') = Z.to_nat k.
Proof.
  intros Hk Hn. unfold init. cbv zeta.
  set (merged := p ∪ getDefaultParams NPendulum.model).
  assert (Hp : param merged "n" = IZR k).
  { unfold param, merged. now rewrite (lookup_union_Some_l _ _ _ _ Hn). }
  change (createInitialState NPendulum.model merged (fields s))
    with (NPendulum.createInitialState merged (fields s)).
  unfold NPendulum.createInitialState. rewrite Hp, (count_of_IZR k) by lia.
  replace (max_array_length <? Z.of_nat (Z.to_nat k) + Z.of_nat (Z.to_nat k))%Z
    with false by (symmetry; apply Z.ltb_ge; unfold max_array_length; lia).
  eexists. split; [reflexivity|]. cbn [state fields clearHistory NPendulum.n].
  split; [|reflexivity]. rewrite !for_range_push_length. cbn [length]. lia.
Qed.

(** C6, as amended. [NPendulum.init] does not validate [n]: for every
    integer [k] below [2^31] (so that [2k] slots fit an array), for [k] in
    [2,10] and outside it alike, initialisation with [n = k] is accepted as
    it is; it yields a state vector of length exactly [2k], and the empty
    one for a negative [k]. *)
Theorem NPendulum_init_accepts_every_count (k : Z)
    (s : Sim (NPendulum.model (F := R))) (p : gmap string R) :
  (k < 2 ^ 31)%Z ->
  p !! "n" = Some (IZR k) ->
  exists s', init s p = Some s' /\ length (state s') = (2 * Z.to_nat k)%nat.
Proof.
  intros Hk Hn. destruct (NPendulum_init_length k s p Hk Hn) as (s' & Hi & Hl & _).
  now exists s'.
Qed.

(** C6, counterexample. With [n = 11], outside [2,10], a new chain is
    initialised without complaint, with 11 segments and a state vector of
    length 22: neither rejected nor clamped. *)
Lemma NPendulum_init_eleven :
  exists s', init (new NPendulum.model) {[ "n" := 11 ]} = Some s'
             /\ length (state s') = 22%nat
             /\ NPendulum.n (fields s') = 11%nat.
Proof.
  apply (NPendulum_init_length 11); [lia|]. apply lookup_singleton_eq.
Qed.

Lemma NPendulum_init_accepts_every_count_witness :
  ((2 < 2 ^ 31)%Z /\ ({[ "n" := 2 ]} : gmap string R) !! "n" = Some (IZR 2))
  /\ exists s', init (new NPendulum.model) {[ "n" := 2 ]} = Some s'
                /\ length (state s') = (2 * Z.to_nat 2)%nat.
Proof.
  assert (Hk : (2 < 2 ^ 31)%Z) by lia.
  assert (Hn : ({[ "n" := 2 ]} : gmap string R) !! "n" = Some (IZR 2))
    by apply lookup_singleton_eq.
  split; [split; [exact Hk | exact Hn]|].
  exact (NPendulum_init_accepts_every_count 2 (new NPendulum.model) _ Hk Hn).
Defined.

Lemma closed_forms_solve (L1 L2 m1 m2 g theta1 theta2 omega1 omega2 : R) :
  L1 <> 0 -> L2 <> 0 -> shared_denominator m1 m2 theta1 theta2 <> 0 ->
  euler_lagrange L1 L2 m1 m2 g theta1 theta2 omega1 omega2
    (lagrangian_alpha1 L1 L2 m1 m2 g theta1 theta2 omega1 omega2)
    (lagrangian_alpha2 L1 L2 m1 m2 g theta1 theta2 omega1 omega2).
Proof.
  intros HL1 HL2 HD.
  unfold euler_lagrange, lagrangian_alpha1, lagrangian_alpha2, shared_denominator in *.
  set (dl := theta1 - theta2) in *.
  assert (E1 : sin theta1 = sin dl * cos theta2 + cos dl * sin theta2).
  { replace theta1 with (dl + theta2) at 1 by (unfold dl; ring). apply sin_plus. }
  assert (E2 : cos theta1 = cos dl * cos theta2 - sin dl * sin theta2).
  { replace theta1 with (dl + theta2) at 1 by (unfold dl; ring). apply cos_plus. }
  assert (E3 : sin (theta1 - 2 * theta2) = sin dl * cos theta2 - cos dl * sin theta2).
  { replace (theta1 - 2 * theta2) with (dl - theta2) by (unfold dl; ring).
    apply sin_minus. }
  assert (E4 : cos (2 * dl) = 1 - 2 * sin dl * sin dl) by apply cos_2a_sin.
  pose proof (sin2_cos2 dl) as P. unfold Rsqr in P.
  rewrite E4 in HD. rewrite E1, E2, E3, E4.
  clear E1 E2 E3 E4.
  generalize dependent (sin dl). generalize dependent (cos dl).
  generalize (sin theta2) (cos theta2).
  intros s2 c2 c s HD P.
  assert (Hc2 : c ^ 2 = 1 - s * s) by (rewrite <- P; ring).
  split; (field_simplify_eq; [|auto]); rewrite ?Hc2; ring.
Qed.

Lemma euler_lagrange_unique (L1 L2 m1 m2 g theta1 theta2 omega1 omega2 a1 a2 b1 b2 : R) :
  L1 <> 0 -> L2 <> 0 -> shared_denominator m1 m2 theta1 theta2 <> 0 ->
  euler_lagrange L1 L2 m1 m2 g theta1 theta2 omega1 omega2 a1 a2 ->
  euler_lagrange L1 L2 m1 m2 g theta1 theta2 omega1 omega2 b1 b2 ->
  b1 = a1 /\ b2 = a2.
Proof.
  unfold euler_lagrange, shared_denominator.
  intros HL1 HL2 HD [A1 A2] [B1 B2].
  rewrite cos_2a_sin in HD.
  pose proof (sin2_cos2 (theta1 - theta2)) as P. unfold Rsqr in P.
  generalize dependent (sin (theta1 - theta2)).
  generalize dependent (cos (theta1 - theta2)).
  intros c s HD A1 A2 B1 B2 P.
  set (x := b1 - a1). set (y := b2 - a2).
  assert (X1 : (m1 + m2) * L1 * x + m2 * L2 * y * c = 0) by (unfold x, y; lra).
  assert (X2 : L2 * y + L1 * x * c = 0) by (unfold x, y; lra).
  assert (Hy : L2 * y = - (L1 * x * c)) by lra.
  assert (Hx : (2 * m1 + m2 - m2 * (1 - 2 * s * s)) * (L1 * x) = 0).
  { replace ((2 * m1 + m2 - m2 * (1 - 2 * s * s)) * (L1 * x))
      with (2 * ((m1 + m2) * L1 * x + m2 * (L2 * y) * c)
            + 2 * m2 * L1 * x * (s * s + c * c - 1)) by (rewrite Hy; ring).
    rewrite P. replace (m2 * (L2 * y) * c) with (m2 * L2 * y * c) by ring.
    rewrite X1. ring. }
  assert (x0 : x = 0).
  { apply Rmult_integral in Hx. destruct Hx as [Hx|Hx]; [contradiction|].
    apply Rmult_integral in Hx. destruct Hx as [Hx|Hx]; [contradiction|exact Hx]. }
  assert (y0 : y = 0).
  { rewrite x0 in Hy. assert (Hy' : L2 * y = 0) by lra.
    apply Rmult_integral in Hy'. destruct Hy'; [contradiction|assumption]. }
  unfold x in x0. unfold y in y0. split; lra.
Qed.

(** C2. On a state [[θ1, θ2, ω1, ω2]], [DoublePendulum.computeDerivatives]
    returns [[ω1, ω2, α1, α2]] where [α1] and [α2] are the closed forms over
    [L1] and [L2] times the shared denominator
    [2 m1 + m2 - m2 cos(2(θ1-θ2))], less [damping * ω1] and [damping * ω2];
    where the denominators do not vanish, the closed forms are the one
    solution of the Lagrangian equations of motion. *)
Theorem DoublePendulum_derivatives_lagrangian
    (p : gmap string R) (buf : list R) (t theta1 theta2 omega1 omega2 : R) :
  length buf = 4%nat ->
  let L1 := param p "length1" in
  let L2 := param p "length2" in
  let m1 := param p "mass1" in
  let m2 := param p "mass2" in
  let g := param p "gravity" in
  let damping := param p "damping" in
  let a1 := lagrangian_alpha1 L1 L2 m1 m2 g theta1 theta2 omega1 omega2 in
  let a2 := lagrangian_alpha2 L1 L2 m1 m2 g theta1 theta2 omega1 omega2 in
  (DoublePendulum.computeDerivatives p buf t [theta1; theta2; omega1; omega2]).2
  = [omega1; omega2; a1 - damping * omega1; a2 - damping * omega2]
  /\ (L1 <> 0 -> L2 <> 0 -> shared_denominator m1 m2 theta1 theta2 <> 0 ->
      euler_lagrange L1 L2 m1 m2 g theta1 theta2 omega1 omega2 a1 a2
      /\ forall b1 b2,
           euler_lagrange L1 L2 m1 m2 g theta1 theta2 omega1 omega2 b1 b2 ->
           b1 = a1 /\ b2 = a2).
Proof.
  intros Hbuf. cbv zeta. split.
  - destruct buf as [|b0 [|b1 [|b2 [|b3 [|b4 buf]]]]]; try discriminate Hbuf.
    reflexivity.
  - intros HL1 HL2 HD.
    pose proof (closed_forms_solve _ _ _ _ (param p "gravity") _ _ omega1 omega2
                  HL1 HL2 HD) as Hs.
    split; [exact Hs|]. intros b1 b2 Hb.
    exact (euler_lagrange_unique _ _ _ _ _ _ _ _ _ _ _ _ _ HL1 HL2 HD Hs Hb).
Qed.

Lemma unit_rods_values :
  param unit_rods "length1" = 1 /\ param unit_rods "length2" = 1
  /\ param unit_rods "mass1" = 1 /\ param unit_rods "mass2" = 1.
Proof. repeat split; reflexivity. Qed.

Lemma DoublePendulum_derivatives_lagrangian_witness :
  let L1 := param unit_rods "length1" in
  let L2 := param unit_rods "length2" in
  let m1 := param unit_rods "mass1" in
  let m2 := param unit_rods "mass2" in
  let g := param unit_rods "gravity" in
  let a1 := lagrangian_alpha1 L1 L2 m1 m2 g 0 0 3 4 in
  let a2 := lagrangian_alpha2 L1 L2 m1 m2 g 0 0 3 4 in
  (length [0; 0; 0; 0] = 4%nat
   /\ L1 <> 0 /\ L2 <> 0 /\ shared_denominator m1 m2 0 0 <> 0)
  /\ (DoublePendulum.computeDerivatives unit_rods [0; 0; 0; 0] 0 [0; 0; 3; 4]).2
     = [3; 4; a1 - param unit_rods "damping" * 3; a2 - param unit_rods "damping" * 4]
  /\ euler_lagrange L1 L2 m1 m2 g 0 0 3 4 a1 a2.
Proof.
  cbv zeta. destruct unit_rods_values as (E1 & E2 & E3 & E4).
  assert (HL1 : param unit_rods "length1" <> 0) by (rewrite E1; lra).
  assert (HL2 : param unit_rods "length2" <> 0) by (rewrite E2; lra).
  assert (HD : shared_denominator (param unit_rods "mass1") (param unit_rods "mass2")
                 0 0 <> 0).
  { unfold shared_denominator. rewrite E3, E4.
    replace (2 * (0 - 0)) with 0 by ring. rewrite cos_0. lra. }
  split; [repeat split; assumption|].
  destruct (DoublePendulum_derivatives_lagrangian unit_rods [0; 0; 0; 0] 0 0 0 3 4
              eq_refl) as [Hres Hel].
  split; [exact Hres|]. exact (proj1 (Hel HL1 HL2 HD)).
Defined.
End RealModels.

(** ** Every model replays its run after reset *)

Section EveryModelReplays.
Context {F : Type} `{Number F} `{MathLib F}.
Import Types Physics BaseSimulation.

End EveryModelReplays.

(** ** The theorems at a simple pendulum over the real numbers *)

Section RealInstances.
Import Types Physics BaseSimulation.
Local Open Scope R_scope.

Lemma fixed_timestep_truthy : ftruthy (fixedTimestep (physics (config pendulum))) = true.
Proof.
  cbn. unfold Reqb. destruct (Req_dec_T (1 / 240) 0) as [E|_]; [lra|reflexivity].
Qed.

Lemma no_timestep_falsy : ftruthy (fixedTimestep (physics (config free_running))) = false.
Proof. cbn. now rewrite Reqb_refl. Qed.

Lemma step_uses_fixed_timestep_witness :
  (ftruthy (fixedTimestep (physics (config pendulum))) = true
   /\ let '(sc', s', _) := step fresh_scratch (new pendulum) 1 in
      (sc', fields s', state s')
      = integrate fresh_scratch (new pendulum) (fixedTimestep (physics (config pendulum)))
      /\ time s' = time (new pendulum) + fixedTimestep (physics (config pendulum))
      /\ step fresh_scratch (new pendulum) 1
         = step fresh_scratch (new pendulum) (fixedTimestep (physics (config pendulum))))
  /\ (ftruthy (fixedTimestep (physics (config free_running))) = false
      /\ let '(sc', s', _) := step fresh_scratch (new free_running) 1 in
         (sc', fields s', state s') = integrate fresh_scratch (new free_running) 1
         /\ time s' = time (new free_running) + 1).
Proof.
  split; (split; [first [exact fixed_timestep_truthy | exact no_timestep_falsy]|]).
  - exact (proj1 (step_uses_fixed_timestep pendulum fresh_scratch (new pendulum) 1)
             fixed_timestep_truthy).
  - exact (proj2 (step_uses_fixed_timestep free_running fresh_scratch
                    (new free_running) 1) no_timestep_falsy).
Defined.

Lemma step_without_recording_witness :
  recordingEnabled (new pendulum) = false
  /\ timeHistory (step fresh_scratch (new pendulum) 1).1.2 = []
  /\ phaseHistory (step fresh_scratch (new pendulum) 1).1.2 = [].
Proof.
  split; [reflexivity|].
  destruct (proj2 (step_without_recording pendulum fresh_scratch (new pendulum) 1)
              eq_refl) as (Ht & _ & _ & _ & Hp & _).
  split; [exact Ht | exact Hp].
Defined.

Lemma history_buffers_bounded_witness :
  perform_all [CallEnableRecording true; CallReset] fresh_scratch (new pendulum)
  = Some (fresh_scratch, reset (enableRecording (new pendulum) true))
  /\ history_bounded (reset (enableRecording (new pendulum) true))
  /\ length (timeHistory
               (step fresh_scratch (reset (enableRecording (new pendulum) true)) 1).1.2)
     = 1%nat.
Proof.
  assert (Hrun : perform_all [CallEnableRecording true; CallReset] fresh_scratch
                   (new pendulum)
                 = Some (fresh_scratch, reset (enableRecording (new pendulum) true)))
    by reflexivity.
  split; [exact Hrun|].
  destruct (history_buffers_bounded pendulum _ _ _ _ Hrun) as [Hb Hstep].
  split; [exact Hb|].
  destruct (Hstep 1) as [_ Hrec].
  destruct (Hrec eq_refl) as (Ht & _). cbv zeta in Ht. rewrite Ht. reflexivity.
Defined.

Lemma params_changed_by_init_and_setParams_only_witness :
  perform CallReset fresh_scratch (new pendulum)
  = Some (fresh_scratch, reset (new pendulum), RetVoid)
  /\ params (reset (new pendulum)) = params (new pendulum).
Proof.
  split; [reflexivity|].
  exact (params_changed_by_init_and_setParams_only pendulum CallReset
           fresh_scratch fresh_scratch (new pendulum) (reset (new pendulum)) RetVoid
           eq_refl).
Defined.

(** C9, counterexample. On an initialised pendulum, [setParams] is a public
    operation, not a re-initialisation, and it changes the parameters: the
    length goes from the default 2 to 3. *)
Lemma setParams_changes_params :
  exists s0 s1,
    init (new pendulum) ∅ = Some s0
    /\ perform (CallSetParams {[ "length" := 3 ]}) fresh_scratch s0
       = Some (fresh_scratch, s1, RetVoid)
    /\ params s0 !! "length" = Some 2
    /\ params s1 !! "length" = Some 3.
Proof.
  eexists. eexists. split; [reflexivity|]. split; [reflexivity|].
  cbn [params clearHistory setParams]. split.
  - rewrite lookup_union_r by apply lookup_empty.
    unfold getDefaultParams. rewrite lookup_fmap. reflexivity.
  - apply lookup_union_Some_l. apply lookup_singleton_eq.
Qed.

End RealInstances.

(** * Beyond the claims *)

(** ** The order of binary64 values *)

Section Binary64OrderFacts.

Lemma SFcompare_rank (a b : spec_float) :
  a <> S754_nan -> b <> S754_nan ->
  exists c, SFcompare a b = Some c
    /\ (c = Lt <-> lex_lt (SFrank a) (SFrank b))
    /\ (c = Gt <-> lex_lt (SFrank b) (SFrank a))
    /\ (c = Eq <-> SFrank a = SFrank b).
Proof.
  intros Ha Hb.
  destruct a as [sa|sa| |sa ma ea], b as [sb|sb| |sb mb eb]; try congruence;
    cbn [SFcompare SFrank lex_lt]; eexists; (split; [reflexivity|]).
  all: try (destruct sa); try (destruct sb); cbn [SFrank lex_lt].
  all: try (repeat split; intros; try congruence; try lia; fail).
  all: change (PosDef.Pos.compare_cont Eq ma mb) with (Pos.compare ma mb).
  all: destruct (Z.compare_spec ea eb), (Pos.compare_spec ma mb); cbn [CompOpp].
  all: repeat split; intros; try congruence; try lia.
  all: try (match goal with H : (_, _, _) = (_, _, _) |- _ => injection H; intros; lia end).
Qed.

Lemma is_nan_rank (x : float) :
  PrimFloat.is_nan x = false <-> Prim2SF x <> S754_nan.
Proof.
  unfold PrimFloat.is_nan. rewrite FloatAxioms.eqb_spec. unfold SFeqb. split.
  - intros E N. rewrite N in E. discriminate E.
  - intros N. destruct (SFcompare_rank _ _ N N) as (c & -> & _ & _ & Heq).
    now rewrite (proj2 Heq eq_refl).
Qed.

Lemma ltb_rank (x y : float) :
  PrimFloat.is_nan x = false -> PrimFloat.is_nan y = false ->
  PrimFloat.ltb x y = true <-> lex_lt (rank x) (rank y).
Proof.
  intros Hx Hy. rewrite FloatAxioms.ltb_spec. unfold SFltb, rank.
  destruct (SFcompare_rank _ _ (proj1 (is_nan_rank x) Hx) (proj1 (is_nan_rank y) Hy))
    as (c & -> & Hlt & _).
  rewrite <- Hlt. destruct c; split; congruence.
Qed.

Lemma leb_rank (x y : float) :
  PrimFloat.is_nan x = false -> PrimFloat.is_nan y = false ->
  PrimFloat.leb x y = true <-> ~ lex_lt (rank y) (rank x).
Proof.
  intros Hx Hy. rewrite FloatAxioms.leb_spec. unfold SFleb, rank.
  destruct (SFcompare_rank _ _ (proj1 (is_nan_rank x) Hx) (proj1 (is_nan_rank y) Hy))
    as (c & -> & _ & Hgt & _).
  rewrite <- Hgt. destruct c; split; congruence.
Qed.

Lemma eqb_rank (x y : float) :
  PrimFloat.is_nan x = false -> PrimFloat.is_nan y = false ->
  PrimFloat.eqb x y = true <-> rank x = rank y.
Proof.
  intros Hx Hy. rewrite FloatAxioms.eqb_spec. unfold SFeqb, rank.
  destruct (SFcompare_rank _ _ (proj1 (is_nan_rank x) Hx) (proj1 (is_nan_rank y) Hy))
    as (c & -> & _ & _ & Heq).
  rewrite <- Heq. destruct c; split; congruence.
Qed.

Lemma ltb_false_rank (x y : float) :
  PrimFloat.is_nan x = false -> PrimFloat.is_nan y = false ->
  PrimFloat.ltb x y = false <-> ~ lex_lt (rank x) (rank y).
Proof.
  intros Hx Hy. rewrite <- (ltb_rank x y Hx Hy).
  destruct (PrimFloat.ltb x y); split; congruence.
Qed.

(** A comparison that holds has no NaN on either side. *)
Lemma leb_float (a b : float) :
  PrimFloat.leb a b = true ->
  PrimFloat.is_nan a = false /\ PrimFloat.is_nan b = false
  /\ ~ lex_lt (rank b) (rank a).
Proof.
  intros E.
  assert (Na : PrimFloat.is_nan a = false).
  { apply is_nan_rank. intros Pa. rewrite FloatAxioms.leb_spec, Pa in E. discriminate E. }
  assert (Nb : PrimFloat.is_nan b = false).
  { apply is_nan_rank. intros Pb. rewrite FloatAxioms.leb_spec, Pb in E.
    destruct (Prim2SF a); discriminate E. }
  split; [exact Na|]. split; [exact Nb|]. now apply (leb_rank a b Na Nb).
Qed.

Lemma fgeb_float (a b : float) :
  fgeb a b = true <->
  PrimFloat.is_nan a = false /\ PrimFloat.is_nan b = false
  /\ ~ lex_lt (rank a) (rank b).
Proof.
  unfold fgeb. cbn [fltb feqb float_Number].
  destruct (PrimFloat.is_nan a) eqn:Na, (PrimFloat.is_nan b) eqn:Nb;
    unfold PrimFloat.is_nan in Na, Nb;
    try (apply negb_true_iff in Na; rewrite Na);
    try (apply negb_true_iff in Nb; rewrite Nb);
    try (apply negb_false_iff in Na; rewrite Na);
    try (apply negb_false_iff in Nb; rewrite Nb);
    rewrite ?andb_true_r, ?andb_false_r;
    try (split; [discriminate | intros (? & ? & _); discriminate]).
  assert (Na' : PrimFloat.is_nan a = false) by (unfold PrimFloat.is_nan; now rewrite Na).
  assert (Nb' : PrimFloat.is_nan b = false) by (unfold PrimFloat.is_nan; now rewrite Nb).
  rewrite negb_true_iff, (ltb_false_rank a b Na' Nb'). tauto.
Qed.
End Binary64OrderFacts.

(** Goals about ranks, by linear arithmetic on their components. *)
Ltac by_rank :=
  repeat match goal with
  | H : context [rank ?x] |- _ =>
      let a := fresh "a" in let b := fresh "b" in let c := fresh "c" in
      destruct (rank x) as [[a b] c]
  | |- context [rank ?x] =>
      let a := fresh "a" in let b := fresh "b" in let c := fresh "c" in
      destruct (rank x) as [[a b] c]
  end;
  unfold lex_lt in *;
  try (apply pair_equal_spec; split; [apply pair_equal_spec; split|]);
  repeat match goal with H : (_, _) = (_, _) |- _ => injection H; clear H; intros end;
  try lia.

(** ** utils/physics: clamp on binary64 *)

Section ClampBinary64.

Lemma float_min_cases (a b : float) :
  PrimFloat.is_nan a = false -> PrimFloat.is_nan b = false ->
  (float_min a b = a \/ float_min a b = b)
  /\ ~ lex_lt (rank a) (rank (float_min a b))
  /\ ~ lex_lt (rank b) (rank (float_min a b)).
Proof.
  intros Ha Hb. unfold float_min. rewrite Ha, Hb. cbn [orb].
  destruct (PrimFloat.ltb a b) eqn:E1.
  - apply (ltb_rank a b Ha Hb) in E1. split; [now left|]. by_rank.
  - apply (ltb_false_rank a b Ha Hb) in E1.
    destruct (PrimFloat.ltb b a) eqn:E2.
    + apply (ltb_rank b a Hb Ha) in E2. split; [now right|]. by_rank.
    + apply (ltb_false_rank b a Hb Ha) in E2.
      destruct (PrimFloat.get_sign a); (split; [auto|]); by_rank.
Qed.

Lemma float_max_cases (a b : float) :
  PrimFloat.is_nan a = false -> PrimFloat.is_nan b = false ->
  (float_max a b = a \/ float_max a b = b)
  /\ ~ lex_lt (rank (float_max a b)) (rank a)
  /\ ~ lex_lt (rank (float_max a b)) (rank b).
Proof.
  intros Ha Hb. unfold float_max. rewrite Ha, Hb. cbn [orb].
  destruct (PrimFloat.ltb a b) eqn:E1.
  - apply (ltb_rank a b Ha Hb) in E1. split; [now right|]. by_rank.
  - apply (ltb_false_rank a b Ha Hb) in E1.
    destruct (PrimFloat.ltb b a) eqn:E2.
    + apply (ltb_rank b a Hb Ha) in E2. split; [now left|]. by_rank.
    + apply (ltb_false_rank b a Hb Ha) in E2.
      destruct (PrimFloat.get_sign a); (split; [auto|]); by_rank.
Qed.

Lemma float_max_lt (a b : float) :
  PrimFloat.is_nan a = false -> PrimFloat.is_nan b = false ->
  lex_lt (rank b) (rank a) -> float_max a b = a.
Proof.
  intros Ha Hb Hlt. unfold float_max. rewrite Ha, Hb. cbn [orb].
  destruct (PrimFloat.ltb a b) eqn:E1.
  - apply (ltb_rank a b Ha Hb) in E1. exfalso. by_rank.
  - now rewrite (proj2 (ltb_rank b a Hb Ha) Hlt).
Qed.

(** X1. [clamp(value, min, max)] on binary64, for bounds that are not NaN.
    A NaN value comes back as NaN. Any other value comes back as a number:
    with [min <= max] it lies in [[min, max]] and is the value itself (up to
    the sign of a zero) when the value already lies there; with
    [max < min] the result is [min], whatever the value. *)
Theorem clamp_binary64 (v lo hi : float) :
  PrimFloat.is_nan lo = false -> PrimFloat.is_nan hi = false ->
  if PrimFloat.is_nan v then PrimFloat.is_nan (clamp v lo hi) = true
  else
    PrimFloat.is_nan (clamp v lo hi) = false
    /\ (PrimFloat.leb lo hi = true ->
        PrimFloat.leb lo (clamp v lo hi) = true
        /\ PrimFloat.leb (clamp v lo hi) hi = true
        /\ (PrimFloat.leb lo v = true -> PrimFloat.leb v hi = true ->
            PrimFloat.eqb (clamp v lo hi) v = true))
    /\ (PrimFloat.ltb hi lo = true -> clamp v lo hi = lo).
Proof.
  intros Hlo Hhi. unfold clamp. cbn [fmax2 fmin2 float_Extrema].
  destruct (PrimFloat.is_nan v) eqn:Hv.
  - unfold float_min. rewrite Hv, orb_true_r.
    unfold float_max. now rewrite orb_true_r.
  - destruct (float_min_cases hi v Hhi Hv) as (Hm & Hm1 & Hm2).
    assert (Nm : PrimFloat.is_nan (float_min hi v) = false)
      by (destruct Hm as [-> | ->]; assumption).
    destruct (float_max_cases lo (float_min hi v) Hlo Nm) as (Hr & Hr1 & Hr2).
    assert (Nr : PrimFloat.is_nan (float_max lo (float_min hi v)) = false)
      by (destruct Hr as [-> | ->]; assumption).
    split; [exact Nr|]. split.
    + intros Hle. apply (leb_rank lo hi Hlo Hhi) in Hle.
      split; [apply (leb_rank _ _ Hlo Nr); exact Hr1|].
      split.
      * apply (leb_rank _ _ Nr Hhi).
        destruct Hr as [-> | ->]; [exact Hle | exact Hm1].
      * intros H1 H2. apply (leb_rank lo v Hlo Hv) in H1.
        apply (leb_rank v hi Hv Hhi) in H2.
        apply (eqb_rank _ _ Nr Hv).
        revert Hr1 Hr2. destruct Hr as [-> | ->]; intros Hr1 Hr2;
          revert Hr1 Hr2 Hm1 Hm2; destruct Hm as [-> | ->]; intros; by_rank.
    + intros Hlt. apply (ltb_rank hi lo Hhi Hlo) in Hlt.
      apply float_max_lt; [assumption..|]. by_rank.
Qed.

Lemma clamp_binary64_witness :
  (PrimFloat.is_nan 0%float = false /\ PrimFloat.is_nan 1%float = false)
  /\ PrimFloat.leb 0%float (clamp 5%float 0%float 1%float) = true
  /\ PrimFloat.leb (clamp 5%float 0%float 1%float) 1%float = true.
Proof.
  split; [split; reflexivity|].
  pose proof (clamp_binary64 5%float 0%float 1%float eq_refl eq_refl) as C.
  change (PrimFloat.is_nan 5) with false in C. cbv iota in C.
  destruct C as (_ & C & _). destruct (C eq_refl) as (C1 & C2 & _).
  split; assumption.
Defined.
End ClampBinary64.

(** ** utils/physics: what the integrators compute *)

Section IntegratorValues.
Context {F : Type} `{Number F}.
Import Physics.
Local Open Scope num_scope.

(** X2. [euler] is the explicit Euler update for every derivative function
    and every state, also one longer than the 20 slots of its buffer: it
    calls the function once, on the state itself, returns a fresh array
    [state[i] + d[i] * dt] of the length of the state, and leaves the
    buffer's slots past that length as they were. *)
Theorem euler_explicit_update {E : Type} (sc : Scratch) (e : E) (y : list F) (t dt : F)
    (D : DerivativeFunc E) :
  (euler sc e y t dt D).2
  = map (fun i => array_get y i + array_get (D e t y).2 i * dt) (seq 0 (length y))
  /\ (euler sc e y t dt D).1.2 = (D e t y).1
  /\ _euler_result (euler sc e y t dt D).1.1
     = (euler sc e y t dt D).2 ++ drop (length y) (_euler_result sc).
Proof.
  unfold euler. destruct (D e t y) as [e1 d]. cbn [fst snd _euler_result].
  rewrite for_range_fill, take_fill. auto.
Qed.

Lemma drop_stage (y : list F) (h : F) (k tail : list F) :
  drop (length y) (axpy y h k ++ tail) = tail.
Proof.
  rewrite drop_app_length'; [reflexivity|symmetry; apply axpy_length].
Qed.

(** The value of [rk4]: the classic update, each later stage evaluated on
    its vector followed by the slots of [_rk4_temp] past the state. *)
Lemma rk4_padded (sc : Scratch) (y : list F) (t dt : F) (f : F -> list F -> list F) :
  let pad := drop (length y) (_rk4_temp sc) in
  let k1 := f t y in
  let k2 := f (t + dt / of_Z 2) (axpy y (dt / of_Z 2) k1 ++ pad) in
  let k3 := f (t + dt / of_Z 2) (axpy y (dt / of_Z 2) k2 ++ pad) in
  let k4 := f (t + dt) (axpy y dt k3 ++ pad) in
  (rk4 sc tt y t dt (pure_derivative f)).2
  = map (fun i =>
           array_get y i
           + dt / of_Z 6 * (array_get k1 i + of_Z 2 * array_get k2 i
                            + of_Z 2 * array_get k3 i + array_get k4 i))
      (seq 0 (length y)).
Proof.
  cbv zeta. unfold rk4, pure_derivative. cbn [fst snd]. cbv zeta.
  rewrite !stage_argument, !drop_stage.
  rewrite for_range_fill, take_fill.
  apply map_seq_ext. intros i Hi.
  now rewrite !array_get_copy_into by exact Hi.
Qed.

(** X3. What [rk4] does for every derivative function [f], prefix reader or
    not. The first stage evaluates [f] on the state; each later stage
    evaluates it on the stage's vector followed by [pad], the slots of
    [_rk4_temp] past the length of the state, which the call leaves as they
    were.
    The result combines the four stages as in the classic update, and the
    six buffers keep their slots past that length. *)
Theorem rk4_stages_read_the_scratch (sc : Scratch) (y : list F) (t dt : F)
    (f : F -> list F -> list F) :
  let n := length y in
  let pad := drop n (_rk4_temp sc) in
  let k1 := f t y in
  let k2 := f (t + dt / of_Z 2) (axpy y (dt / of_Z 2) k1 ++ pad) in
  let k3 := f (t + dt / of_Z 2) (axpy y (dt / of_Z 2) k2 ++ pad) in
  let k4 := f (t + dt) (axpy y dt k3 ++ pad) in
  let run := rk4 sc tt y t dt (pure_derivative f) in
  run.2
  = map (fun i =>
           array_get y i
           + dt / of_Z 6 * (array_get k1 i + of_Z 2 * array_get k2 i
                            + of_Z 2 * array_get k3 i + array_get k4 i))
      (seq 0 n)
  /\ _rk4_temp run.1.1 = axpy y dt k3 ++ pad
  /\ _rk4_k1 run.1.1 = map (array_get k1) (seq 0 n) ++ drop n (_rk4_k1 sc)
  /\ _rk4_k2 run.1.1 = map (array_get k2) (seq 0 n) ++ drop n (_rk4_k2 sc)
  /\ _rk4_k3 run.1.1 = map (array_get k3) (seq 0 n) ++ drop n (_rk4_k3 sc)
  /\ _rk4_k4 run.1.1 = map (array_get k4) (seq 0 n) ++ drop n (_rk4_k4 sc)
  /\ _rk4_result run.1.1 = run.2 ++ drop n (_rk4_result sc)
  /\ _euler_result run.1.1 = _euler_result sc.
Proof.
  cbv zeta. split; [apply rk4_padded|].
  unfold rk4, pure_derivative.
  cbn [fst snd _rk4_temp _rk4_k1 _rk4_k2 _rk4_k3 _rk4_k4 _rk4_result _euler_result].
  cbv zeta. rewrite !stage_argument, !drop_stage, !copy_into_spec.
  rewrite for_range_fill, take_fill. auto 10.
Qed.
End IntegratorValues.

Section IntegratorsReal.
Import Physics.
Local Open Scope R_scope.

(** X4. On the linear equation [y' = lam * y], in exact arithmetic, one
    step of [rk4] multiplies the state by
    [1 + z + z^2/2 + z^3/6 + z^4/24] with [z = lam * dt], the Taylor
    polynomial of degree four of the exponential, and one step of [euler]
    by [1 + z]. *)
Theorem rk4_linear_growth (sc : Scratch) (lam y t dt : R) :
  let f := fun (_ : R) (s : list R) => [lam * array_get s 0] in
  let z := lam * dt in
  (rk4 sc tt [y] t dt (pure_derivative f)).2
  = [y * (1 + z + z ^ 2 / 2 + z ^ 3 / 6 + z ^ 4 / 24)]
  /\ (euler sc tt [y] t dt (pure_derivative f)).2 = [y * (1 + z)].
Proof.
  cbv zeta. split.
  - rewrite (rk4_padded sc [y] t dt _). cbn. f_equal. field.
  - unfold euler, pure_derivative. cbn [fst snd].
    rewrite for_range_fill, take_fill. cbn. f_equal. ring.
Qed.

(** X5. On a derivative that is a cubic polynomial of the time alone, in
    exact arithmetic, one step of [rk4] adds the exact integral of the
    polynomial over the step (Simpson's rule). *)
Theorem rk4_cubic_quadrature (sc : Scratch) (c0 c1 c2 c3 y t dt : R) :
  let f := fun (u : R) (_ : list R) => [c0 + c1 * u + c2 * u ^ 2 + c3 * u ^ 3] in
  let P := fun u : R => c0 * u + c1 * u ^ 2 / 2 + c2 * u ^ 3 / 3 + c3 * u ^ 4 / 4 in
  (rk4 sc tt [y] t dt (pure_derivative f)).2 = [y + (P (t + dt) - P t)].
Proof.
  cbv zeta. rewrite (rk4_padded sc [y] t dt _). cbn. f_equal. field.
Qed.
End IntegratorsReal.

(** ** utils/physics: Verlet and the scalar helpers, in exact arithmetic *)

Section HelpersReal.
Local Open Scope R_scope.

Lemma imap_lookup_eq {A B : Type} (f : nat -> A -> B) (l : list A) (l' : list B) :
  length l' = length l ->
  (forall i a, l !! i = Some a -> l' !! i = Some (f i a)) ->
  imap f l = l'.
Proof.
  intros Hlen Hl. apply list_eq. intros i. rewrite list_lookup_imap.
  destruct (l !! i) as [a|] eqn:E; cbn.
  - symmetry. now apply Hl.
  - symmetry. apply lookup_ge_None. apply lookup_ge_None in E. lia.
Qed.

Lemma array_get_Some (l : list R) (i : nat) (a : R) :
  l !! i = Some a -> array_get l i = a.
Proof. intros E. unfold array_get. now rewrite E. Qed.

Lemma array_get_imap_Some (f : nat -> R -> R) (l : list R) (i : nat) (a : R) :
  l !! i = Some a -> array_get (imap f l) i = f i a.
Proof. intros E. unfold array_get. now rewrite list_lookup_imap, E. Qed.

(** X6. Velocity Verlet is time-reversible, in exact arithmetic: when the
    accelerations depend on the positions alone (and come one per position,
    as the velocities do), a step from the result with the velocities
    reversed leads back to the start, with its velocities reversed. *)
Theorem verlet_time_reversible (p v : list R) (dt : R)
    (acc : list R -> list R -> list R) :
  length v = length p ->
  (forall q w, length (acc q w) = length q) ->
  (forall q w w', acc q w = acc q w') ->
  verlet (verlet p v dt acc).1 (map Ropp (verlet p v dt acc).2) dt acc
  = (p, map Ropp v).
Proof.
  intros Hv Hacc Hpos.
  unfold verlet at 1. cbn [fst snd].
  set (p1 := (verlet p v dt acc).1).
  set (v1 := (verlet p v dt acc).2).
  assert (Hp1 : p1 = imap (fun i q => q + array_get v i * dt
                                     + lit 1 2 * array_get (acc p v) i * dt * dt) p)
    by reflexivity.
  assert (Hv1 : v1 = imap (fun i w => w + lit 1 2 * (array_get (acc p v) i
                                     + array_get (acc p1 v) i) * dt) v)
    by reflexivity.
  assert (Lp1 : length p1 = length p) by (rewrite Hp1; apply length_imap).
  assert (Lv1 : length v1 = length v) by (rewrite Hv1; apply length_imap).
  clearbody p1 v1.
  match goal with |- (?a, _) = _ => assert (Back : a = p) end.
  { apply imap_lookup_eq; [lia|]. intros i q Hq.
    rewrite Hp1, list_lookup_imap in Hq.
    destruct (p !! i) as [q0|] eqn:Ep; [|discriminate]. cbn in Hq.
    injection Hq as <-. f_equal.
    assert (Hi : (i < length v)%nat) by (apply lookup_lt_Some in Ep; lia).
    destruct (lookup_lt_is_Some_2 v i Hi) as [w Ew].
    replace (acc p1 (map Ropp v1)) with (acc p1 v) by apply Hpos.
    unfold array_get at 3. rewrite list_lookup_fmap, Hv1, list_lookup_imap, Ew. cbn.
    unfold array_get at 1. rewrite Ew. cbn. unfold lit. cbn. field. }
  rewrite Back. f_equal.
  apply list_eq. intros i. rewrite list_lookup_imap, !list_lookup_fmap.
  rewrite Hv1 at 1. rewrite list_lookup_imap.
  destruct (v !! i) as [w|] eqn:Ew; cbn; [|reflexivity].
  f_equal. rewrite (Hpos p1 (map Ropp v1) v), (Hpos p (map Ropp v1) v).
  unfold lit. cbn. field.
Qed.

Lemma verlet_time_reversible_witness :
  let spring := fun (q _ : list R) => map Ropp q in
  (length [0] = length [1]
   /\ (forall q w, length (spring q w) = length q)
   /\ (forall q w w', spring q w = spring q w'))
  /\ verlet (verlet [1] [0] (1 / 2) spring).1
       (map Ropp (verlet [1] [0] (1 / 2) spring).2) (1 / 2) spring
     = ([1], map Ropp [0]).
Proof.
  intros spring.
  assert (H1 : forall q w, length (spring q w) = length q)
    by (intros; apply length_map).
  assert (H2 : forall q w w', spring q w = spring q w') by reflexivity.
  split; [repeat split; assumption|].
  exact (verlet_time_reversible [1] [0] (1 / 2) spring eq_refl H1 H2).
Defined.

(** X7. Under a uniform acceleration [g] (one entry per position, as the
    velocities), in exact arithmetic, Verlet is exact: the positions move
    to [p + v dt + g dt^2 / 2] and the velocities to [v + g dt]; so two
    steps of [dt] are one step of [2 dt]. *)
Theorem verlet_uniform_acceleration (p v g : list R) (dt : R) :
  length v = length p -> length g = length p ->
  let acc := fun _ _ : list R => g in
  verlet p v dt acc
  = (imap (fun i q => q + array_get v i * dt + array_get g i * (dt * dt) / 2) p,
     imap (fun i w => w + array_get g i * dt) v)
  /\ verlet (verlet p v dt acc).1 (verlet p v dt acc).2 dt acc
     = verlet p v (2 * dt) acc.
Proof.
  intros Hv Hg acc.
  assert (Step : forall (p v : list R) (h : R),
            verlet p v h acc
            = (imap (fun i q => q + array_get v i * h + array_get g i * (h * h) / 2) p,
               imap (fun i w => w + array_get g i * h) v)).
  { intros p0 v0 h. unfold verlet, acc. f_equal.
    - apply imap_ext. intros i q _. unfold lit. cbn. field.
    - apply imap_ext. intros i w _. unfold lit. cbn. field. }
  split; [apply Step|].
  rewrite (Step p v dt). cbn [fst snd]. rewrite !Step. f_equal.
  - apply list_eq. intros i. rewrite !list_lookup_imap.
    destruct (p !! i) as [q|] eqn:Ep; [|reflexivity]. cbn. f_equal.
    assert (Hi : (i < length v)%nat) by (apply lookup_lt_Some in Ep; lia).
    destruct (lookup_lt_is_Some_2 v i Hi) as [w Ew].
    rewrite (array_get_imap_Some _ v i w Ew), (array_get_Some v i w Ew). field.
  - apply list_eq. intros i. rewrite !list_lookup_imap.
    destruct (v !! i) as [w|] eqn:Ew; [|reflexivity]. cbn. f_equal. ring.
Qed.

Lemma verlet_uniform_acceleration_witness :
  (length [3] = length [0] /\ length [-10] = length [0])
  /\ verlet (verlet [0] [3] 1 (fun _ _ => [-10])).1
       (verlet [0] [3] 1 (fun _ _ => [-10])).2 1 (fun _ _ => [-10])
     = verlet [0] [3] (2 * 1) (fun _ _ => [-10]).
Proof.
  split; [split; reflexivity|].
  exact (proj2 (verlet_uniform_acceleration [0] [3] [-10] 1 eq_refl eq_refl)).
Defined.

(** X8. [mapRange] between two ranges that are not empty, in exact
    arithmetic: mapping there and back returns the value; the ends of the
    input range go to the ends of the output range; and the result is
    [lerp] of the output range at the fraction of the way through the input
    range. *)
Theorem mapRange_round_trip (v a b c d : R) :
  a <> b -> c <> d ->
  mapRange (mapRange v a b c d) c d a b = v
  /\ mapRange a a b c d = c
  /\ mapRange b a b c d = d
  /\ mapRange v a b c d = lerp c d ((v - a) / (b - a)).
Proof.
  intros Hab Hcd. unfold mapRange, lerp. cbn.
  repeat split; field; lra.
Qed.

Lemma mapRange_round_trip_witness :
  (0 <> 10 /\ 100 <> 200) /\ mapRange (mapRange 3 0 10 100 200) 100 200 0 10 = 3.
Proof.
  assert (H1 : 0 <> 10) by lra. assert (H2 : 100 <> 200) by lra.
  split; [split; assumption|].
  exact (proj1 (mapRange_round_trip 3 0 10 100 200 H1 H2)).
Defined.

(** X9. [lerp(a, b, t)] for [t] in [[0, 1]], in exact arithmetic, lies
    between [a] and [b]; it is [a] at 0 and [b] at 1, and swapping the ends
    mirrors the parameter. *)
Theorem lerp_between (a b t : R) :
  0 <= t <= 1 ->
  Rmin a b <= lerp a b t <= Rmax a b
  /\ lerp a b 0 = a /\ lerp a b 1 = b
  /\ lerp a b t = lerp b a (1 - t).
Proof.
  intros [H0 H1]. unfold lerp. cbn. split.
  - unfold Rmin, Rmax. destruct (Rle_dec a b) as [Hab|Hab]; split; nra.
  - repeat split; ring.
Qed.

Lemma lerp_between_witness :
  0 <= 1 / 4 <= 1 /\ Rmin 2 6 <= lerp 2 6 (1 / 4) <= Rmax 2 6.
Proof.
  assert (H : 0 <= 1 / 4 <= 1) by lra.
  split; [exact H|]. exact (proj1 (lerp_between 2 6 (1 / 4) H)).
Defined.
End HelpersReal.

(** ** The models in exact arithmetic: energy along the motion *)

Section EnergyRates.
Import Types.
Local Open Scope R_scope.

Lemma derivable_pt_lim_cos_comp (f : R -> R) (u l : R) :
  derivable_pt_lim f u l ->
  derivable_pt_lim (fun v => cos (f v)) u (- sin (f u) * l).
Proof.
  intros Hf.
  exact (derivable_pt_lim_comp f cos u l (- sin (f u)) Hf (derivable_pt_lim_cos (f u))).
Qed.

Lemma derivable_pt_lim_eq (f : R -> R) (u l l' : R) :
  l = l' -> derivable_pt_lim f u l -> derivable_pt_lim f u l'.
Proof. now intros ->. Qed.

Lemma derivable_pt_lim_ext (f g : R -> R) (u l : R) :
  (forall v, f v = g v) -> derivable_pt_lim f u l -> derivable_pt_lim g u l.
Proof.
  intros E Hf eps Heps. destruct (Hf eps Heps) as [d Hd]. exists d.
  intros h Hh Hlt. rewrite <- !E. now apply Hd.
Qed.

(** X11. Along any motion that obeys the equations of
    [SimplePendulum.computeDerivatives] at an instant, in exact arithmetic,
    the total energy of [getEnergy] changes at the rate
    [- 2 * damping * kinetic]: it is conserved without damping and drains
    with it. *)
Theorem SimplePendulum_energy_rate (p : gmap string R) (buf : list R)
    (theta omega : R -> R) (t u : R) :
  param p "length" <> 0 ->
  let d := (SimplePendulum.computeDerivatives p buf t [theta u; omega u]).2 in
  derivable_pt_lim theta u (array_get d 0) ->
  derivable_pt_lim omega u (array_get d 1) ->
  derivable_pt_lim (fun v => total (SimplePendulum.getEnergy p [theta v; omega v])) u
    (- (2 * param p "damping" * kinetic (SimplePendulum.getEnergy p [theta u; omega u]))).
Proof.
  intros HL d. subst d. unfold SimplePendulum.computeDerivatives. cbn [snd].
  rewrite !array_get_set. cbn [Nat.eqb].
  change (array_get [theta u; omega u] 0) with (theta u).
  change (array_get [theta u; omega u] 1) with (omega u).
  set (L := param p "length") in *. set (m := param p "mass").
  set (g := param p "gravity"). set (c := param p "damping").
  cbn [fadd fsub fmul fdiv fopp R_Number fsin R_MathLib].
  intros Hth Hom.
  apply (derivable_pt_lim_ext
           (fun v => (1 / 2 * m * ((L * omega v) * (L * omega v))
                      + m * g * (L * (1 - cos (theta v)))))).
  { intros v. reflexivity. }
  eapply derivable_pt_lim_eq; cycle 1.
  { apply derivable_pt_lim_plus.
    - apply derivable_pt_lim_scal.
      apply derivable_pt_lim_mult; apply derivable_pt_lim_scal; exact Hom.
    - apply derivable_pt_lim_scal. apply derivable_pt_lim_scal.
      apply derivable_pt_lim_minus; [apply derivable_pt_lim_const|].
      apply derivable_pt_lim_cos_comp. exact Hth. }
  cbn. unfold lit. cbn. fold L m. clearbody L m g c. field. exact HL.
Qed.

Lemma line_derivative (x0 s u : R) : derivable_pt_lim (fun v => x0 + s * v) u s.
Proof.
  eapply derivable_pt_lim_eq; cycle 1.
  { apply derivable_pt_lim_plus; [apply derivable_pt_lim_const|].
    apply derivable_pt_lim_scal. apply derivable_pt_lim_id. }
  ring.
Qed.

Lemma SimplePendulum_energy_rate_witness :
  let theta := fun v : R => 0 + 1 * v in
  let omega := fun v : R => 1 + - (1 / 2) * v in
  let d := (SimplePendulum.computeDerivatives swinging [0; 0] 0 [theta 0; omega 0]).2 in
  (param swinging "length" <> 0
   /\ derivable_pt_lim theta 0 (array_get d 0)
   /\ derivable_pt_lim omega 0 (array_get d 1))
  /\ derivable_pt_lim
       (fun v => total (SimplePendulum.getEnergy swinging [theta v; omega v])) 0
       (- (2 * param swinging "damping"
           * kinetic (SimplePendulum.getEnergy swinging [theta 0; omega 0]))).
Proof.
  intros theta omega d.
  assert (HL : param swinging "length" <> 0).
  { change (param swinging "length") with 1. lra. }
  assert (H0 : derivable_pt_lim theta 0 (array_get d 0)).
  { eapply derivable_pt_lim_eq; [|apply line_derivative].
    subst d theta omega. cbn. ring. }
  assert (H1 : derivable_pt_lim omega 0 (array_get d 1)).
  { eapply derivable_pt_lim_eq; [|apply line_derivative].
    subst d theta omega. cbn.
    change (param swinging "length") with 1. change (param swinging "gravity") with 10.
    change (param swinging "damping") with (1 / 2).
    replace (0 + 1 * 0) with 0 by ring. rewrite sin_0. field. }
  split; [auto|].
  exact (SimplePendulum_energy_rate swinging [0; 0] theta omega 0 0 HL H0 H1).
Defined.
Lemma DoublePendulum_alphas (p : gmap string R) (buf : list R)
    (t theta1 theta2 omega1 omega2 : R) :
  let L1 := param p "length1" in
  let L2 := param p "length2" in
  let m1 := param p "mass1" in
  let m2 := param p "mass2" in
  let g := param p "gravity" in
  let c := param p "damping" in
  let d := (DoublePendulum.computeDerivatives p buf t [theta1; theta2; omega1; omega2]).2 in
  array_get d 0 = omega1 /\ array_get d 1 = omega2
  /\ array_get d 2 = lagrangian_alpha1 L1 L2 m1 m2 g theta1 theta2 omega1 omega2 - c * omega1
  /\ array_get d 3 = lagrangian_alpha2 L1 L2 m1 m2 g theta1 theta2 omega1 omega2 - c * omega2.
Proof.
  cbv zeta. unfold DoublePendulum.computeDerivatives. cbn [snd].
  rewrite !array_get_set. cbn [Nat.eqb]. repeat split.
Qed.

(** X12. Along any motion that obeys the equations of
    [DoublePendulum.computeDerivatives] at an instant where the denominators
    do not vanish, in exact arithmetic, the total energy of [getEnergy]
    changes at the rate [- 2 * damping * kinetic]: the accelerations of the
    code conserve the energy the code reports, and the damping drains it. *)
Theorem DoublePendulum_energy_rate (p : gmap string R) (buf : list R)
    (theta1 theta2 omega1 omega2 : R -> R) (t u : R) :
  param p "length1" <> 0 -> param p "length2" <> 0 ->
  shared_denominator (param p "mass1") (param p "mass2") (theta1 u) (theta2 u) <> 0 ->
  let y := fun v => [theta1 v; theta2 v; omega1 v; omega2 v] in
  let d := (DoublePendulum.computeDerivatives p buf t (y u)).2 in
  derivable_pt_lim theta1 u (array_get d 0) ->
  derivable_pt_lim theta2 u (array_get d 1) ->
  derivable_pt_lim omega1 u (array_get d 2) ->
  derivable_pt_lim omega2 u (array_get d 3) ->
  derivable_pt_lim (fun v => total (DoublePendulum.getEnergy p (y v))) u
    (- (2 * param p "damping" * kinetic (DoublePendulum.getEnergy p (y u)))).
Proof.
  intros HL1 HL2 HD y d. subst y d. cbv beta.
  destruct (DoublePendulum_alphas p buf t (theta1 u) (theta2 u) (omega1 u) (omega2 u))
    as (E0 & E1 & E2 & E3).
  cbv zeta in E0, E1, E2, E3. rewrite E0, E1, E2, E3. clear E0 E1 E2 E3.
  pose proof (closed_forms_solve _ _ _ _ (param p "gravity") _ _ (omega1 u) (omega2 u)
                HL1 HL2 HD) as [EL1 EL2].
  set (A1 := lagrangian_alpha1 _ _ _ _ _ _ _ _ _) in *.
  set (A2 := lagrangian_alpha2 _ _ _ _ _ _ _ _ _) in *.
  clearbody A1 A2.
  set (L1 := param p "length1") in *. set (L2 := param p "length2") in *.
  set (m1 := param p "mass1") in *. set (m2 := param p "mass2") in *.
  set (g := param p "gravity") in *. set (c := param p "damping") in *.
  intros H1 H2 H3 H4.
  apply (derivable_pt_lim_ext
    (fun v =>
       (1 / 2 * m1 * ((L1 * omega1 v) * (L1 * omega1 v))
        + 1 / 2 * m2 * ((L1 * omega1 v) * (L1 * omega1 v)
                        + (L2 * omega2 v) * (L2 * omega2 v)
                        + 2 * L1 * L2 * omega1 v * omega2 v * cos (theta1 v - theta2 v)))
       + (m1 * g * (- L1 * cos (theta1 v) + L1)
          + m2 * g * (- L1 * cos (theta1 v) - L2 * cos (theta2 v) + L1 + L2)))).
  { intros v. reflexivity. }
  assert (Hc1 := derivable_pt_lim_cos_comp theta1 u _ H1).
  assert (Hc2 := derivable_pt_lim_cos_comp theta2 u _ H2).
  assert (Hcd := derivable_pt_lim_cos_comp (fun v => theta1 v - theta2 v) u _
                   (derivable_pt_lim_minus _ _ _ _ _ H1 H2)).
  assert (Hq1 : derivable_pt_lim (fun v => (L1 * omega1 v) * (L1 * omega1 v)) u
                  (2 * L1 * L1 * omega1 u * (A1 - c * omega1 u))).
  { eapply derivable_pt_lim_eq; cycle 1.
    { apply derivable_pt_lim_mult; apply derivable_pt_lim_scal; exact H3. }
    cbv beta. ring. }
  assert (Hq2 : derivable_pt_lim (fun v => (L2 * omega2 v) * (L2 * omega2 v)) u
                  (2 * L2 * L2 * omega2 u * (A2 - c * omega2 u))).
  { eapply derivable_pt_lim_eq; cycle 1.
    { apply derivable_pt_lim_mult; apply derivable_pt_lim_scal; exact H4. }
    cbv beta. ring. }
  eapply derivable_pt_lim_eq; cycle 1.
  { apply derivable_pt_lim_plus.
    - apply derivable_pt_lim_plus.
      + apply derivable_pt_lim_scal. exact Hq1.
      + apply derivable_pt_lim_scal.
        apply derivable_pt_lim_plus; [apply derivable_pt_lim_plus; [exact Hq1|exact Hq2]|].
        apply derivable_pt_lim_mult; [|exact Hcd].
        apply derivable_pt_lim_mult; [|exact H4].
        apply derivable_pt_lim_scal. exact H3.
    - apply derivable_pt_lim_plus.
      + apply derivable_pt_lim_scal.
        apply derivable_pt_lim_plus; [|apply derivable_pt_lim_const].
        apply derivable_pt_lim_scal. exact Hc1.
      + apply derivable_pt_lim_scal.
        apply derivable_pt_lim_plus; [|apply derivable_pt_lim_const].
        apply derivable_pt_lim_plus; [|apply derivable_pt_lim_const].
        apply derivable_pt_lim_minus.
        * apply derivable_pt_lim_scal. exact Hc1.
        * apply derivable_pt_lim_scal. exact Hc2. }
  cbv beta. unfold DoublePendulum.getEnergy. cbn [kinetic].
  change (array_get [theta1 u; theta2 u; omega1 u; omega2 u] 0) with (theta1 u).
  change (array_get [theta1 u; theta2 u; omega1 u; omega2 u] 1) with (theta2 u).
  change (array_get [theta1 u; theta2 u; omega1 u; omega2 u] 2) with (omega1 u).
  change (array_get [theta1 u; theta2 u; omega1 u; omega2 u] 3) with (omega2 u).
  fold L1 L2 m1 m2.
  unfold lit. cbn [fadd fsub fmul fdiv fopp R_Number fsin fcos fpow2 R_MathLib of_Z].
  clearbody L1 L2 m1 m2 g c.
  generalize dependent (sin (theta1 u - theta2 u)).
  generalize dependent (cos (theta1 u - theta2 u)).
  generalize (sin (theta1 u)) (sin (theta2 u)).
  generalize (omega1 u) (omega2 u).
  intros w1 w2 s1 s2 cd sd EL1 EL2.
  match goal with |- ?l = ?r =>
    assert (X : l - r
                = L1 * w1 * ((m1 + m2) * L1 * A1 + m2 * L2 * A2 * cd
                             + m2 * L2 * (w2 * w2) * sd + (m1 + m2) * g * s1)
                  + m2 * L2 * w2 * (L2 * A2 + L1 * A1 * cd - L1 * (w1 * w1) * sd + g * s2))
      by field
  end.
  rewrite EL1, EL2 in X. lra.
Qed.

Lemma DoublePendulum_energy_rate_witness :
  let d0 := (DoublePendulum.computeDerivatives unit_rods [0; 0; 0; 0] 0 [0; 0; 3; 4]).2 in
  let theta1 := fun v : R => 0 + 3 * v in
  let theta2 := fun v : R => 0 + 4 * v in
  let omega1 := fun v : R => 3 + array_get d0 2 * v in
  let omega2 := fun v : R => 4 + array_get d0 3 * v in
  let y := fun v => [theta1 v; theta2 v; omega1 v; omega2 v] in
  let d := (DoublePendulum.computeDerivatives unit_rods [0; 0; 0; 0] 0 (y 0)).2 in
  (param unit_rods "length1" <> 0 /\ param unit_rods "length2" <> 0
   /\ shared_denominator (param unit_rods "mass1") (param unit_rods "mass2")
        (theta1 0) (theta2 0) <> 0
   /\ derivable_pt_lim theta1 0 (array_get d 0)
   /\ derivable_pt_lim theta2 0 (array_get d 1)
   /\ derivable_pt_lim omega1 0 (array_get d 2)
   /\ derivable_pt_lim omega2 0 (array_get d 3))
  /\ derivable_pt_lim (fun v => total (DoublePendulum.getEnergy unit_rods (y v))) 0
       (- (2 * param unit_rods "damping"
           * kinetic (DoublePendulum.getEnergy unit_rods (y 0)))).
Proof.
  intros d0 theta1 theta2 omega1 omega2 y d.
  destruct unit_rods_values as (E1 & E2 & E3 & E4).
  assert (Hy : y 0 = [0; 0; 3; 4]).
  { subst y theta1 theta2 omega1 omega2. cbv beta.
    f_equal; [ring|]. f_equal; [ring|]. f_equal; [ring|]. f_equal. ring. }
  assert (Hd : d = d0) by (subst d; now rewrite Hy).
  assert (HL1 : param unit_rods "length1" <> 0) by (rewrite E1; lra).
  assert (HL2 : param unit_rods "length2" <> 0) by (rewrite E2; lra).
  assert (HD : shared_denominator (param unit_rods "mass1") (param unit_rods "mass2")
                 (theta1 0) (theta2 0) <> 0).
  { unfold shared_denominator. rewrite E3, E4. subst theta1 theta2. cbv beta.
    replace (2 * (0 + 3 * 0 - (0 + 4 * 0))) with 0 by ring. rewrite cos_0. lra. }
  assert (H1 : derivable_pt_lim theta1 0 (array_get d 0)).
  { rewrite Hd. eapply derivable_pt_lim_eq; [|apply line_derivative].
    apply (proj1 (DoublePendulum_alphas unit_rods [0; 0; 0; 0] 0 0 0 3 4)). }
  assert (H2 : derivable_pt_lim theta2 0 (array_get d 1)).
  { rewrite Hd. eapply derivable_pt_lim_eq; [|apply line_derivative].
    apply (proj1 (proj2 (DoublePendulum_alphas unit_rods [0; 0; 0; 0] 0 0 0 3 4))). }
  assert (H3 : derivable_pt_lim omega1 0 (array_get d 2)).
  { rewrite Hd. apply line_derivative. }
  assert (H4 : derivable_pt_lim omega2 0 (array_get d 3)).
  { rewrite Hd. apply line_derivative. }
  split; [repeat split; assumption|].
  exact (DoublePendulum_energy_rate unit_rods [0; 0; 0; 0] theta1 theta2 omega1 omega2
           0 0 HL1 HL2 HD H1 H2 H3 H4).
Defined.
End EnergyRates.

(** ** The models in exact arithmetic: geometry and energy of a state *)

Section Geometry.
Import Types.
Local Open Scope R_scope.

(** X13. The physics state of a simple pendulum, in exact arithmetic: one
    body in the plane [z = 0], at the distance [length] from the pivot, with
    a velocity tangent to that circle; the kinetic energy of [getEnergy] is
    [kineticEnergy] at the speed [length * omega], which is
    [mass * |velocity|^2 / 2], and the potential energy is
    [potentialEnergy] at the height of the body above its lowest point. *)
Theorem SimplePendulum_bob_geometry (p : gmap string R) (t theta omega : R) :
  let L := param p "length" in
  let m := param p "mass" in
  let g := param p "gravity" in
  let e := SimplePendulum.getEnergy p [theta; omega] in
  exists pos vel,
    SimplePendulum.stateToPhysics p t [theta; omega]
    = {| ps_time := t; positions := [pos]; velocities := [vel] |}
    /\ z pos = 0 /\ z vel = 0
    /\ x pos * x pos + y pos * y pos = L * L
    /\ x pos * x vel + y pos * y vel = 0
    /\ kinetic e = kineticEnergy m (L * omega)
    /\ kinetic e = 1 / 2 * m * (x vel * x vel + y vel * y vel)
    /\ potential e = potentialEnergy m g (y pos + L)
    /\ total e = kinetic e + potential e.
Proof.
  cbv zeta. eexists _, _. split; [reflexivity|].
  cbn. unfold lit, kineticEnergy, potentialEnergy, lit. cbn.
  pose proof (sin2_cos2 theta) as P. unfold Rsqr in P.
  generalize dependent (sin theta). generalize dependent (cos theta). intros c s P.
  assert (Hc : c * c = 1 - s * s) by lra.
  repeat split; try ring.
  - ring_simplify. replace (c ^ 2) with (c * c) by ring. rewrite Hc. ring.
  - ring_simplify. replace (c ^ 2) with (c * c) by ring. rewrite Hc. field.
Qed.

(** X14. The physics state of a double pendulum, in exact arithmetic: the
    first body is at the distance [length1] from the pivot and the second at
    the distance [length2] from the first; the kinetic energy of [getEnergy]
    is [m |v|^2 / 2] summed over the two velocities of [stateToPhysics], and
    the potential energy is [m g] times the height of each body above its
    lowest point. *)
Theorem DoublePendulum_rod_geometry (p : gmap string R)
    (t theta1 theta2 omega1 omega2 : R) :
  let L1 := param p "length1" in
  let L2 := param p "length2" in
  let m1 := param p "mass1" in
  let m2 := param p "mass2" in
  let g := param p "gravity" in
  let e := DoublePendulum.getEnergy p [theta1; theta2; omega1; omega2] in
  exists p1 p2 v1 v2,
    DoublePendulum.stateToPhysics p t [theta1; theta2; omega1; omega2]
    = {| ps_time := t; positions := [p1; p2]; velocities := [v1; v2] |}
    /\ x p1 * x p1 + y p1 * y p1 = L1 * L1
    /\ (x p2 - x p1) * (x p2 - x p1) + (y p2 - y p1) * (y p2 - y p1) = L2 * L2
    /\ kinetic e
       = 1 / 2 * m1 * (x v1 * x v1 + y v1 * y v1)
         + 1 / 2 * m2 * (x v2 * x v2 + y v2 * y v2)
    /\ potential e = m1 * g * (y p1 + L1) + m2 * g * (y p2 + L1 + L2)
    /\ total e = kinetic e + potential e.
Proof.
  cbv zeta. eexists _, _, _, _. split; [reflexivity|].
  cbn. unfold lit. cbn.
  rewrite (cos_minus theta1 theta2).
  pose proof (sin2_cos2 theta1) as P1. unfold Rsqr in P1.
  pose proof (sin2_cos2 theta2) as P2. unfold Rsqr in P2.
  generalize dependent (sin theta1). generalize dependent (cos theta1).
  generalize dependent (sin theta2). generalize dependent (cos theta2).
  intros c2 s2 P2 c1 s1 P1.
  assert (H1 : c1 * c1 = 1 - s1 * s1) by lra.
  assert (H2 : c2 * c2 = 1 - s2 * s2) by lra.
  repeat split; try ring.
  - ring_simplify. replace (c1 ^ 2) with (c1 * c1) by ring. rewrite H1. ring.
  - ring_simplify. replace (c2 ^ 2) with (c2 * c2) by ring. rewrite H2. ring.
  - field_simplify. replace (c1 ^ 2) with (c1 * c1) by ring.
    replace (c2 ^ 2) with (c2 * c2) by ring. rewrite H1, H2. field.
Qed.
(** X16. For a positive length and gravity, in exact arithmetic,
    [getTheoreticalPeriod] is positive and is the period of the linearised
    equation of the model: with [w = 2 PI / T], [w^2] is the factor
    [gravity / length] of [sin theta] in the angular acceleration that
    [computeDerivatives] returns. *)
Theorem period_of_the_linearised_pendulum (p : gmap string R) :
  0 < param p "length" -> 0 < param p "gravity" ->
  let T := getTheoreticalPeriod p in
  let w := 2 * PI / T in
  0 < T
  /\ w * w = param p "gravity" / param p "length"
  /\ forall buf t theta omega,
       array_get (SimplePendulum.computeDerivatives p buf t [theta; omega]).2 1
       = - (w * w) * sin theta - param p "damping" * omega.
Proof.
  intros HL Hg. cbv zeta. unfold getTheoreticalPeriod.
  cbn [fmul fdiv of_Z fPI R_Number fsqrt R_MathMore].
  set (L := param p "length") in *. set (g := param p "gravity") in *.
  pose proof PI_RGT_0 as Hpi.
  assert (Hq : 0 < L / g) by (apply Rdiv_lt_0_compat; assumption).
  assert (Hs : 0 < R_sqrt.sqrt (L / g)) by now apply sqrt_lt_R0.
  assert (Hss : R_sqrt.sqrt (L / g) * R_sqrt.sqrt (L / g) = L / g) by (apply sqrt_sqrt; lra).
  assert (Hw : 2 * PI / (2 * PI * R_sqrt.sqrt (L / g)) * (2 * PI / (2 * PI * R_sqrt.sqrt (L / g)))
               = g / L).
  { transitivity (1 / (R_sqrt.sqrt (L / g) * R_sqrt.sqrt (L / g))); [field; lra|].
    rewrite Hss. field. lra. }
  split; [nra|]. split; [exact Hw|].
  intros buf t theta omega. unfold SimplePendulum.computeDerivatives. cbn [snd].
  rewrite !array_get_set. cbn [Nat.eqb]. rewrite Hw.
  reflexivity.
Qed.

Lemma period_of_the_linearised_pendulum_witness :
  let p : gmap string R := {[ "length" := 1; "gravity" := 10 ]} in
  (0 < param p "length" /\ 0 < param p "gravity")
  /\ 0 < getTheoreticalPeriod p.
Proof.
  intros p.
  assert (HL : 0 < param p "length") by (change (param p "length") with 1; lra).
  assert (Hg : 0 < param p "gravity") by (change (param p "gravity") with 10; lra).
  split; [split; assumption|].
  exact (proj1 (period_of_the_linearised_pendulum p HL Hg)).
Defined.

(** X15. For a double pendulum with masses and lengths that are not
    negative, a positive total mass and a positive gravity, in exact
    arithmetic: the kinetic, potential and total energy of [getEnergy] are
    never negative, so [getLyapunovExponent] is the logarithm of a number
    from 1 up and is never negative; both vanish when the pendulum hangs at
    rest. *)
Theorem DoublePendulum_energy_nonnegative (p : gmap string R)
    (theta1 theta2 omega1 omega2 : R) :
  0 <= param p "length1" -> 0 <= param p "length2" ->
  0 <= param p "mass1" -> 0 <= param p "mass2" ->
  0 < param p "mass1" + param p "mass2" -> 0 < param p "gravity" ->
  let e := DoublePendulum.getEnergy p [theta1; theta2; omega1; omega2] in
  0 <= kinetic e /\ 0 <= potential e /\ 0 <= total e
  /\ 0 <= getLyapunovExponent p [theta1; theta2; omega1; omega2]
  /\ total (DoublePendulum.getEnergy p [0; 0; 0; 0]) = 0
  /\ getLyapunovExponent p [0; 0; 0; 0] = 0.
Proof.
  intros HL1 HL2 Hm1 Hm2 Hm Hg. cbv zeta.
  unfold getLyapunovExponent. cbn [flog R_MathMore].
  unfold DoublePendulum.getEnergy. cbn [kinetic potential total].
  change (array_get [theta1; theta2; omega1; omega2] 0) with theta1.
  change (array_get [theta1; theta2; omega1; omega2] 1) with theta2.
  change (array_get [theta1; theta2; omega1; omega2] 2) with omega1.
  change (array_get [theta1; theta2; omega1; omega2] 3) with omega2.
  change (array_get [0; 0; 0; 0] 0) with 0. change (array_get [0; 0; 0; 0] 1) with 0.
  change (array_get [0; 0; 0; 0] 2) with 0. change (array_get [0; 0; 0; 0] 3) with 0.
  unfold lit. cbn [fadd fsub fmul fdiv fopp of_Z R_Number fcos fpow2 R_MathLib].
  set (L1 := param p "length1") in *. set (L2 := param p "length2") in *.
  set (m1 := param p "mass1") in *. set (m2 := param p "mass2") in *.
  set (g := param p "gravity") in *.
  pose proof (COS_bound theta1) as [C1 C1'].
  pose proof (COS_bound theta2) as [C2 C2'].
  pose proof (COS_bound (theta1 - theta2)) as [Cd Cd'].
  generalize dependent (cos theta1). generalize dependent (cos theta2).
  generalize dependent (cos (theta1 - theta2)).
  intros cd Cd Cd' c2 C2 C2' c1 C1 C1'.
  set (a := L1 * omega1). set (b := L2 * omega2).
  assert (Hv2 : 0 <= a * a + b * b + 2 * L1 * L2 * omega1 * omega2 * cd).
  { replace (a * a + b * b + 2 * L1 * L2 * omega1 * omega2 * cd)
      with ((a + b * cd) * (a + b * cd) + b * b * (1 - cd * cd)) by (unfold a, b; ring).
    assert (Hcd : 0 <= 1 - cd * cd) by nra.
    apply Rplus_le_le_0_compat; [apply Rle_0_sqr|].
    apply Rmult_le_pos; [apply Rle_0_sqr|exact Hcd]. }
  assert (Hk : 0 <= 1 / 2 * m1 * (a * a)
                    + 1 / 2 * m2 * (a * a + b * b + 2 * L1 * L2 * omega1 * omega2 * cd)).
  { assert (Ha : 0 <= a * a) by apply Rle_0_sqr.
    apply Rplus_le_le_0_compat; apply Rmult_le_pos; try lra;
      apply Rmult_le_pos; lra. }
  assert (Hp : 0 <= m1 * g * (- L1 * c1 + L1) + m2 * g * (- L1 * c1 - L2 * c2 + L1 + L2)).
  { assert (HA : 0 <= L1 * (1 - c1)) by (apply Rmult_le_pos; lra).
    assert (HB : 0 <= L2 * (1 - c2)) by (apply Rmult_le_pos; lra).
    assert (H1g : 0 <= m1 * g) by (apply Rmult_le_pos; lra).
    assert (H2g : 0 <= m2 * g) by (apply Rmult_le_pos; lra).
    replace (m1 * g * (- L1 * c1 + L1) + m2 * g * (- L1 * c1 - L2 * c2 + L1 + L2))
      with (m1 * g * (L1 * (1 - c1)) + m2 * g * (L1 * (1 - c1) + L2 * (1 - c2))) by ring.
    apply Rplus_le_le_0_compat; apply Rmult_le_pos; lra. }
  split; [exact Hk|]. split; [exact Hp|]. split; [lra|]. split.
  - match goal with |- 0 <= ln (1 + ?e / ?m / ?gg) =>
      assert (He : 0 <= e / m / gg)
    end.
    { apply Rmult_le_pos; [apply Rmult_le_pos; [lra|]|]; left;
        now apply Rinv_0_lt_compat. }
    rewrite <- ln_1. destruct He as [He|He].
    + left. apply ln_increasing; lra.
    + rewrite <- He. rewrite Rplus_0_r. lra.
  - replace (0 - 0) with 0 by ring. rewrite cos_0.
    assert (E0 : 1 / 2 * m1 * (L1 * 0 * (L1 * 0))
                 + 1 / 2 * m2 * (L1 * 0 * (L1 * 0) + L2 * 0 * (L2 * 0)
                                 + 2 * L1 * L2 * 0 * 0 * 1)
                 + (m1 * g * (- L1 * 1 + L1) + m2 * g * (- L1 * 1 - L2 * 1 + L1 + L2))
                 = 0) by ring.
    rewrite E0. split; [reflexivity|].
    unfold Rdiv. rewrite !Rmult_0_l, Rplus_0_r. apply ln_1.
Qed.

Lemma DoublePendulum_energy_nonnegative_witness :
  (0 <= param unit_rods "length1" /\ 0 <= param unit_rods "length2"
   /\ 0 <= param unit_rods "mass1" /\ 0 <= param unit_rods "mass2"
   /\ 0 < param unit_rods "mass1" + param unit_rods "mass2"
   /\ 0 < param unit_rods "gravity")
  /\ 0 <= total (DoublePendulum.getEnergy unit_rods [1; 2; 3; 4])
  /\ 0 <= getLyapunovExponent unit_rods [1; 2; 3; 4].
Proof.
  destruct unit_rods_values as (E1 & E2 & E3 & E4).
  assert (Eg : param unit_rods "gravity" = 10) by reflexivity.
  assert (H1 : 0 <= param unit_rods "length1") by (rewrite E1; lra).
  assert (H2 : 0 <= param unit_rods "length2") by (rewrite E2; lra).
  assert (H3 : 0 <= param unit_rods "mass1") by (rewrite E3; lra).
  assert (H4 : 0 <= param unit_rods "mass2") by (rewrite E4; lra).
  assert (H5 : 0 < param unit_rods "mass1" + param unit_rods "mass2")
    by (rewrite E3, E4; lra).
  assert (H6 : 0 < param unit_rods "gravity") by (rewrite Eg; lra).
  split; [repeat split; assumption|].
  destruct (DoublePendulum_energy_nonnegative unit_rods 1 2 3 4 H1 H2 H3 H4 H5 H6)
    as (_ & _ & Ht & Hl & _).
  split; assumption.
Defined.
End Geometry.

(** ** NPendulum: the chain and its energy *)

Section NPendulumEnergy.
Context {F : Type} `{Number F} `{MathLib F}.
Import Types.
Local Open Scope num_scope.

Lemma for_range_S {S : Type} (n : nat) (body : nat -> S -> S) (s : S) :
  for_range (Datatypes.S n) body s = body n (for_range n body s).
Proof.
  unfold for_range. rewrite seq_S, fold_left_app. reflexivity.
Qed.

Lemma imap_pair_snoc {A : Type} (l : list A) (a : A) :
  imap pair (l ++ [a]) = imap pair l ++ [(length l, a)].
Proof.
  rewrite imap_app. cbn. now rewrite Nat.add_0_r.
Qed.

(** X17. [NPendulum.getEnergy] and [NPendulum.stateToPhysics] agree, on
    binary64 as on any numbers, since both run the same sums: the physics
    state has [n] positions and [n] velocities; the kinetic energy is
    [0.5 * m * (vx^2 + vy^2)] accumulated over those velocities, and the
    potential energy [m * g * (y + (i + 1) * L)] accumulated over those
    positions. *)
Theorem NPendulum_energy_of_physics (p : gmap string F) (fs : NPendulum.NFields)
    (t : F) (state : list F) :
  let L := param p "segmentLength" in
  let m := param p "segmentMass" in
  let g := param p "gravity" in
  let ps := NPendulum.stateToPhysics p fs t state in
  let e := NPendulum.getEnergy p fs state in
  length (positions ps) = NPendulum.n fs
  /\ length (velocities ps) = NPendulum.n fs
  /\ kinetic e
     = fold_left (fun k v => k + lit 1 2 * m * (x v * x v + y v * y v))
         (velocities ps) (of_Z 0)
  /\ potential e
     = fold_left (fun u ip => u + m * g * (y ip.2 + of_nat (ip.1 + 1) * L))
         (imap pair (positions ps)) (of_Z 0)
  /\ total e = kinetic e + potential e.
Proof.
  cbv zeta. unfold NPendulum.stateToPhysics, NPendulum.getEnergy.
  set (thetas := slice_to state _). set (omegas := slice_from state _).
  set (L := param p "segmentLength"). set (m := param p "segmentMass").
  set (g := param p "gravity").
  generalize (NPendulum.n fs) as n. intros n.
  match goal with |- context [for_range n ?b ?i] =>
    match type of i with
    | (_ * _ * _ * _ * list _ * list _)%type => set (bodyP := b); set (initP := i)
    end end.
  match goal with |- context [for_range n ?b ?i] =>
    match type of i with
    | (F * F * F * F * F)%type => set (bodyE := b); set (initE := i)
    end end.
  assert (Inv : forall k,
    match for_range k bodyP initP, for_range k bodyE initE with
    | (x, y, vx, vy, P, V), (K, U, y', vx', vy') =>
        y' = y /\ vx' = vx /\ vy' = vy /\ length P = k /\ length V = k
        /\ K = fold_left (fun k v => k + lit 1 2 * m * (Types.x v * Types.x v + Types.y v * Types.y v))
                 V (of_Z 0)
        /\ U = fold_left (fun u ip => u + m * g * (Types.y ip.2 + of_nat (ip.1 + 1) * L))
                 (imap pair P) (of_Z 0)
    end).
  { induction k as [|k IH].
    - cbn. repeat split.
    - rewrite !for_range_S.
      destruct (for_range k bodyP initP) as [[[[[x y] vx] vy] P] V].
      destruct (for_range k bodyE initE) as [[[[K U] y'] vx'] vy'].
      destruct IH as (-> & -> & -> & HP & HV & -> & ->).
      subst bodyP bodyE. cbn beta iota.
      repeat split; try (rewrite length_app; cbn; lia).
      + now rewrite fold_left_app.
      + rewrite imap_pair_snoc, fold_left_app. cbn. now rewrite HP. }
  specialize (Inv n).
  destruct (for_range n bodyP initP) as [[[[[x y] vx] vy] P] V].
  destruct (for_range n bodyE initE) as [[[[K U] y'] vx'] vy'].
  destruct Inv as (_ & _ & _ & HP & HV & -> & ->). cbn. auto.
Qed.
End NPendulumEnergy.

Section NPendulumReal.
Import Types.
Local Open Scope R_scope.

(** X18. The rods of the chain are rigid, in exact arithmetic: on a state
    that holds the [n] angles, every position of [stateToPhysics] lies in
    the plane [z = 0] at the distance [segmentLength] from the one before
    it, the first from the pivot. *)
Theorem NPendulum_rods_rigid (p : gmap string R) (fs : NPendulum.NFields)
    (t : R) (state : list R) :
  (NPendulum.n fs <= length state)%nat ->
  let L := param p "segmentLength" in
  let P := positions (NPendulum.stateToPhysics p fs t state) in
  forall i pos, P !! i = Some pos ->
    let prev := match i with O => pivot | S j => default pivot (P !! j) end in
    (x pos - x prev) * (x pos - x prev) + (y pos - y prev) * (y pos - y prev) = L * L
    /\ z pos = 0.
Proof.
  intros _. cbv zeta. unfold NPendulum.stateToPhysics.
  set (thetas := slice_to state _). set (omegas := slice_from state _).
  set (L := param p "segmentLength").
  generalize (NPendulum.n fs) as n. intros n.
  match goal with |- context [for_range n ?b ?i] => set (body := b); set (init := i) end.
  assert (Inv : forall k,
    match for_range k body init with
    | (x0, y0, _, _, P, _) =>
        length P = k
        /\ match k with
           | O => x0 = 0 /\ y0 = 0
           | S j => P !! j = Some {| x := x0; y := y0; z := 0 |}
           end
        /\ forall i pos, P !! i = Some pos ->
             (x pos - x (match i with O => pivot | S j => default pivot (P !! j) end))
             * (x pos - x (match i with O => pivot | S j => default pivot (P !! j) end))
             + (y pos - y (match i with O => pivot | S j => default pivot (P !! j) end))
               * (y pos - y (match i with O => pivot | S j => default pivot (P !! j) end))
             = L * L /\ z pos = 0
    end).
  { induction k as [|k IH].
    - cbn. repeat split; intros; discriminate.
    - rewrite for_range_S.
      destruct (for_range k body init) as [[[[[x0 y0] vx] vy] P] V].
      destruct IH as (HP & Hlast & Hrods).
      subst body. cbn beta iota.
      split; [rewrite length_app; cbn; lia|].
      split.
      { rewrite lookup_app_r by lia. now rewrite HP, Nat.sub_diag. }
      intros i pos Hi.
      destruct (Nat.lt_ge_cases i k) as [Hlt|Hge].
      + rewrite lookup_app_l in Hi by lia.
        destruct (Hrods i pos Hi) as [Hr Hz]. split; [|exact Hz].
        destruct i as [|j]; [exact Hr|].
        rewrite lookup_app_l by lia. exact Hr.
      + assert (i = k).
        { apply lookup_lt_Some in Hi. rewrite length_app in Hi. cbn in Hi. lia. }
        subst i. rewrite lookup_app_r in Hi by lia.
        rewrite HP, Nat.sub_diag in Hi. cbn in Hi. injection Hi as <-.
        split; [|reflexivity]. cbn [x y].
        pose proof (sin2_cos2 (array_get thetas k)) as T. unfold Rsqr in T.
        destruct k as [|j].
        * destruct Hlast as [-> ->]. cbn. nra.
        * rewrite lookup_app_l by lia. rewrite Hlast. cbn. nra. }
  specialize (Inv n).
  destruct (for_range n body init) as [[[[[x0 y0] vx] vy] P] V].
  destruct Inv as (_ & _ & Hrods). cbn. exact Hrods.
Qed.

Lemma NPendulum_rods_rigid_witness :
  let fs := {| NPendulum.n := 1; NPendulum._derivBuffer := [];
               NPendulum._alphasBuffer := [] |} in
  let P := positions (NPendulum.stateToPhysics one_segment fs 0 [0; 3]) in
  (NPendulum.n fs <= length [0; 3])%nat
  /\ exists pos,
       P !! 0%nat = Some pos
       /\ (x pos - x pivot) * (x pos - x pivot) + (y pos - y pivot) * (y pos - y pivot)
          = param one_segment "segmentLength" * param one_segment "segmentLength".
Proof.
  intros fs P.
  assert (Hn : (NPendulum.n fs <= length [0; 3])%nat) by (cbn; lia).
  split; [exact Hn|]. eexists. split; [reflexivity|].
  exact (proj1 (NPendulum_rods_rigid one_segment fs 0 [0; 3] Hn 0%nat _ eq_refl)).
Defined.

Lemma take_two_slots {F : Type} `{Number F} (b : list F) (a c : F) :
  take 2 (array_set (array_set b 0 a) 1 c) = [a; c].
Proof. destruct b as [|b0 [|b1 b]]; reflexivity. Qed.

(** X19. A chain of one segment is the simple pendulum, in exact
    arithmetic: with the same length, mass, gravity and damping, [NPendulum]
    with [n = 1] returns the derivatives, the physics state, the energy and
    the phase point that [SimplePendulum] returns on the same state. *)
Theorem NPendulum_single_segment (pn ps : gmap string R) (fs : NPendulum.NFields)
    (buf : list R) (t theta omega : R) :
  NPendulum.n fs = 1%nat ->
  param pn "segmentLength" = param ps "length" ->
  param pn "segmentMass" = param ps "mass" ->
  param pn "gravity" = param ps "gravity" ->
  param pn "damping" = param ps "damping" ->
  take 2 (NPendulum.computeDerivatives pn fs t [theta; omega]).2
  = take 2 (SimplePendulum.computeDerivatives ps buf t [theta; omega]).2
  /\ NPendulum.stateToPhysics pn fs t [theta; omega]
     = SimplePendulum.stateToPhysics ps t [theta; omega]
  /\ NPendulum.getEnergy pn fs [theta; omega] = SimplePendulum.getEnergy ps [theta; omega]
  /\ NPendulum.getPhaseSpace fs t [theta; omega]
     = SimplePendulum.getPhaseSpace t [theta; omega].
Proof.
  intros Hn HL Hm Hg Hc.
  unfold NPendulum.computeDerivatives, NPendulum.stateToPhysics, NPendulum.getEnergy,
    NPendulum.getPhaseSpace, NPendulum.alpha_of.
  rewrite Hn, HL, Hm, Hg, Hc.
  unfold SimplePendulum.computeDerivatives, SimplePendulum.stateToPhysics,
    SimplePendulum.getEnergy, SimplePendulum.getPhaseSpace, polarToCartesian.
  cbn [snd]. rewrite !take_two_slots.
  change (slice_to [theta; omega] (Z.of_nat 1)) with [theta].
  change (slice_from [theta; omega] (Z.of_nat 1)) with [omega].
  repeat split.
  - cbn. rewrite !array_get_set. cbn. rewrite take_two_slots. do 2 f_equal. cbn. ring.
  - cbn. f_equal; f_equal; f_equal; ring.
  - cbn. unfold lit, of_nat. cbn.
    pose proof (sin2_cos2 theta) as T. unfold Rsqr in T.
    generalize dependent (sin theta). generalize dependent (cos theta). intros c s T.
    assert (Hk : 0 + 1 / 2 * param ps "mass"
                     * ((0 + param ps "length" * omega * c)
                        * (0 + param ps "length" * omega * c)
                        + (0 + param ps "length" * omega * s)
                          * (0 + param ps "length" * omega * s))
                 = 1 / 2 * param ps "mass"
                   * (param ps "length" * omega * (param ps "length" * omega))).
    { transitivity (1 / 2 * param ps "mass"
                    * (param ps "length" * omega * (param ps "length" * omega))
                    * (s * s + c * c)); [field | rewrite T; field]. }
    rewrite Hk. f_equal; field.
Qed.

Lemma NPendulum_single_segment_witness :
  let fs := {| NPendulum.n := 1; NPendulum._derivBuffer := [];
               NPendulum._alphasBuffer := [] |} in
  (NPendulum.n fs = 1%nat
   /\ param one_segment "segmentLength" = param swinging "length"
   /\ param one_segment "segmentMass" = param swinging "mass"
   /\ param one_segment "gravity" = param swinging "gravity"
   /\ param one_segment "damping" = param swinging "damping")
  /\ NPendulum.getEnergy one_segment fs [1; 2] = SimplePendulum.getEnergy swinging [1; 2].
Proof.
  intros fs. split; [repeat split; reflexivity|].
  destruct (NPendulum_single_segment one_segment swinging fs [] 0 1 2
              eq_refl eq_refl eq_refl eq_refl eq_refl) as (_ & _ & He & _).
  exact He.
Defined.
End NPendulumReal.

(** ** BaseSimulation: runs, the clock and what is exported *)

Section RunFacts.
Context {F : Type} `{Number F}.
Import Types Physics BaseSimulation.
Local Open Scope num_scope.
Variable M : Model F.

Lemma integrate_length (sc : Scratch) (s : Sim M) (h : F) :
  length (integrate sc s h).2 = length (state s).
Proof.
  unfold integrate. destruct (integrationMethod (physics (config M)));
    first [apply euler_result_length | apply rk4_result_length].
Qed.

Lemma step_frame (sc : Scratch) (s : Sim M) (dt : F) :
  let s' := (step sc s dt).1.2 in
  length (state s') = length (state s)
  /\ initialState s' = initialState s
  /\ recordingEnabled s' = recordingEnabled s
  /\ maxHistoryLength s' = maxHistoryLength s
  /\ params s' = params s.
Proof.
  cbv zeta. pose proof (step_unfold M sc s dt) as E. cbv zeta in E. rewrite E.
  cbn [fst snd].
  match goal with |- context [recordHistory ?ps ?s1] =>
    destruct (recordHistory_frame M ps s1) as (_ & Hs & Hi & Hp & Hm & Hr & _)
  end.
  rewrite Hs, Hi, Hp, Hm, Hr. cbn. rewrite integrate_length. auto.
Qed.

Lemma perform_dimension (c : Call F) (sc sc' : Scratch) (s s' : Sim M) (r : Returned F) :
  length (state s) = length (initialState s) ->
  perform c sc s = Some (sc', s', r) ->
  length (state s') = length (initialState s').
Proof.
  intros Hd Hc. destruct c; cbn in Hc.
  - unfold init in Hc.
    destruct (createInitialState M _ _) as [[fs st]|]; [|discriminate].
    now injection Hc as <- <- <-.
  - destruct (step_frame sc s dt) as (Hl & Hi & _). cbv zeta in Hl, Hi.
    destruct (step sc s dt) as [[sc1 s1] ps]. injection Hc as <- <- <-.
    cbn in Hl, Hi. now rewrite Hl, Hi.
  - now injection Hc as <- <- <-.
  - now injection Hc as <- <- <-.
  - now injection Hc as <- <- <-.
  - now injection Hc as <- <- <-.
  - injection Hc as <- <- <-. unfold enableRecording. now destruct enabled.
  - now injection Hc as <- <- <-.
  - now injection Hc as <- <- <-.
  - now injection Hc as <- <- <-.
Qed.

(** X20. The state vector keeps the dimension it was initialised with: on
    every instance reached from a new one by calls of its public operations
    the state is as long as the reset snapshot, and a [step] returns a state
    of the same length. *)
Theorem state_keeps_its_dimension (cs : list (Call F)) (sc0 sc : Scratch) (s : Sim M) :
  perform_all cs sc0 (new M) = Some (sc, s) ->
  length (state s) = length (initialState s)
  /\ forall dt, length (state (step sc s dt).1.2) = length (state s).
Proof.
  intros Hrun. split; [|intros dt; apply step_frame].
  assert (G : forall cs sc0 sc (s0 s : Sim M),
             length (state s0) = length (initialState s0) ->
             perform_all cs sc0 s0 = Some (sc, s) ->
             length (state s) = length (initialState s)).
  { clear. induction cs as [|c cs IH]; intros sc0 sc s0 s Hd Hrun; cbn in Hrun.
    - now injection Hrun as <- <-.
    - destruct (perform c sc0 s0) as [[[sc1 s1] r]|] eqn:Hc; [|discriminate].
      eapply IH; [|exact Hrun]. eapply perform_dimension; eassumption. }
  exact (G cs sc0 sc (new M) s eq_refl Hrun).
Qed.

(** Recording below the maximum appends and drops nothing. *)
Lemma retained_below {A : Type} (h : list A) :
  (Z.of_nat (length h) < 10000)%Z -> retained h = h.
Proof.
  intros Hlt. unfold retained.
  destruct (10000 <=? Z.of_nat (length h))%Z eqn:E; [|reflexivity].
  apply Z.leb_le in E. lia.
Qed.

Lemma steps_record (dts : list F) :
  forall (sc : Scratch) (s : Sim M),
    recordingEnabled s = true -> history_bounded s ->
    (Z.of_nat (length (timeHistory s) + length dts) <= 10000)%Z ->
    let run := steps sc s dts in
    timeHistory run.1.2 = timeHistory s ++ map ps_time run.2
    /\ positionHistory run.1.2 = positionHistory s ++ map positions run.2
    /\ velocityHistory run.1.2 = velocityHistory s ++ map velocities run.2
    /\ length (energyHistory run.1.2) = (length (energyHistory s) + length dts)%nat
    /\ length run.2 = length dts.
Proof.
  induction dts as [|dt dts IH]; intros sc s Hon Hb Hlen; cbv zeta.
  - cbn. rewrite !app_nil_r. auto.
  - cbn [steps].
    pose proof (step_unfold M sc s dt) as E. cbv zeta in E.
    destruct (step_frame sc s dt) as (_ & _ & Hon' & _). cbv zeta in Hon'.
    pose proof (step_bounded M sc s dt Hb) as Hb'.
    destruct (step sc s dt) as [[sc1 s1] ps] eqn:Es. cbn [fst snd] in *.
    injection E as _ E1 E2.
    assert (Hrec : timeHistory s1 = timeHistory s ++ [ps_time ps]
                   /\ positionHistory s1 = positionHistory s ++ [positions ps]
                   /\ velocityHistory s1 = velocityHistory s ++ [velocities ps]
                   /\ length (energyHistory s1) = S (length (energyHistory s))).
    { rewrite E1, E2.
      match goal with |- context [recordHistory ?p ?s0] =>
        assert (Hb0 : history_bounded s0) by exact Hb;
        destruct (recordHistory_recording M p s0 Hon Hb0) as (Ht & Hp & Hv & He)
      end.
      cbv zeta in Ht, Hp, Hv, He. rewrite Ht, Hp, Hv, He. cbn.
      destruct Hb as (_ & Lp & Lv & Le & _). cbn in Hlen.
      rewrite !retained_below by lia. rewrite length_app. cbn.
      repeat split. lia. }
    destruct Hrec as (Rt & Rp & Rv & Re).
    assert (Hlen' : (Z.of_nat (length (timeHistory s1) + length dts) <= 10000)%Z).
    { rewrite Rt, length_app. cbn in *. lia. }
    specialize (IH sc1 s1 (eq_trans Hon' Hon) Hb' Hlen'). cbv zeta in IH.
    destruct (steps sc1 s1 dts) as [[sc2 s2] out]. cbn [fst snd] in *.
    destruct IH as (It & Ip & Iv & Ie & Io).
    rewrite It, Ip, Iv, Ie, Rt, Rp, Rv, Re, <- !app_assoc. cbn.
    repeat split; lia.
Qed.

(** X21. What a recorded run exports: after [enableRecording(true)] and at
    most 10000 calls of [step], [export()] holds one sample per call, in
    order: the times, positions and velocities of the physics states the
    calls returned, and as many energies. *)
Theorem recorded_run_is_exported (cs : list (Call F)) (sc0 sc : Scratch) (s : Sim M)
    (dts : list F) :
  perform_all cs sc0 (new M) = Some (sc, s) ->
  (Z.of_nat (length dts) <= 10000)%Z ->
  let run := steps sc (enableRecording s true) dts in
  let series := timeSeries (export run.1.2) in
  ts_time series = map ps_time run.2
  /\ ts_positions series = map positions run.2
  /\ ts_velocities series = map velocities run.2
  /\ length (ts_energy series) = length dts
  /\ length run.2 = length dts.
Proof.
  intros Hrun Hlen. cbv zeta.
  assert (Hb : history_bounded s)
    by (eapply perform_all_bounded; [apply new_bounded | exact Hrun]).
  assert (Hb1 : history_bounded (enableRecording s true))
    by (apply clearHistory_bounded; apply Hb).
  destruct (steps_record dts sc (enableRecording s true) eq_refl Hb1) as (Ht & Hp & Hv & He & Ho).
  { cbn. lia. }
  cbv zeta in Ht, Hp, Hv, He, Ho. cbn [export timeSeries ts_time ts_positions ts_velocities ts_energy].
  rewrite Ht, Hp, Hv, He. cbn. auto.
Qed.

(** X22. The clock of a run under a fixed timestep [h] that JavaScript
    takes for true, for a model that stamps its physics states with the
    time: whatever the [dt] of each call, [k] calls of [step] move the time
    through [t + h], [(t + h) + h], ..., each sum rounded as the numbers
    round it, and the physics states returned carry these times. *)
Theorem step_clock (dts : list F) :
  let h := fixedTimestep (physics (config M)) in
  ftruthy h = true ->
  stamps_time M ->
  forall (sc : Scratch) (s : Sim M),
    let run := steps sc s dts in
    time run.1.2 = Nat.iter (length dts) (fun t => t + h) (time s)
    /\ map ps_time run.2
       = map (fun i => Nat.iter (S i) (fun t => t + h) (time s)) (seq 0 (length dts)).
Proof.
  cbv zeta. intros Hh Hps.
  induction dts as [|dt dts IH]; intros sc s; [cbn; auto|].
  cbn [steps].
  pose proof (step_unfold M sc s dt) as E. cbv zeta in E. rewrite Hh in E.
  destruct (step sc s dt) as [[sc1 s1] ps]. injection E as _ E1 E2.
  assert (T1 : time s1 = time s + fixedTimestep (physics (config M))).
  { rewrite E1.
    match goal with |- context [recordHistory ?p ?s0] =>
      destruct (recordHistory_frame M p s0) as (Ht & _)
    end. now rewrite Ht. }
  assert (T2 : ps_time ps = time s + fixedTimestep (physics (config M)))
    by (rewrite E2; apply Hps).
  specialize (IH sc1 s1).
  destruct (steps sc1 s1 dts) as [[sc2 s2] out]. cbn [fst snd] in *.
  destruct IH as (I1 & I2). split.
  - rewrite I1, T1. cbn [length]. symmetry.
    exact (Nat.iter_succ_r (length dts) (fun t => t + fixedTimestep (physics (config M)))
             (time s)).
  - cbn [map length]. rewrite <- cons_seq. cbn [map]. rewrite <- seq_shift.
    rewrite (map_map S). cbn [Nat.iter]. f_equal; [exact T2|].
    rewrite I2, T1. apply map_ext. intros i. symmetry.
    exact (Nat.iter_succ_r (S i) (fun t => t + fixedTimestep (physics (config M))) (time s)).
Qed.
End RunFacts.

Section PhaseFacts.
Context {F : Type} `{Number F}.
Import Types Physics BaseSimulation.
Local Open Scope num_scope.

Lemma push_phases_snoc (ph : list (list (PhasePoint F))) (phase : list (PhasePoint F))
    (p : PhasePoint F) :
  push_phases ph (phase ++ [p]) = push_phase (push_phases ph phase) (length phase) p.
Proof.
  unfold push_phases. rewrite imap_app, fold_left_app. cbn.
  now rewrite Nat.add_0_r.
Qed.

(** Series [i] gets point [i]; a series that is not there yet starts with it;
    the series past the points are left alone. *)
Lemma push_phases_spec (phase : list (PhasePoint F)) :
  forall ph : list (list (PhasePoint F)),
    push_phases ph phase
    = imap (fun i p => default [] (ph !! i) ++ [p]) phase ++ drop (length phase) ph.
Proof.
  induction phase as [|p phase IH] using rev_ind; intros ph.
  - cbn. now rewrite drop_0.
  - rewrite push_phases_snoc, IH. unfold push_phase.
    rewrite imap_app. cbn [imap]. rewrite Nat.add_0_r.
    rewrite lookup_app_r by (rewrite length_imap; lia).
    rewrite length_imap, Nat.sub_diag, lookup_drop, Nat.add_0_r.
    replace (length (phase ++ [p])) with (S (length phase))
      by (rewrite length_app; cbn; lia).
    destruct (ph !! length phase) as [h|] eqn:E.
    + rewrite insert_app_r_alt by (rewrite length_imap; lia).
      rewrite length_imap, Nat.sub_diag.
      rewrite <- app_assoc. f_equal. cbn.
      rewrite (drop_S ph h (length phase) E). cbn. reflexivity.
    + apply lookup_ge_None in E.
      rewrite !drop_ge by lia. rewrite !app_nil_r.
      rewrite length_imap, Nat.sub_diag. reflexivity.
Qed.
End PhaseFacts.

Section AlignedFacts.
Context {F : Type} `{Number F}.
Import Types Physics BaseSimulation.
Variable M : Model F.
Variable m : nat.
Hypothesis Hcount : phase_count M m.

Lemma retained_same_length {A B : Type} (h : list A) (k : list B) :
  length h = length k -> length (retained h) = length (retained k).
Proof.
  intros E. unfold retained. rewrite E.
  destruct (10000 <=? Z.of_nat (length k))%Z; [|exact E].
  rewrite !length_drop. lia.
Qed.

Lemma recordHistory_aligned (ps : PhysicsState F) (s : Sim M) :
  history_bounded s -> phase_aligned M m s -> phase_aligned M m (recordHistory ps s).
Proof.
  intros Hb Ha. destruct (recordingEnabled s) eqn:Hon.
  2:{ unfold recordHistory. now rewrite Hon. }
  destruct (recordHistory_recording M ps s Hon Hb) as (Ht & _).
  cbv zeta in Ht.
  assert (Hph : phaseHistory (recordHistory ps s)
                = match getPhaseSpace M with
                  | Some phase =>
                      push_phases (map retained (phaseHistory s))
                        (phase (fields s) (time s) (state s))
                  | None => map retained (phaseHistory s)
                  end).
  { unfold recordHistory. rewrite Hon. destruct Hb as (Hmax & _). rewrite Hmax.
    cbn -[Z.leb Z.add Z.opp slice_from].
    assert (Hfh : (if (10000 <=? Z.of_nat (length (timeHistory s)))%Z
                   then map (fun h => slice_from h (Z.opp 10000 + 1000)) (phaseHistory s)
                   else phaseHistory s)
                  = map retained (phaseHistory s)).
    { destruct Ha as [[-> _]|[_ Hall]]; [now destruct (_ <=? _)%Z|].
      destruct (10000 <=? Z.of_nat (length (timeHistory s)))%Z eqn:E.
      - apply map_ext_Forall. eapply Forall_impl; [exact Hall|].
        intros h Hh. cbv beta in *.
        pose proof (trim_is_retained h _ Hh) as T. now rewrite E in T.
      - rewrite <- (map_id (phaseHistory s)) at 1.
        apply map_ext_Forall. eapply Forall_impl; [exact Hall|].
        intros h Hh. cbv beta in *.
        pose proof (trim_is_retained h _ Hh) as T. now rewrite E in T. }
    rewrite Hfh. reflexivity. }
  right. rewrite Hph, Ht. unfold phase_count in Hcount.
  assert (Hret : Forall (fun h => length h = length (retained (timeHistory s)))
                   (map retained (phaseHistory s))).
  { destruct Ha as [[-> _]|[_ Hall]]; [constructor|].
    apply Forall_map. eapply Forall_impl; [exact Hall|].
    intros h Hh. cbv beta. now apply retained_same_length. }
  destruct (getPhaseSpace M) as [phase|].
  - rewrite push_phases_spec.
    set (pts := phase (fields s) (time s) (state s)).
    assert (Hpts : length pts = m) by apply Hcount.
    assert (Hdrop : drop (length pts) (map retained (phaseHistory s)) = []).
    { destruct Ha as [[-> _]|[Hlen _]]; [now destruct (length pts)|].
      apply drop_ge. rewrite length_map. lia. }
    rewrite Hdrop, app_nil_r. split; [now rewrite length_imap|].
    apply Forall_lookup_2. intros i h Hi.
    rewrite list_lookup_imap in Hi.
    destruct (pts !! i) as [pt|] eqn:Ept; [|discriminate]. cbn in Hi. injection Hi as <-.
    rewrite !length_app. cbn. f_equal.
    destruct (map retained (phaseHistory s) !! i) as [h|] eqn:E; cbn.
    + exact (Forall_lookup_1 _ _ _ _ Hret E).
    + destruct Ha as [[_ ->]|[Hlen _]]; [reflexivity|].
      apply lookup_ge_None in E. rewrite length_map in E.
      apply lookup_lt_Some in Ept. lia.
  - subst m. destruct Ha as [[-> _]|[Hlen _]]; [split; [reflexivity|constructor]|].
    destruct (phaseHistory s); [split; [reflexivity|constructor]|discriminate].
Qed.

Lemma clearHistory_aligned (s : Sim M) : phase_aligned M m (clearHistory s).
Proof. left. split; reflexivity. Qed.

Lemma perform_aligned (c : Call F) (sc sc' : Scratch) (s s' : Sim M) (r : Returned F) :
  history_bounded s -> phase_aligned M m s ->
  perform c sc s = Some (sc', s', r) -> phase_aligned M m s'.
Proof.
  intros Hb Ha Hc. destruct c; cbn in Hc.
  - unfold init in Hc.
    destruct (createInitialState M _ _) as [[fs st]|]; [|discriminate].
    injection Hc as <- <- <-. apply clearHistory_aligned.
  - pose proof (step_unfold M sc s dt) as E. cbv zeta in E. rewrite E in Hc.
    injection Hc as <- <- <-. apply recordHistory_aligned; [exact Hb|exact Ha].
  - now injection Hc as <- <- <-.
  - now injection Hc as <- <- <-.
  - injection Hc as <- <- <-. apply clearHistory_aligned.
  - now injection Hc as <- <- <-.
  - injection Hc as <- <- <-. unfold enableRecording.
    destruct enabled; [apply clearHistory_aligned | exact Ha].
  - now injection Hc as <- <- <-.
  - now injection Hc as <- <- <-.
  - injection Hc as <- <- <-. exact Ha.
Qed.

Lemma perform_all_aligned (cs : list (Call F)) :
  forall (sc sc' : Scratch) (s s' : Sim M),
    history_bounded s -> phase_aligned M m s ->
    perform_all cs sc s = Some (sc', s') -> phase_aligned M m s'.
Proof.
  induction cs as [|c cs IH]; intros sc sc' s s' Hb Ha Hrun; cbn in Hrun.
  - now injection Hrun as <- <-.
  - destruct (perform c sc s) as [[[sc1 s1] r]|] eqn:Hc; [|discriminate].
    eapply IH; [| |exact Hrun].
    + eapply perform_bounded; eassumption.
    + eapply perform_aligned; eassumption.
Qed.

(** X23. For a model that reports [m] phase points on every state, the
    phase series stay aligned with the time series: on every instance
    reached from a new one by calls of its public operations there are no
    phase series and no samples, or [m] series each as long as the time
    series; so every series [export()] returns has one point per exported
    time. *)
Theorem phase_series_aligned (cs : list (Call F)) (sc0 sc : Scratch) (s : Sim M) :
  perform_all cs sc0 (new M) = Some (sc, s) ->
  phase_aligned M m s
  /\ match phaseSpace (export s) with
     | Some ph =>
         length ph = m
         /\ Forall (fun h => length h = length (ts_time (timeSeries (export s)))) ph
     | None => True
     end.
Proof.
  intros Hrun.
  assert (Ha : phase_aligned M m s).
  { eapply perform_all_aligned; [apply new_bounded| |exact Hrun].
    left. split; reflexivity. }
  split; [exact Ha|]. cbn [export phaseSpace timeSeries ts_time].
  destruct (0 <? length (phaseHistory s))%nat eqn:E; [|exact I].
  apply Nat.ltb_lt in E.
  destruct Ha as [[Hnil _]|Hall]; [rewrite Hnil in E; cbn in E; lia|exact Hall].
Qed.

Variable toFixed : F -> nat -> string.

Lemma for_range_chunks {A : Type} (g : nat -> list A) (k n : nat) (st : list A) :
  (forall i, (i < n)%nat -> length (g i) = k) ->
  length (for_range n (fun i acc => acc ++ g i) st) = (length st + n * k)%nat.
Proof.
  induction n as [|n IH]; intros Hg; [cbn; lia|].
  rewrite for_range_S, length_app, IH by (intros; apply Hg; lia).
  rewrite Hg by lia. lia.
Qed.

Lemma csv_shape (data : ExportData F) (t : nat) :
  match phaseSpace data with
  | Some ph => Forall (fun h => (t < length h)%nat) ph /\ (0 < length ph)%nat
  | None => True
  end ->
  length (csv_row toFixed data t) = length (csv_headers data).
Proof.
  intros Hph. unfold csv_row, csv_headers.
  destruct (phaseSpace data) as [ph|].
  - destruct Hph as [Hall Hpos]. apply Nat.ltb_lt in Hpos. rewrite Hpos.
    rewrite (for_range_chunks
               (fun i => [String.append "theta" (pretty i); String.append "omega" (pretty i)])
               2) by reflexivity.
    rewrite length_app.
    rewrite (for_range_chunks _ 6) by reflexivity.
    assert (G : forall (n : nat) (row : list string),
              (n <= length ph)%nat ->
              length (for_range n
                        (fun i row =>
                           match ph !! i ≫= (.!! t) with
                           | Some point =>
                               row ++ [toFixed (angle point) 6;
                                       toFixed (angularVelocity point) 6]
                           | None => row
                           end) row)
              = (length row + n * 2)%nat).
    { induction n as [|n IH]; intros row Hn; [cbn; lia|].
      rewrite for_range_S.
      destruct (lookup_lt_is_Some_2 ph n ltac:(lia)) as [h Eh].
      pose proof (Forall_lookup_1 _ _ _ _ Hall Eh) as Hh. cbv beta in Hh.
      destruct (lookup_lt_is_Some_2 h t Hh) as [pt Ept].
      rewrite Eh. cbn. rewrite Ept. rewrite length_app, IH by lia. cbn. lia. }
    rewrite G by lia. rewrite length_app.
    rewrite (for_range_chunks _ 6) by reflexivity. cbn. lia.
  - rewrite !length_app.
    rewrite !(for_range_chunks _ 6) by reflexivity. reflexivity.
Qed.

Lemma exportToCSV_lines (data : ExportData F) (filename : option string) :
  (exportToCSV toFixed data filename).1
  = array_join newline
      (array_join "," (csv_headers data)
       :: map (fun t => array_join "," (csv_row toFixed data t))
            (seq 0 (length (ts_time (timeSeries data))))).
Proof.
  unfold exportToCSV. cbn [fst]. f_equal.
  generalize (length (ts_time (timeSeries data))) as n.
  induction n as [|n IH]; [reflexivity|].
  rewrite for_range_S, IH, seq_S, map_app. reflexivity.
Qed.

End AlignedFacts.

(** ** core/stores/simulationStore: the trails *)

Section FilterFacts.
Context {F : Type} `{Number F}.
Context {T : Type}.
Variable time_of : T -> F.
Local Open Scope num_scope.

Lemma first_recent_spec (cutoff : F) (rest : list T) :
  forall i,
    match first_recent time_of cutoff rest i with
    | Some j =>
        (rest = [] /\ j = 0%nat)
        \/ exists k d, j = (i + k)%nat /\ rest !! k = Some d
                       /\ fgeb (time_of d) cutoff = true
                       /\ Forall (fun e => fgeb (time_of e) cutoff = false) (take k rest)
    | None => rest <> [] /\ Forall (fun e => fgeb (time_of e) cutoff = false) rest
    end.
Proof.
  induction rest as [|d rest IH]; intros i; cbn.
  - left. auto.
  - destruct (fgeb (time_of d) cutoff) eqn:E.
    + right. exists 0%nat, d. rewrite Nat.add_0_r. cbn. auto.
    + destruct rest as [|d' rest'].
      * split; [discriminate|]. constructor; [exact E|constructor].
      * specialize (IH (S i)).
        destruct (first_recent time_of cutoff (d' :: rest') (S i)) as [j|].
        -- right. destruct IH as [[? _]|(k & e & -> & Hk & He & Hall)]; [discriminate|].
           exists (S k), e. split; [lia|]. split; [exact Hk|]. split; [exact He|].
           cbn. constructor; [exact E|exact Hall].
        -- destruct IH as [_ Hall]. split; [discriminate|].
           constructor; [exact E|exact Hall].
Qed.

(** What [filterByTime] cuts: the points before the first recent one. *)
Lemma filterByTime_cut (data : list T) (currentTime maxAge : F) :
  let cutoff := currentTime - maxAge in
  let old := fun e => fgeb (time_of e) cutoff = false in
  exists k,
    filterByTime time_of data currentTime maxAge = drop k data
    /\ Forall old (take k data)
    /\ match drop k data with
       | [] => True
       | d :: _ => fgeb (time_of d) cutoff = true
       end.
Proof.
  cbv zeta. unfold filterByTime.
  pose proof (first_recent_spec (currentTime - maxAge) data 0) as S.
  destruct (first_recent time_of (currentTime - maxAge) data 0) as [j|].
  - destruct S as [[-> ->]|(k & d & -> & Hk & Hd & Hall)].
    + exists 0%nat. cbn. auto.
    + exists k. cbn [Nat.add]. split.
      * destruct k as [|k]; [reflexivity|]. cbn [Nat.eqb].
        unfold slice_from, slice_index.
        assert (Hlt : (S k < length data)%nat) by (apply lookup_lt_Some in Hk; lia).
        destruct (Z.of_nat (S k) <? 0)%Z eqn:E; [apply Z.ltb_lt in E; lia|].
        f_equal. lia.
      * split; [exact Hall|]. rewrite (drop_S _ _ _ Hk). exact Hd.
  - destruct S as [_ Hall]. exists (length data).
    rewrite drop_all, firstn_all. auto.
Qed.

(** X25. [filterByTime] drops the points in front of the first one that is
    recent, [time >= currentTime - maxAge], and nothing else: the result is
    the rest of the array from that point on, old points behind it
    included. An array that starts with a recent point comes back whole,
    and one without a recent point comes back empty. *)
Theorem filterByTime_drops_leading_old (data : list T) (currentTime maxAge : F) :
  let cutoff := currentTime - maxAge in
  let old := fun e => fgeb (time_of e) cutoff = false in
  (exists k,
     filterByTime time_of data currentTime maxAge = drop k data
     /\ Forall old (take k data)
     /\ match drop k data with
        | [] => True
        | d :: _ => fgeb (time_of d) cutoff = true
        end)
  /\ (match data with
      | d :: _ => fgeb (time_of d) cutoff = true
      | [] => True
      end -> filterByTime time_of data currentTime maxAge = data)
  /\ (Forall old data -> filterByTime time_of data currentTime maxAge = []).
Proof.
  cbv zeta. split; [apply filterByTime_cut|]. split.
  - intros Hd. unfold filterByTime. destruct data as [|d data]; [reflexivity|].
    cbn. now rewrite Hd.
  - intros Hall.
    destruct (filterByTime_cut data currentTime maxAge) as (k & -> & _ & Hhead).
    destruct (drop k data) as [|d rest] eqn:E; [reflexivity|].
    assert (Hk : data !! (k + 0)%nat = Some d) by (now rewrite <- lookup_drop, E).
    pose proof (Forall_lookup_1 _ _ _ _ Hall Hk) as Hold. cbv beta in Hold.
    congruence.
Qed.
End FilterFacts.

Section FilterBinary64.
Context {T : Type}.
Variable time_of : T -> float.

Lemma ordered_from_recent (cutoff : float) (l : list T) :
  time_ordered time_of l ->
  match l with [] => True | d :: _ => fgeb (time_of d) cutoff = true end ->
  Forall (fun e => fgeb (time_of e) cutoff = true) l.
Proof.
  induction l as [|d l IH]; intros Hord Hd; [constructor|].
  constructor; [exact Hd|]. apply IH.
  - intros i a b Ha Hb. exact (Hord (S i) a b Ha Hb).
  - destruct l as [|d' l]; [exact I|].
    pose proof (Hord 0%nat d d' eq_refl eq_refl) as Hle.
    apply leb_float in Hle. destruct Hle as (Nd & Nd' & Hle).
    apply fgeb_float in Hd. destruct Hd as (_ & Nc & Hd).
    apply fgeb_float. split; [exact Nd'|]. split; [exact Nc|]. by_rank.
Qed.

(** X26. On binary64, for points in the order of their times,
    [filterByTime] keeps exactly the window: every point it returns has
    [time >= currentTime - maxAge], and every point it drops has not. *)
Theorem filterByTime_keeps_window (data : list T) (currentTime maxAge : float) :
  time_ordered time_of data ->
  Forall (fun e => fgeb (time_of e) (fsub currentTime maxAge) = true)
    (filterByTime time_of data currentTime maxAge)
  /\ exists k,
       filterByTime time_of data currentTime maxAge = drop k data
       /\ Forall (fun e => fgeb (time_of e) (fsub currentTime maxAge) = false)
            (take k data).
Proof.
  intros Hord.
  destruct (filterByTime_cut time_of data currentTime maxAge)
    as (k & Hk & Hold & Hhead).
  split; [|exists k; auto].
  rewrite Hk. apply ordered_from_recent; [|exact Hhead].
  intros i a b Ha Hb. rewrite lookup_drop in Ha, Hb.
  replace (k + S i)%nat with (S (k + i)) in Hb by lia.
  exact (Hord _ a b Ha Hb).
Qed.
End FilterBinary64.

Lemma filterByTime_keeps_window_witness :
  let samples := [1; 2; 3]%float in
  time_ordered (fun t : float => t) samples
  /\ filterByTime (fun t : float => t) samples 32%float 30%float = [2; 3]%float
  /\ Forall (fun e => fgeb e (fsub 32 30)%float = true)
       (filterByTime (fun t : float => t) samples 32%float 30%float).
Proof.
  intros samples.
  assert (Hord : time_ordered (fun t : float => t) samples).
  { intros i a b Ha Hb. destruct i as [|[|[|i]]]; cbn in Ha, Hb; try discriminate;
      injection Ha as <-; injection Hb as <-; reflexivity. }
  split; [exact Hord|]. split; [reflexivity|].
  exact (proj1 (filterByTime_keeps_window (fun t : float => t) samples 32%float 30%float
                  Hord)).
Defined.

Section StoreFacts.
Context {F : Type} `{Number F} `{Extrema F}.
Import Types SimulationStore.
Context {P : Type}.
Variable time_of : P -> F.
Variable st : Store F.
Variable cleanup : bool.

Lemma add_points_spec (points : list P) :
  forall series : list (list P),
    fold_left (fun acc ip => add_point time_of st cleanup acc ip.1 ip.2)
      (imap pair points) series
    = imap (fun i p => renewed time_of st cleanup (series !! i) p) points ++ drop (length points) series.
Proof.
  induction points as [|p points IH] using rev_ind; intros series.
  - cbn. now rewrite drop_0.
  - rewrite imap_app, fold_left_app, IH. cbn [imap fold_left fst snd].
    rewrite Nat.add_0_r. unfold add_point. fold (renewed time_of st cleanup
      ((imap (fun i p0 => renewed time_of st cleanup (series !! i) p0) points
        ++ drop (length points) series) !! length points) p).
    rewrite lookup_app_r by (rewrite length_imap; lia).
    rewrite length_imap, Nat.sub_diag, lookup_drop, Nat.add_0_r.
    rewrite imap_app. cbn [imap]. rewrite Nat.add_0_r.
    replace (length (points ++ [p])) with (S (length points))
      by (rewrite length_app; cbn; lia).
    rewrite length_app, length_imap, length_drop.
    destruct (series !! length points) as [h|] eqn:E.
    + assert (Hlt : (length points < length series)%nat) by (eapply lookup_lt_Some; eauto).
      replace (length points <? length points + (length series - length points))%nat
        with true by (symmetry; apply Nat.ltb_lt; lia).
      rewrite insert_app_r_alt by (rewrite length_imap; lia).
      rewrite length_imap, Nat.sub_diag, <- app_assoc. f_equal.
      rewrite (drop_S series h (length points) E). reflexivity.
    + apply lookup_ge_None in E.
      replace (length points <? length points + (length series - length points))%nat
        with false by (symmetry; apply Nat.ltb_ge; lia).
      rewrite !drop_ge by lia. rewrite !app_nil_r.
      replace (length points - (length points + (length series - length points)))%nat
        with 0%nat by lia.
      reflexivity.
Qed.

Lemma renewed_capped (old : option (list P)) (point : P) :
  (0 < maxTrailLength st)%Z ->
  (Z.of_nat (length (renewed time_of st cleanup old point)) <= maxTrailLength st)%Z.
Proof.
  intros Hpos. unfold renewed. cbv zeta.
  match goal with |- context [if (_ <? Z.of_nat (length ?c))%Z then _ else _] =>
    generalize c as cur end.
  intros cur. destruct (maxTrailLength st <? Z.of_nat (length cur))%Z eqn:E.
  - apply Z.ltb_lt in E. unfold slice_from, slice_index.
    replace (- maxTrailLength st <? 0)%Z with true by (symmetry; apply Z.ltb_lt; lia).
    rewrite length_drop. lia.
  - apply Z.ltb_ge in E. exact E.
Qed.
End StoreFacts.

Section TrailFacts.
Context {F : Type} `{Number F} `{Extrema F}.
Import Types SimulationStore.

(** X27. The hard cap of the trails, for a positive [maxTrailLength]: on
    an odd frame [addTrailPoints] changes nothing; on an even frame every
    trail that gets a point ends with at most [maxTrailLength] points, the
    trails past the points given are left alone, and there are as many
    trails as before or as points, whichever is more. *)
Theorem addTrailPoints_hard_cap (st : Store F) (points : list (TrailPoint F)) :
  (0 < maxTrailLength st)%Z ->
  let st' := addTrailPoints st points in
  (Z.rem (frameCount st) 2 <> 0%Z -> st' = st)
  /\ (Z.rem (frameCount st) 2 = 0%Z ->
      length (trails st') = Nat.max (length (trails st)) (length points)
      /\ (forall i tr, (i < length points)%nat -> trails st' !! i = Some tr ->
                       (Z.of_nat (length tr) <= maxTrailLength st)%Z)
      /\ (forall i, (length points <= i)%nat -> trails st' !! i = trails st !! i)).
Proof.
  intros Hpos. cbv zeta. unfold addTrailPoints. split.
  - intros Hodd. apply Z.eqb_neq in Hodd. now rewrite Hodd.
  - intros Heven. apply Z.eqb_eq in Heven. rewrite Heven. cbn [negb trails set_trails].
    unfold add_points. rewrite add_points_spec.
    split; [|split].
    + rewrite length_app, length_imap, length_drop. lia.
    + intros i tr Hi Htr. rewrite lookup_app_l in Htr by (rewrite length_imap; lia).
      rewrite list_lookup_imap in Htr.
      destruct (points !! i) as [p|]; [|discriminate]. cbn in Htr. injection Htr as <-.
      now apply renewed_capped.
    + intros i Hi. rewrite lookup_app_r by (rewrite length_imap; lia).
      rewrite length_imap, lookup_drop. f_equal. lia.
Qed.

(** X28. With [maxTrailLength] set to 0 there is no cap: [slice(-0)] is the
    whole array, so on an even frame that is not a cleanup frame every trail
    keeps all its points and gets the new one. *)
Theorem zero_maxTrailLength_is_no_cap (st : Store F) (points : list (TrailPoint F)) :
  maxTrailLength st = 0%Z ->
  Z.rem (frameCount st) 2 = 0%Z ->
  Z.rem (frameCount st) CLEANUP_INTERVAL_FRAMES <> 0%Z ->
  forall i p, points !! i = Some p ->
    trails (addTrailPoints st points) !! i = Some (default [] (trails st !! i) ++ [p]).
Proof.
  intros Hzero Heven Hclean i p Hp. unfold addTrailPoints.
  apply Z.eqb_eq in Heven. rewrite Heven. cbn [negb trails set_trails].
  unfold add_points. rewrite add_points_spec.
  rewrite lookup_app_l by (rewrite length_imap; eapply lookup_lt_Some; eauto).
  rewrite list_lookup_imap, Hp. cbn. f_equal.
  unfold renewed. apply Z.eqb_neq in Hclean. rewrite Hclean. cbn [andb].
  rewrite Hzero. cbv zeta.
  destruct (0 <? Z.of_nat (length (default [] (trails st !! i) ++ [p])))%Z; [|reflexivity].
  unfold slice_from, slice_index. change (- 0 <? 0)%Z with false. cbv iota.
  replace (Z.to_nat (Z.min (- 0) _)) with 0%nat by lia. apply drop_0.
Qed.
End TrailFacts.

(** ** simulations/templates/useSimulation *)

Section HookFacts.
Context {F : Type} `{Number F} `{Extrema F} `{Rounding F}.
Import Types Physics BaseSimulation SimulationStore UseSimulation.
Local Open Scope num_scope.
Variable M : Model F.

Lemma step_time (sc : Scratch) (s : Sim M) (dt : F) :
  ftruthy (fixedTimestep (physics (config M))) = true ->
  time (step sc s dt).1.2 = time s + fixedTimestep (physics (config M))
  /\ ((step sc s dt).1.1, fields (step sc s dt).1.2, state (step sc s dt).1.2)
     = integrate sc s (fixedTimestep (physics (config M))).
Proof.
  intros Hh. pose proof (step_unfold M sc s dt) as E. cbv zeta in E.
  rewrite Hh in E. rewrite E. cbn [fst snd].
  match goal with |- context [recordHistory ?p ?s0] =>
    destruct (recordHistory_frame M p s0) as (Ht & Hs & _ & _ & _ & _ & Hf)
  end.
  rewrite Ht, Hs, Hf. cbn. split; [reflexivity|].
  now destruct (integrate sc s _) as [[? ?] ?].
Qed.

(** X29. The [reset] of the hook does not show the initial state: it
    resets the instance, clears the trails of the store and calls
    [step(0)], which under a fixed timestep that JavaScript takes for true
    integrates one step of that size; the instance it leaves is at the time
    [0 + fixedTimestep], and the physics state it publishes is that of the
    state after the step. *)
Theorem hook_reset_advances_one_step (store : Store F) (sc : Scratch) (h : Hook M)
    (sim : Sim M) :
  ftruthy (fixedTimestep (physics (config M))) = true ->
  simulationRef M h = Some sim ->
  let fixedDt := fixedTimestep (physics (config M)) in
  let after := hook_reset M store sc h in
  exists sim',
    simulationRef M after.2 = Some sim'
    /\ time sim' = of_Z 0 + fixedDt
    /\ (after.1.2, fields sim', state sim') = integrate sc (reset sim) fixedDt
    /\ hk_physicsState M after.2
       = Some (stateToPhysics M (params sim') (fields sim') (time sim') (state sim'))
    /\ trails after.1.1 = [] /\ phaseSpace after.1.1 = [].
Proof.
  intros Hh Hsim. cbv zeta. unfold hook_reset. rewrite Hsim. unfold publish.
  destruct (step_time sc (reset sim) (of_Z 0) Hh) as [Ht Hint].
  pose proof (step_unfold M sc (reset sim) (of_Z 0)) as E. cbv zeta in E.
  rewrite Hh in E.
  destruct (step sc (reset sim) (of_Z 0)) as [[sc1 sim1] ps] eqn:Es.
  cbn [fst snd] in *. exists sim1. cbn [simulationRef hk_physicsState].
  split; [reflexivity|]. split; [exact Ht|]. split; [exact Hint|].
  split; [|split; reflexivity].
  pose proof (f_equal snd E) as E2. pose proof (f_equal (fun x => snd (fst x)) E) as E1.
  cbn [fst snd] in E1, E2. rewrite E2. f_equal.
  pose proof (f_equal snd Hint) as Hs. pose proof (f_equal (fun x => snd (fst x)) Hint) as Hf.
  cbn [fst snd] in Hf, Hs. rewrite Ht, Hf, Hs.
  rewrite E1.
  match goal with |- context [recordHistory ?p ?s0] =>
    destruct (recordHistory_frame M p s0) as (_ & _ & _ & Hp & _)
  end.
  rewrite Hp. reflexivity.
Qed.
End HookFacts.

Section FrameReal.
Import Types Physics BaseSimulation SimulationStore UseSimulation.
Local Open Scope R_scope.
Variable M : Model R.

Lemma Rceil_bounds (x : R) : x <= Rceil x < x + 1.
Proof.
  unfold Rceil. destruct (base_Int_part (- x)) as [H1 H2]. lra.
Qed.

Lemma truthy_positive (x : R) : 0 < x -> ftruthy x = true.
Proof.
  intros Hx. cbn. unfold Reqb. destruct (Req_dec_T x 0) as [E|_]; [lra|reflexivity].
Qed.

Lemma run_steps_time (count : nat) (sc : Scratch) (sim : Sim M) :
  let h := fixedTimestep (physics (config M)) in
  0 < h ->
  time (run_steps M count h sc sim).1.2 = time sim + INR count * h.
Proof.
  cbv zeta. intros Hh. induction count as [|count IH].
  - cbn. ring.
  - unfold run_steps in *. rewrite for_range_S.
    destruct (for_range count _ _) as [[sc1 sim1] st1]. cbn [fst snd] in IH.
    pose proof (proj1 (step_time M sc1 sim1 (fixedTimestep (physics (config M)))
                         (truthy_positive _ Hh))) as Ht.
    destruct (step sc1 sim1 _) as [[sc2 sim2] ps]. cbn [fst snd] in *.
    rewrite Ht, IH, S_INR. cbn. ring.
Qed.

(** X30. A frame of the hook while playing, in exact arithmetic, for a
    fixed timestep of at least a millisecond and a speed in [[0, 10]]: the
    callback returns, having called [step] [count] times, at most 500; the
    time of the instance grows by [count * fixedTimestep], which covers the
    time of the frame, [min(delta, 0.05) * speed], and exceeds it by less
    than one timestep. *)
Theorem frame_covers_the_elapsed_time (opts : Options) (store : Store R) (sc : Scratch)
    (h : Hook M) (sim : Sim M) (delta speed : R) :
  simulationRef M h = Some sim ->
  let fixedDt := fixedTimestep (physics (config M)) in
  1 / 1000 <= fixedDt -> 0 <= delta -> 0 <= speed <= 10 ->
  exists after sim' (count : nat),
    frame M opts true speed store sc h delta = Some after
    /\ simulationRef M after.2 = Some sim'
    /\ time sim' = time sim + INR count * fixedDt
    /\ Rmin delta (5 / 100) * speed <= INR count * fixedDt
       < Rmin delta (5 / 100) * speed + fixedDt
    /\ (count <= 500)%nat.
Proof.
  intros Hsim fixedDt Hfix Hdelta [Hs0 Hs1].
  assert (Hpos : 0 < fixedDt) by lra.
  set (dt := Rmin delta (5 / 100) * speed).
  assert (Hdt : 0 <= dt <= 1 / 2).
  { unfold dt. assert (0 <= Rmin delta (5 / 100) <= 5 / 100).
    { unfold Rmin. destruct (Rle_dec delta (5 / 100)); lra. }
    nra. }
  set (x := dt / fixedDt).
  assert (Hx : 0 <= x <= 500).
  { unfold x. split.
    - apply Rmult_le_pos; [lra|]. left. now apply Rinv_0_lt_compat.
    - apply (Rmult_le_reg_r fixedDt); [exact Hpos|].
      unfold Rdiv. rewrite Rmult_assoc, Rinv_l by lra. nra. }
  destruct (Rceil_bounds x) as [Hc1 Hc2].
  set (z := (- Int_part (- x))%Z).
  assert (Hz : Rceil x = IZR z) by (unfold Rceil, z; now rewrite opp_IZR).
  assert (Hzr : (0 <= z <= 500)%Z).
  { split.
    - apply le_IZR. rewrite <- Hz. lra.
    - apply Z.lt_succ_r. apply lt_IZR. rewrite <- Hz.
      change (Z.succ 500) with 501%Z. lra. }
  assert (Htrip : trip_count (Rceil x) = Some (Z.to_nat z)).
  { rewrite Hz. apply trip_count_spec; [| |lia].
    - intros i Hi. cbn [fltb of_Z R_Number]. rewrite Rltb_IZR. apply Z.ltb_lt. lia.
    - cbn [fltb of_Z R_Number]. rewrite Rltb_IZR. apply Z.ltb_irrefl. }
  pose proof (run_steps_time (Z.to_nat z) sc sim Hpos) as Htime. fold fixedDt in Htime.
  assert (Hcount : INR (Z.to_nat z) = IZR z).
  { rewrite INR_IZR_INZ, Z2Nat.id by lia. reflexivity. }
  assert (Hfr : frame M opts true speed store sc h delta
                = match trip_count (Rceil x) with
                  | None => None
                  | Some count =>
                      let '(sc, sim, state) := run_steps M count fixedDt sc sim in
                      match state with
                      | Some state =>
                          let currentEnergy :=
                            getEnergy M (params sim) (fields sim) (BaseSimulation.state sim) in
                          let store := setPhysicsState (tick store delta) state in
                          let store := setEnergy store currentEnergy in
                          let store :=
                            if recordTrails opts then
                              addTrailPoints store
                                (map (fun pos => {| position := pos; tp_time := ps_time state;
                                                    tp_energy := Some (total currentEnergy) |})
                                   (positions state))
                            else store in
                          let store :=
                            match getPhaseSpace M with
                            | Some phase =>
                                if recordPhaseSpace opts then
                                  addPhasePoints store
                                    (phase (fields sim) (time sim) (BaseSimulation.state sim))
                                else store
                            | None => store
                            end in
                          Some (store, sc,
                                {| simulationRef := Some sim; hk_physicsState := Some state;
                                   hk_energy := currentEnergy |})
                      | None =>
                          Some (tick store delta, sc,
                                {| simulationRef := Some sim;
                                   hk_physicsState := hk_physicsState M h;
                                   hk_energy := hk_energy M h |})
                      end
                  end).
  { unfold frame. rewrite Hsim. reflexivity. }
  rewrite Htrip in Hfr.
  destruct (run_steps M (Z.to_nat z) fixedDt sc sim) as [[sc1 sim1] st1] eqn:Er.
  cbn [fst snd] in Htime.
  assert (Hb : Rmin delta (5 / 100) * speed <= INR (Z.to_nat z) * fixedDt
               < Rmin delta (5 / 100) * speed + fixedDt).
  { rewrite Hcount, <- Hz. fold dt.
    assert (Ex : dt = x * fixedDt) by (unfold x; field; lra).
    rewrite Ex. split; nra. }
  destruct st1 as [state|]; rewrite Hfr; eexists _, sim1, (Z.to_nat z);
    (split; [reflexivity|]); cbn [snd simulationRef];
    (split; [reflexivity|]); (split; [exact Htime|]); (split; [exact Hb|]); lia.
Qed.
End FrameReal.

(** ** Instances over the real numbers, continued *)

Section MoreRealInstances.
Import Types Physics BaseSimulation.
Local Open Scope R_scope.

Lemma pendulum_stamps_time : stamps_time pendulum.
Proof. intros p f t st. reflexivity. Qed.

Lemma pendulum_phase_count : phase_count pendulum 1.
Proof. intros f t st. reflexivity. Qed.

Lemma state_keeps_its_dimension_witness :
  exists s0,
    perform_all [CallInit ∅; CallReset] fresh_scratch (new pendulum)
    = Some (fresh_scratch, s0)
    /\ length (state s0) = length (initialState s0)
    /\ length (state (step fresh_scratch s0 1).1.2) = length (state s0).
Proof.
  eexists. split; [reflexivity|].
  destruct (state_keeps_its_dimension pendulum [CallInit ∅; CallReset]
              fresh_scratch fresh_scratch _ eq_refl) as [Hd Hs].
  split; [exact Hd | exact (Hs 1)].
Defined.

Lemma recorded_run_is_exported_witness :
  exists s0,
    (perform_all [CallInit ∅] fresh_scratch (new pendulum) = Some (fresh_scratch, s0)
     /\ (Z.of_nat (length [1; 1]) <= 10000)%Z)
    /\ let run := steps fresh_scratch (enableRecording s0 true) [1; 1] in
       ts_time (timeSeries (export run.1.2)) = map ps_time run.2
       /\ length (ts_energy (timeSeries (export run.1.2))) = 2%nat.
Proof.
  eexists. split; [split; [reflexivity|cbn; lia]|].
  assert (Hlen : (Z.of_nat (length [1; 1]) <= 10000)%Z) by (cbn; lia).
  destruct (recorded_run_is_exported pendulum [CallInit ∅] fresh_scratch fresh_scratch
              _ [1; 1] eq_refl Hlen) as (Ht & _ & _ & He & _).
  split; [exact Ht | exact He].
Defined.

Lemma step_clock_witness :
  let h := fixedTimestep (physics (config pendulum)) in
  (ftruthy h = true /\ stamps_time pendulum)
  /\ time (steps fresh_scratch (new pendulum) [1; 7]).1.2
     = Nat.iter 2 (fun t => t + h) (time (new pendulum)).
Proof.
  intros h. split; [split; [exact fixed_timestep_truthy | exact pendulum_stamps_time]|].
  exact (proj1 (step_clock pendulum [1; 7] fixed_timestep_truthy pendulum_stamps_time
                  fresh_scratch (new pendulum))).
Defined.

Lemma phase_series_aligned_witness :
  exists s0,
    (phase_count pendulum 1
     /\ perform_all [CallInit ∅; CallEnableRecording true] fresh_scratch (new pendulum)
        = Some (fresh_scratch, s0))
    /\ phase_aligned pendulum 1 s0.
Proof.
  eexists. split; [split; [exact pendulum_phase_count | reflexivity]|].
  exact (proj1 (phase_series_aligned pendulum 1 pendulum_phase_count
                  [CallInit ∅; CallEnableRecording true] fresh_scratch fresh_scratch _
                  eq_refl)).
Defined.

End MoreRealInstances.

Section StoreInstances.
Import Types Physics BaseSimulation SimulationStore UseSimulation.
Local Open Scope R_scope.

Lemma addTrailPoints_hard_cap_witness :
  let st : Store R := initial in
  let point := {| position := pivot; tp_time := 0; tp_energy := None |} in
  (0 < maxTrailLength st)%Z
  /\ forall i tr, (i < length [point])%nat ->
       trails (addTrailPoints st [point]) !! i = Some tr ->
       (Z.of_nat (length tr) <= maxTrailLength st)%Z.
Proof.
  intros st point.
  assert (Hpos : (0 < maxTrailLength st)%Z) by (cbn; lia).
  split; [exact Hpos|].
  exact (proj1 (proj2 (proj2 (addTrailPoints_hard_cap st [point] Hpos) eq_refl))).
Defined.

Lemma zero_maxTrailLength_is_no_cap_witness :
  let st : Store R := setMaxTrailLength (tick (tick (play initial) 1) 1) 0 in
  let point := {| position := pivot; tp_time := 0; tp_energy := None |} in
  (maxTrailLength st = 0%Z
   /\ Z.rem (frameCount st) 2 = 0%Z
   /\ Z.rem (frameCount st) CLEANUP_INTERVAL_FRAMES <> 0%Z
   /\ [point] !! 0%nat = Some point)
  /\ trails (addTrailPoints st [point]) !! 0%nat
     = Some (default [] (trails st !! 0%nat) ++ [point]).
Proof.
  intros st point.
  assert (H1 : maxTrailLength st = 0%Z) by reflexivity.
  assert (H2 : Z.rem (frameCount st) 2 = 0%Z) by reflexivity.
  assert (H3 : Z.rem (frameCount st) CLEANUP_INTERVAL_FRAMES <> 0%Z)
    by (change (Z.rem (frameCount st) CLEANUP_INTERVAL_FRAMES) with 2%Z; lia).
  assert (H4 : [point] !! 0%nat = Some point) by reflexivity.
  split; [repeat split; assumption|].
  exact (zero_maxTrailLength_is_no_cap st [point] H1 H2 H3 0%nat point H4).
Defined.

Lemma hook_reset_advances_one_step_witness :
  let h : Hook pendulum :=
    {| simulationRef := Some (new pendulum); hk_physicsState := None;
       hk_energy := {| kinetic := 0; potential := 0; total := 0 |} |} in
  let after := hook_reset pendulum initial fresh_scratch h in
  (ftruthy (fixedTimestep (physics (config pendulum))) = true
   /\ simulationRef pendulum h = Some (new pendulum))
  /\ exists sim',
       simulationRef pendulum after.2 = Some sim'
       /\ time sim' = 0 + fixedTimestep (physics (config pendulum)).
Proof.
  intros h after.
  split; [split; [exact fixed_timestep_truthy | reflexivity]|].
  destruct (hook_reset_advances_one_step pendulum initial fresh_scratch h (new pendulum)
              fixed_timestep_truthy eq_refl) as (sim' & Hs & Ht & _).
  exists sim'. split; [exact Hs | exact Ht].
Defined.

Lemma frame_covers_the_elapsed_time_witness :
  let h : Hook pendulum :=
    {| simulationRef := Some (new pendulum); hk_physicsState := None;
       hk_energy := {| kinetic := 0; potential := 0; total := 0 |} |} in
  let opts := {| autoStart := false; recordTrails := true; recordPhaseSpace := true |} in
  (simulationRef pendulum h = Some (new pendulum)
   /\ 1 / 1000 <= fixedTimestep (physics (config pendulum))
   /\ 0 <= 1 / 60 /\ 0 <= 1 <= 10)
  /\ exists after sim' (count : nat),
       frame pendulum opts true 1 initial fresh_scratch h (1 / 60) = Some after
       /\ simulationRef pendulum after.2 = Some sim'
       /\ time sim'
          = time (new pendulum) + INR count * fixedTimestep (physics (config pendulum)).
Proof.
  intros h opts.
  assert (H1 : 1 / 1000 <= fixedTimestep (physics (config pendulum))) by (cbn; lra).
  assert (H2 : 0 <= 1 / 60) by lra.
  assert (H3 : 0 <= 1 <= 10) by lra.
  split; [repeat split; try assumption; lra|].
  destruct (frame_covers_the_elapsed_time pendulum opts initial fresh_scratch h
              (new pendulum) (1 / 60) 1 eq_refl H1 H2 H3)
    as (after & sim' & count & Hf & Hs & Ht & _).
  exists after, sim', count. repeat split; assumption.
Defined.
End StoreInstances.
